(** * libcyphal transport core: a shallow embedding and its properties

    The development follows these source files:
    - [include/libcyphal/transport/udp/udp_transport_impl.hpp]
      (module [Udp]): the redundant UDP transport, its factory, TX drain,
      RX pump, node-id policy, session trees, transient-error policy,
      protocol parameters and destructor;
    - [include/libcyphal/transport/can/msg_tx_session.hpp]
      (module [Can]): the message TX session and its send timeout;
    - [include/libcyphal/executor.hpp] (module [Executor]): the RAII
      callback handle;
    - [libuavcan/include/uavcan/protocol/dynamic_node_id_server/node_id_selector.hpp]
      (module [NodeIDSelector]): the search for a free node id;
    - [test/ontarget/nucleo_144/src/main.c] (module [Nucleo]): the buffer
      comparison of the on-target UART test.

    External collaborators (media, sockets, the framer, the allocator)
    are oracles whose answers may depend on everything that has happened
    so far: every call to one of them is appended to a trace, newest
    event first, and the oracle reads that trace. *)

From stdpp Require Import base numbers list gmap.

(* ================================================================== *)
(** * The UDP transport                                                 *)
(* ================================================================== *)

Module Udp.

Local Open Scope Z_scope.

(** ** Data model *)

(** Modelled from the spec: the error taxonomy of [errors.hpp], which is
    not part of the sources at hand ([ArgumentError], [MemoryError],
    [PlatformError(code)], the duplicate error of the session tree and
    the framer-specific kinds). *)
Inductive AnyFailure : Type :=
| ArgumentError
| MemoryError
| PlatformError (code : Z)
| AlreadyExistsError
| CapacityError
| AnonymousError.

#[global] Instance AnyFailure_eq_dec : EqDecision AnyFailure.
Proof. solve_decision. Defined.

Definition NodeId : Type := Z.
Definition PortId : Type := Z.
Definition TimePoint : Type := Z.

(** Modelled from the spec: the two node-id constants of [udpard.h]
    (a 16-bit identifier whose all-ones value is the [UNSET] sentinel). *)
Definition UDPARD_NODE_ID_UNSET : NodeId := 0xFFFF.
Definition UDPARD_NODE_ID_MAX : NodeId := 0xFFFE.

Record IpEndpoint : Type := mkIpEndpoint
  { ip_address : Z;
    udp_port : Z }.

#[global] Instance IpEndpoint_eq_dec : EqDecision IpEndpoint.
Proof. solve_decision. Defined.

(** Modelled from the spec: one item of the framer's TX queue
    ([UdpardTxItem]); fragments of one logical transfer share
    [transfer_id]. [deadline_usec] is an unsigned 64-bit count of
    microseconds. *)
Record UdpardTxItem : Type := mkTxItem
  { deadline_usec : Z;
    priority : Z;
    transfer_id : Z;
    destination : IpEndpoint;
    dscp : Z;
    datagram_payload : list Z }.

#[global] Instance UdpardTxItem_eq_dec : EqDecision UdpardTxItem.
Proof. solve_decision. Defined.

(** [TimePoint{std::chrono::microseconds{usec}}] of an unsigned 64-bit
    microsecond count such as [deadline_usec]: the clock keeps its count
    in a signed 64-bit integer, so a count from [2^63] on comes out
    negative. *)
Definition TimePoint_of_usec (usec : Z) : TimePoint :=
  if decide (usec < 2 ^ 63)%Z then usec else (usec - 2 ^ 64)%Z.

(** Sockets are opaque handles; what they do is decided by the
    environment below. *)
Record ITxSocket : Type := mkTxSocket { tx_socket_id : nat }.
Record IRxSocket : Type := mkRxSocket { rx_socket_id : nat }.

#[global] Instance ITxSocket_eq_dec : EqDecision ITxSocket.
Proof. solve_decision. Defined.
#[global] Instance IRxSocket_eq_dec : EqDecision IRxSocket.
Proof. solve_decision. Defined.

(** [IMedia::MakeTxSocketResult]: a unique pointer (possibly null) or a
    failure. *)
Inductive MakeTxSocketResult : Type :=
| MakeTxSocketSuccess (ptr : option ITxSocket)
| MakeTxSocketFailure (f : AnyFailure).

Inductive MakeRxSocketResult : Type :=
| MakeRxSocketSuccess (ptr : option IRxSocket)
| MakeRxSocketFailure (f : AnyFailure).

(** [ITxSocket::SendResult]: [Success{is_accepted}] or a failure. *)
Inductive SendResult : Type :=
| SendSuccess (is_accepted : bool)
| SendFailure (f : AnyFailure).

Record RxMetadata : Type := mkRxMetadata
  { rx_timestamp : TimePoint;
    rx_payload : list Z }.

Inductive ReceiveResult : Type :=
| ReceiveSuccess (m : option RxMetadata)
| ReceiveFailure (f : AnyFailure).

(** [AnyUdpardTxMetadata::Variant]. *)
Inductive AnyUdpardTxMetadata : Type :=
| Publish (deadline_us prio subject_id tid : Z)
| Request (deadline_us prio service_id server_node_id tid : Z)
| Respond (deadline_us prio service_id client_node_id tid : Z).

Definition tx_deadline_us (m : AnyUdpardTxMetadata) : Z :=
  match m with
  | Publish d _ _ _ | Request d _ _ _ _ | Respond d _ _ _ _ => d
  end.

Definition tx_prio (m : AnyUdpardTxMetadata) : Z :=
  match m with
  | Publish _ p _ _ | Request _ p _ _ _ | Respond _ p _ _ _ => p
  end.

Definition tx_tid (m : AnyUdpardTxMetadata) : Z :=
  match m with
  | Publish _ _ _ t | Request _ _ _ _ t | Respond _ _ _ _ t => t
  end.

(** The culprit tags of [TransientErrorReport::Variant]; the reference to
    the culprit object itself is represented by the media index. *)
Inductive ReportKind : Type :=
| MediaMakeRxSocket
| MediaMakeTxSocket
| MediaTxSocketSend
| MediaRxSocketReceive
| UdpardTxPublish
| UdpardTxRequest
| UdpardTxRespond
| UdpardRxSvcReceive.

Record TransientErrorReport : Type := mkReport
  { report_kind : ReportKind;
    failure : AnyFailure;
    media_index : nat }.

Inductive RxKind : Type := MessageRx | RequestRx | ResponseRx.
Inductive TxKind : Type := MessageTx | RequestTx | ResponseTx.

#[global] Instance RxKind_eq_dec : EqDecision RxKind.
Proof. solve_decision. Defined.

(** ** Traces *)

(** Every interaction with the outside of the transport, newest first.
    [EvTransientError] records one transient failure together with the
    verdict of the transient-error policy on it. *)
Inductive Event : Type :=
| EvMakeTxSocket (i : nat) (result : MakeTxSocketResult)
| EvMakeRxSocket (i : nat) (endpoint : IpEndpoint) (result : MakeRxSocketResult)
| EvSend (i : nat) (deadline : TimePoint) (item : UdpardTxItem) (result : SendResult)
| EvTxFree (i : nat) (item : UdpardTxItem)
| EvReceive (i : nat) (result : ReceiveResult)
| EvRpcDispatch (i : nat) (result : Z)
| EvAcceptRxTransfer (port : PortId)
| EvContiguousPayload (ok : bool)
| EvTxPush (i : nat) (metadata : AnyUdpardTxMetadata) (result : Z)
| EvNodeAlloc (k : RxKind) (port : PortId) (ok : bool)
| EvRxSessionMake (k : RxKind) (port : PortId) (result : option AnyFailure)
| EvTxSessionMake (k : TxKind) (port : PortId) (result : option AnyFailure)
| EvTransientError (report : TransientErrorReport) (verdict : option AnyFailure).

Abbreviation Trace := (list Event).

Definition TransientErrorHandler : Type :=
  Trace → TransientErrorReport → option AnyFailure.

(** The collaborators of the transport. Each answer may depend on the
    whole history. *)
Record Env : Type := mkEnv
  { (** [IMedia::makeTxSocket] of the medium with the given index *)
    env_makeTxSocket : Trace → nat → MakeTxSocketResult;
    (** [IMedia::makeRxSocket] *)
    env_makeRxSocket : Trace → nat → IpEndpoint → MakeRxSocketResult;
    (** [ITxSocket::send(deadline, destination, dscp, fragments)] *)
    env_send : Trace → nat → ITxSocket → TimePoint → UdpardTxItem → SendResult;
    (** [IRxSocket::receive] *)
    env_receive : Trace → nat → IRxSocket → ReceiveResult;
    (** [ContiguousPayload]: [None] when the flattening buffer cannot be
        allocated *)
    env_contiguousPayload : Trace → list (list Z) → option (list Z);
    (** the framer's [udpardTxPublish/Request/Respond]: a result code and
        the datagrams (destination, dscp, payload) it produced *)
    env_udpardTx : Trace → nat → AnyUdpardTxMetadata → list Z →
                   Z * list (IpEndpoint * Z * list Z);
    (** the framer's [udpardRxRPCDispatcherReceive]: a result code and the
        port whose session receives a completed transfer *)
    env_udpardRxRPCDispatcherReceive : Trace → nat → RxMetadata → Z * PortId;
    (** allocation of a session-tree node *)
    env_nodeAlloc : Trace → RxKind → PortId → bool;
    (** [Concrete::make] of the RX and TX sessions: [None] on success *)
    env_rxSessionMake : Trace → RxKind → PortId → option AnyFailure;
    env_txSessionMake : Trace → TxKind → PortId → option AnyFailure }.

(** ** The transport state *)

(** [TransportImpl::Media]; [interface_] is the environment at [index_]. *)
Record Media : Type := mkMedia
  { index_ : nat;
    udpard_tx_ : list UdpardTxItem;
    rx_socket_ptr_ : option IRxSocket;
    tx_socket_ptr_ : option ITxSocket }.

Definition set_udpard_tx (m : Media) (q : list UdpardTxItem) : Media :=
  {| index_ := index_ m; udpard_tx_ := q;
     rx_socket_ptr_ := rx_socket_ptr_ m; tx_socket_ptr_ := tx_socket_ptr_ m |}.

Definition set_tx_socket_ptr (m : Media) (p : option ITxSocket) : Media :=
  {| index_ := index_ m; udpard_tx_ := udpard_tx_ m;
     rx_socket_ptr_ := rx_socket_ptr_ m; tx_socket_ptr_ := p |}.

Definition set_rx_socket_ptr (m : Media) (p : option IRxSocket) : Media :=
  {| index_ := index_ m; udpard_tx_ := udpard_tx_ m;
     rx_socket_ptr_ := p; tx_socket_ptr_ := tx_socket_ptr_ m |}.

(** Modelled from the spec: the session tree of [session_tree.hpp], a
    keyed collection of nodes with [ensure_new], [find] and [remove]. The
    nodes are kept as a list of their keys so that a duplicate key, were
    one ever linked, would be visible. *)
Abbreviation SessionTree := (list PortId).

Record TransportImpl : Type := mkTransport
  { node_id : NodeId;
    media_array_ : list Media;
    transient_error_handler_ : option TransientErrorHandler;
    msg_rx_session_nodes_ : SessionTree;
    svc_request_rx_session_nodes_ : SessionTree;
    svc_response_rx_session_nodes_ : SessionTree;
    svc_rx_sockets_endpoint_ : option IpEndpoint }.

Definition set_media_array (t : TransportImpl) (ms : list Media) : TransportImpl :=
  {| node_id := node_id t; media_array_ := ms;
     transient_error_handler_ := transient_error_handler_ t;
     msg_rx_session_nodes_ := msg_rx_session_nodes_ t;
     svc_request_rx_session_nodes_ := svc_request_rx_session_nodes_ t;
     svc_response_rx_session_nodes_ := svc_response_rx_session_nodes_ t;
     svc_rx_sockets_endpoint_ := svc_rx_sockets_endpoint_ t |}.

Definition tree_of (k : RxKind) (t : TransportImpl) : SessionTree :=
  match k with
  | MessageRx => msg_rx_session_nodes_ t
  | RequestRx => svc_request_rx_session_nodes_ t
  | ResponseRx => svc_response_rx_session_nodes_ t
  end.

Definition set_tree (k : RxKind) (t : TransportImpl) (tree : SessionTree) : TransportImpl :=
  {| node_id := node_id t; media_array_ := media_array_ t;
     transient_error_handler_ := transient_error_handler_ t;
     msg_rx_session_nodes_ :=
       match k with MessageRx => tree | _ => msg_rx_session_nodes_ t end;
     svc_request_rx_session_nodes_ :=
       match k with RequestRx => tree | _ => svc_request_rx_session_nodes_ t end;
     svc_response_rx_session_nodes_ :=
       match k with ResponseRx => tree | _ => svc_response_rx_session_nodes_ t end;
     svc_rx_sockets_endpoint_ := svc_rx_sockets_endpoint_ t |}.

(** Modelled from the spec: [makeMediaArray] numbers the media 0, 1, ...;
    every medium starts with an empty TX queue and no sockets. *)
Definition makeMediaArray (media_count : nat) : list Media :=
  map (λ i, mkMedia i [] None None) (seq 0 media_count).

(** The transport right after [make]: anonymous, no handler, empty
    trees, no RX endpoint. *)
Definition make_transport (media_count : nat) : TransportImpl :=
  {| node_id := UDPARD_NODE_ID_UNSET;
     media_array_ := makeMediaArray media_count;
     transient_error_handler_ := None;
     msg_rx_session_nodes_ := [];
     svc_request_rx_session_nodes_ := [];
     svc_response_rx_session_nodes_ := [];
     svc_rx_sockets_endpoint_ := None |}.

(** ** Operations *)

Section Operations.

(** The collaborators. *)
Variable env : Env.

(** [TransportDelegate::setNodeId] stores the node id and returns the
    service RX endpoint the framer derives from it; the derivation is the
    framer's and is taken as given. *)
Variable endpoint_of_node_id : NodeId → IpEndpoint.

(** [TransportDelegate::optAnyFailureFromUdpard]: the failure, if any,
    that a framer result code stands for. *)
Variable optAnyFailureFromUdpard : Z → option AnyFailure.

(** *** Node id *)

Definition getLocalNodeId (this : TransportImpl) : option NodeId :=
  if decide (node_id this > UDPARD_NODE_ID_MAX) then None
  else Some (node_id this).

Definition setNodeId (this : TransportImpl) (new_node_id : NodeId)
  : TransportImpl * IpEndpoint :=
  ({| node_id := new_node_id; media_array_ := media_array_ this;
      transient_error_handler_ := transient_error_handler_ this;
      msg_rx_session_nodes_ := msg_rx_session_nodes_ this;
      svc_request_rx_session_nodes_ := svc_request_rx_session_nodes_ this;
      svc_response_rx_session_nodes_ := svc_response_rx_session_nodes_ this;
      svc_rx_sockets_endpoint_ := svc_rx_sockets_endpoint_ this |},
   endpoint_of_node_id new_node_id).

Definition set_svc_rx_sockets_endpoint (this : TransportImpl) (e : option IpEndpoint)
  : TransportImpl :=
  {| node_id := node_id this; media_array_ := media_array_ this;
     transient_error_handler_ := transient_error_handler_ this;
     msg_rx_session_nodes_ := msg_rx_session_nodes_ this;
     svc_request_rx_session_nodes_ := svc_request_rx_session_nodes_ this;
     svc_response_rx_session_nodes_ := svc_response_rx_session_nodes_ this;
     svc_rx_sockets_endpoint_ := e |}.

Definition setLocalNodeId (this : TransportImpl) (new_node_id : NodeId)
  : TransportImpl * option AnyFailure :=
  if decide (new_node_id > UDPARD_NODE_ID_MAX) then (this, Some ArgumentError)
  else if decide (node_id this = new_node_id) then (this, None)
  else if decide (node_id this ≠ UDPARD_NODE_ID_UNSET) then (this, Some ArgumentError)
  else
    let '(this1, endpoint) := setNodeId this new_node_id in
    (set_svc_rx_sockets_endpoint this1 (Some endpoint), None).

Definition setTransientErrorHandler (this : TransportImpl)
  (handler : option TransientErrorHandler) : TransportImpl :=
  {| node_id := node_id this; media_array_ := media_array_ this;
     transient_error_handler_ := handler;
     msg_rx_session_nodes_ := msg_rx_session_nodes_ this;
     svc_request_rx_session_nodes_ := svc_request_rx_session_nodes_ this;
     svc_response_rx_session_nodes_ := svc_response_rx_session_nodes_ this;
     svc_rx_sockets_endpoint_ := svc_rx_sockets_endpoint_ this |}.

(** *** Transient-error policy *)

(** [tryHandleTransientMediaError<Report>(media, error, culprit)]. *)
Definition tryHandleTransientMediaError (this : TransportImpl) (kind : ReportKind)
  (media : Media) (error : AnyFailure) (tr : Trace) : Trace * option AnyFailure :=
  let report := mkReport kind error (index_ media) in
  match transient_error_handler_ this with
  | None => (EvTransientError report (Some error) :: tr, Some error)
  | Some handler =>
      let verdict := handler tr report in
      (EvTransientError report verdict :: tr, verdict)
  end.

(** [tryHandleTransientUdpardResult<Report>(media, result, culprit)]. *)
Definition tryHandleTransientUdpardResult (this : TransportImpl) (kind : ReportKind)
  (media : Media) (result : Z) (tr : Trace) : Trace * option AnyFailure :=
  match optAnyFailureFromUdpard result with
  | None => (tr, None)
  | Some error =>
      let report := mkReport kind error (index_ media) in
      match transient_error_handler_ this with
      | None => (EvTransientError report (Some error) :: tr, Some error)
      | Some handler =>
          let verdict := handler tr report in
          (EvTransientError report verdict :: tr, verdict)
      end
  end.

(** *** The framer's TX queue *)

(** [udpardTxPeek]: the head of the queue. *)
Definition udpardTxPeek (q : list UdpardTxItem) : option UdpardTxItem := head q.

(** Modelled from the spec: [popAndFreeUdpardTxItem(tx, item, whole)]
    pops and frees the peeked head item and, when [whole_transfer] is
    set, every other fragment sharing its transfer id. *)
Definition popAndFreeUdpardTxItem (media : Media) (whole_transfer : bool) (tr : Trace)
  : Media * Trace :=
  match udpard_tx_ media with
  | [] => (media, tr)
  | tx_item :: rest =>
      if whole_transfer then
        let same := filter (λ x, transfer_id x = transfer_id tx_item) rest in
        let others := filter (λ x, transfer_id x ≠ transfer_id tx_item) rest in
        (set_udpard_tx media others,
         reverse (EvTxFree (index_ media) <$> (tx_item :: same)) ++ tr)
      else
        (set_udpard_tx media rest, EvTxFree (index_ media) tx_item :: tr)
  end.

(** Modelled from the spec: the framer enqueues by priority (a smaller
    number is more urgent), first-in first-out within a priority. *)
Fixpoint txEnqueue (x : UdpardTxItem) (q : list UdpardTxItem) : list UdpardTxItem :=
  match q with
  | [] => [x]
  | y :: q' =>
      if decide (priority x < priority y) then x :: y :: q'
      else y :: txEnqueue x q'
  end.

Definition txEnqueueAll (xs q : list UdpardTxItem) : list UdpardTxItem :=
  foldl (λ acc x, txEnqueue x acc) q xs.

(** *** TX sockets and the TX drain *)

Definition Action (S : Type) : Type :=
  Media → S → Trace → Media * Trace * option AnyFailure.

(** [withEnsureMediaTxSocket(media, action)]: the TX socket is made on
    demand. *)
Definition withEnsureMediaTxSocket (this : TransportImpl) (media : Media)
  (action : Action ITxSocket) (tr : Trace) : Media * Trace * option AnyFailure :=
  match tx_socket_ptr_ media with
  | Some tx_socket => action media tx_socket tr
  | None =>
      let tx_socket_result := env_makeTxSocket env tr (index_ media) in
      let tr1 := EvMakeTxSocket (index_ media) tx_socket_result :: tr in
      match tx_socket_result with
      | MakeTxSocketFailure failure =>
          let '(tr2, r) :=
            tryHandleTransientMediaError this MediaMakeTxSocket media failure tr1 in
          (media, tr2, r)
      | MakeTxSocketSuccess None =>
          let '(tr2, r) :=
            tryHandleTransientMediaError this MediaMakeTxSocket media MemoryError tr1 in
          (media, tr2, r)
      | MakeTxSocketSuccess (Some tx_socket) =>
          action (set_tx_socket_ptr media (Some tx_socket)) tx_socket tr1
      end
  end.

Definition no_action {S : Type} : Action S := λ media _ tr, (media, tr, None).

(** The [for (Media& media : media_array_)] loops below all have the same
    shape: run a step on each medium in turn and leave at the first
    failure. *)
Fixpoint for_each_media (step : Media → Trace → Media * Trace * option AnyFailure)
  (medias : list Media) (tr : Trace) : list Media * Trace * option AnyFailure :=
  match medias with
  | [] => ([], tr, None)
  | media :: rest =>
      let '(media1, tr1, failure) := step media tr in
      match failure with
      | Some f => (media1 :: rest, tr1, Some f)
      | None =>
          let '(rest1, tr2, r) := for_each_media step rest tr1 in
          (media1 :: rest1, tr2, r)
      end
  end.

Definition ensureMediaTxSockets (this : TransportImpl) (tr : Trace)
  : TransportImpl * Trace * option AnyFailure :=
  let '(ms, tr1, r) :=
    for_each_media (λ media, withEnsureMediaTxSocket this media no_action)
                   (media_array_ this) tr in
  (set_media_array this ms, tr1, r).

(** The [while] loop of [runSingleMediaTransmit]. Every iteration that
    does not leave the loop pops at least the head item, so the length of
    the queue bounds the number of iterations. *)
Fixpoint runSingleMediaTransmit_loop (fuel : nat) (this : TransportImpl)
  (media : Media) (tx_socket : ITxSocket) (now : TimePoint) (tr : Trace)
  : Media * Trace * option AnyFailure :=
  match fuel with
  | O => (media, tr, None)
  | S fuel' =>
      match udpardTxPeek (udpard_tx_ media) with
      | None => (media, tr, None)
      | Some tx_item =>
          let deadline := TimePoint_of_usec (deadline_usec tx_item) in
          if decide (now >= deadline) then
            let '(media1, tr1) := popAndFreeUdpardTxItem media true tr in
            runSingleMediaTransmit_loop fuel' this media1 tx_socket now tr1
          else
            let send_result :=
              env_send env tr (index_ media) tx_socket deadline tx_item in
            let tr1 := EvSend (index_ media) deadline tx_item send_result :: tr in
            match send_result with
            | SendFailure send_failure =>
                let '(media1, tr2) := popAndFreeUdpardTxItem media true tr1 in
                let '(tr3, failure) :=
                  tryHandleTransientMediaError this MediaTxSocketSend media1
                                               send_failure tr2 in
                match failure with
                | Some f => (media1, tr3, Some f)
                | None =>
                    runSingleMediaTransmit_loop fuel' this media1 tx_socket now tr3
                end
            | SendSuccess is_accepted =>
                if negb is_accepted then (media, tr1, None)
                else
                  let '(media1, tr2) := popAndFreeUdpardTxItem media false tr1 in
                  runSingleMediaTransmit_loop fuel' this media1 tx_socket now tr2
            end
      end
  end.

Definition runSingleMediaTransmit (this : TransportImpl) (media : Media)
  (tx_socket : ITxSocket) (now : TimePoint) (tr : Trace)
  : Media * Trace * option AnyFailure :=
  runSingleMediaTransmit_loop (length (udpard_tx_ media)) this media tx_socket now tr.

Definition runMediaTransmit (this : TransportImpl) (now : TimePoint) (tr : Trace)
  : TransportImpl * Trace * option AnyFailure :=
  let '(ms, tr1, r) :=
    for_each_media
      (λ some_media,
         withEnsureMediaTxSocket this some_media
           (λ media tx_socket, runSingleMediaTransmit this media tx_socket now))
      (media_array_ this) tr in
  (set_media_array this ms, tr1, r).

(** *** RX sockets and the RX pump *)

(** [withEnsureMediaRxSocket(media, action)]: without an RX endpoint (the
    node id is not set yet) there is nothing to receive. *)
Definition withEnsureMediaRxSocket (this : TransportImpl) (media : Media)
  (action : Action IRxSocket) (tr : Trace) : Media * Trace * option AnyFailure :=
  match rx_socket_ptr_ media with
  | Some rx_socket => action media rx_socket tr
  | None =>
      match svc_rx_sockets_endpoint_ this with
      | None => (media, tr, None)
      | Some endpoint =>
          let rx_socket_result := env_makeRxSocket env tr (index_ media) endpoint in
          let tr1 := EvMakeRxSocket (index_ media) endpoint rx_socket_result :: tr in
          match rx_socket_result with
          | MakeRxSocketFailure failure =>
              let '(tr2, r) :=
                tryHandleTransientMediaError this MediaMakeRxSocket media failure tr1 in
              (media, tr2, r)
          | MakeRxSocketSuccess None =>
              let '(tr2, r) :=
                tryHandleTransientMediaError this MediaMakeRxSocket media MemoryError tr1 in
              (media, tr2, r)
          | MakeRxSocketSuccess (Some rx_socket) =>
              action (set_rx_socket_ptr media (Some rx_socket)) rx_socket tr1
          end
      end
  end.

Definition ensureMediaRxSockets (this : TransportImpl) (tr : Trace)
  : TransportImpl * Trace * option AnyFailure :=
  let '(ms, tr1, r) :=
    for_each_media (λ media, withEnsureMediaRxSocket this media no_action)
                   (media_array_ this) tr in
  (set_media_array this ms, tr1, r).

Definition runSingleMediaReceive (this : TransportImpl) (media : Media)
  (rx_socket : IRxSocket) (tr : Trace) : Media * Trace * option AnyFailure :=
  let receive_result := env_receive env tr (index_ media) rx_socket in
  let tr1 := EvReceive (index_ media) receive_result :: tr in
  match receive_result with
  | ReceiveFailure failure =>
      let '(tr2, r) :=
        tryHandleTransientMediaError this MediaRxSocketReceive media failure tr1 in
      (media, tr2, r)
  | ReceiveSuccess None => (media, tr1, None)
  | ReceiveSuccess (Some rx_meta) =>
      let '(result, out_port) :=
        env_udpardRxRPCDispatcherReceive env tr1 (index_ media) rx_meta in
      let tr2 := EvRpcDispatch (index_ media) result :: tr1 in
      let '(tr3, failure) :=
        tryHandleTransientUdpardResult this UdpardRxSvcReceive media result tr2 in
      match failure with
      | None =>
          if decide (result > 0) then (media, EvAcceptRxTransfer out_port :: tr3, None)
          else (media, tr3, None)
      | Some f => (media, tr3, Some f)
      end
  end.

Definition runMediaReceive (this : TransportImpl) (tr : Trace)
  : TransportImpl * Trace * option AnyFailure :=
  let '(ms, tr1, r) :=
    for_each_media
      (λ some_media,
         withEnsureMediaRxSocket this some_media
           (λ media rx_socket, runSingleMediaReceive this media rx_socket))
      (media_array_ this) tr in
  (set_media_array this ms, tr1, r).

(** *** [IRunnable::run] *)

Definition run (this : TransportImpl) (now : TimePoint) (tr : Trace)
  : TransportImpl * Trace * option AnyFailure :=
  let '(this1, tr1, failure) := runMediaTransmit this now tr in
  match failure with
  | Some f => (this1, tr1, Some f)
  | None => runMediaReceive this1 tr1
  end.

(** *** [sendAnyTransfer] *)

Definition report_kind_of (m : AnyUdpardTxMetadata) : ReportKind :=
  match m with
  | Publish _ _ _ _ => UdpardTxPublish
  | Request _ _ _ _ _ => UdpardTxRequest
  | Respond _ _ _ _ _ => UdpardTxRespond
  end.

(** Modelled from the spec: the items the framer links into the TX queue
    for one transfer carry the deadline, priority and transfer id of its
    metadata. *)
Definition tx_items_of (m : AnyUdpardTxMetadata)
  (datagrams : list (IpEndpoint * Z * list Z)) : list UdpardTxItem :=
  (λ d, mkTxItem (tx_deadline_us m) (tx_prio m) (tx_tid m) d.1.1 d.1.2 d.2)
    <$> datagrams.

(** [TxTransferHandler::operator()]: push the transfer into the medium's
    TX queue and route a framer error through the transient policy. *)
Definition TxTransferHandler (this : TransportImpl)
  (tx_metadata : AnyUdpardTxMetadata) (payload : list Z) : Action ITxSocket :=
  λ media _ tr,
    let '(result, datagrams) := env_udpardTx env tr (index_ media) tx_metadata payload in
    let tr1 := EvTxPush (index_ media) tx_metadata result :: tr in
    let media1 :=
      if decide (result > 0)
      then set_udpard_tx media
             (txEnqueueAll (tx_items_of tx_metadata datagrams) (udpard_tx_ media))
      else media in
    let '(tr2, r) :=
      tryHandleTransientUdpardResult this (report_kind_of tx_metadata) media1 result tr1 in
    (media1, tr2, r).

Definition sendAnyTransfer (this : TransportImpl)
  (tx_metadata_var : AnyUdpardTxMetadata) (payload_fragments : list (list Z))
  (tr : Trace) : TransportImpl * Trace * option AnyFailure :=
  match env_contiguousPayload env tr payload_fragments with
  | None => (this, EvContiguousPayload false :: tr, Some MemoryError)
  | Some payload =>
      let '(ms, tr1, r) :=
        for_each_media
          (λ some_media,
             withEnsureMediaTxSocket this some_media
               (TxTransferHandler this tx_metadata_var payload))
          (media_array_ this) (EvContiguousPayload true :: tr) in
      (set_media_array this ms, tr1, r)
  end.

(** *** Session trees and session factories *)

(** Modelled from the spec: [ensure_new(key)] links a new node unless one
    with that key is linked already (the duplicate error) or the node
    cannot be allocated. *)
Definition ensureNewNodeFor (k : RxKind) (port_id : PortId) (tree : SessionTree)
  (tr : Trace) : SessionTree * Trace * option AnyFailure :=
  if decide (port_id ∈ tree) then (tree, tr, Some AlreadyExistsError)
  else
    let ok := env_nodeAlloc env tr k port_id in
    let tr1 := EvNodeAlloc k port_id ok :: tr in
    if ok then (port_id :: tree, tr1, None) else (tree, tr1, Some MemoryError).

(** Modelled from the spec: [remove(key)] unlinks the node with that key,
    if there is one. *)
Fixpoint removeNodeFor (port_id : PortId) (tree : SessionTree) : SessionTree :=
  match tree with
  | [] => []
  | key :: rest =>
      if decide (key = port_id) then rest else key :: removeNodeFor port_id rest
  end.

Inductive RxSession : Type := mkRxSession (k : RxKind) (port : PortId).
Inductive TxSession : Type := mkTxSession (k : TxKind) (port : PortId).

#[global] Instance RxSession_eq_dec : EqDecision RxSession.
Proof. solve_decision. Defined.

(** [makeAnyRxSession(port_id, rx_params, tree_nodes)]. *)
Definition makeAnyRxSession (this : TransportImpl) (k : RxKind) (port_id : PortId)
  (tr : Trace) : TransportImpl * Trace * (AnyFailure + RxSession) :=
  let '(tree1, tr1, node_failure) := ensureNewNodeFor k port_id (tree_of k this) tr in
  match node_failure with
  | Some f => (this, tr1, inl f)
  | None =>
      let this1 := set_tree k this tree1 in
      let session_result := env_rxSessionMake env tr1 k port_id in
      let tr2 := EvRxSessionMake k port_id session_result :: tr1 in
      match session_result with
      | Some f => (set_tree k this1 (removeNodeFor port_id tree1), tr2, inl f)
      | None => (this1, tr2, inr (mkRxSession k port_id))
      end
  end.

Definition makeMessageRxSession (this : TransportImpl) (subject_id : PortId)
  (tr : Trace) : TransportImpl * Trace * (AnyFailure + RxSession) :=
  makeAnyRxSession this MessageRx subject_id tr.

Definition makeRequestRxSession (this : TransportImpl) (service_id : PortId)
  (tr : Trace) : TransportImpl * Trace * (AnyFailure + RxSession) :=
  let '(this1, tr1, failure) := ensureMediaRxSockets this tr in
  match failure with
  | Some f => (this1, tr1, inl f)
  | None => makeAnyRxSession this1 RequestRx service_id tr1
  end.

Definition makeResponseRxSession (this : TransportImpl) (service_id : PortId)
  (tr : Trace) : TransportImpl * Trace * (AnyFailure + RxSession) :=
  let '(this1, tr1, failure) := ensureMediaRxSockets this tr in
  match failure with
  | Some f => (this1, tr1, inl f)
  | None => makeAnyRxSession this1 ResponseRx service_id tr1
  end.

(** [makeMessageTxSession], [makeRequestTxSession] and
    [makeResponseTxSession] differ in the concrete session only. *)
Definition makeAnyTxSession (this : TransportImpl) (k : TxKind) (port_id : PortId)
  (tr : Trace) : TransportImpl * Trace * (AnyFailure + TxSession) :=
  let '(this1, tr1, failure) := ensureMediaTxSockets this tr in
  match failure with
  | Some f => (this1, tr1, inl f)
  | None =>
      let session_result := env_txSessionMake env tr1 k port_id in
      let tr2 := EvTxSessionMake k port_id session_result :: tr1 in
      match session_result with
      | Some f => (this1, tr2, inl f)
      | None => (this1, tr2, inr (mkTxSession k port_id))
      end
  end.

Definition makeMessageTxSession := λ this, makeAnyTxSession this MessageTx.
Definition makeRequestTxSession := λ this, makeAnyTxSession this RequestTx.
Definition makeResponseTxSession := λ this, makeAnyTxSession this ResponseTx.

(** [SessionEvent::Variant]: the three [Destroyed] events. *)
Inductive SessionEvent : Type :=
| MessageDestroyed (subject_id : PortId)
| RequestDestroyed (service_id : PortId)
| ResponseDestroyed (service_id : PortId).

Definition onSessionEvent (this : TransportImpl) (event_var : SessionEvent)
  : TransportImpl :=
  match event_var with
  | MessageDestroyed subject_id =>
      set_tree MessageRx this (removeNodeFor subject_id (msg_rx_session_nodes_ this))
  | RequestDestroyed service_id =>
      set_tree RequestRx this
        (removeNodeFor service_id (svc_request_rx_session_nodes_ this))
  | ResponseDestroyed service_id =>
      set_tree ResponseRx this
        (removeNodeFor service_id (svc_response_rx_session_nodes_ this))
  end.

(** *** The transport and its user *)

(** What the user of a transport holds: the transport itself, the
    sessions obtained from it and not destroyed yet, and the history. *)
Record System : Type := mkSystem
  { transport : TransportImpl;
    trace : Trace;
    live_rx : list RxSession;
    live_tx : list TxSession }.

Inductive Op : Type :=
| OpSetTransientErrorHandler (handler : option TransientErrorHandler)
| OpSetLocalNodeId (new_node_id : NodeId)
| OpMakeRxSession (k : RxKind) (port_id : PortId)
| OpMakeTxSession (k : TxKind) (port_id : PortId)
| OpDestroyRxSession (session : RxSession)
| OpSend (tx_metadata : AnyUdpardTxMetadata) (payload_fragments : list (list Z))
| OpRun (now : TimePoint).

Definition destroyed_event (session : RxSession) : SessionEvent :=
  match session with
  | mkRxSession MessageRx port => MessageDestroyed port
  | mkRxSession RequestRx port => RequestDestroyed port
  | mkRxSession ResponseRx port => ResponseDestroyed port
  end.

Fixpoint remove_first (session : RxSession) (l : list RxSession) : list RxSession :=
  match l with
  | [] => []
  | x :: rest => if decide (x = session) then rest else x :: remove_first session rest
  end.

Definition makeRxSession (this : TransportImpl) (k : RxKind) (port_id : PortId)
  (tr : Trace) : TransportImpl * Trace * (AnyFailure + RxSession) :=
  match k with
  | MessageRx => makeMessageRxSession this port_id tr
  | RequestRx => makeRequestRxSession this port_id tr
  | ResponseRx => makeResponseRxSession this port_id tr
  end.

Definition failure_of {A : Type} (r : AnyFailure + A) : option AnyFailure :=
  match r with inl f => Some f | inr _ => None end.

(** One call of the user into the transport, with the failure it
    reports, if any. Destroying an RX session publishes its [Destroyed]
    event (modelled from the spec: the session destructors are not part of
    the sources at hand); only a session that is held can be destroyed. *)
Definition step (op : Op) (s : System) : System * option AnyFailure :=
  match op with
  | OpSetTransientErrorHandler handler =>
      (mkSystem (setTransientErrorHandler (transport s) handler)
                (trace s) (live_rx s) (live_tx s), None)
  | OpSetLocalNodeId new_node_id =>
      let '(this1, r) := setLocalNodeId (transport s) new_node_id in
      (mkSystem this1 (trace s) (live_rx s) (live_tx s), r)
  | OpMakeRxSession k port_id =>
      let '(this1, tr1, r) := makeRxSession (transport s) k port_id (trace s) in
      (mkSystem this1 tr1
                (match r with inr session => session :: live_rx s | inl _ => live_rx s end)
                (live_tx s),
       failure_of r)
  | OpMakeTxSession k port_id =>
      let '(this1, tr1, r) := makeAnyTxSession (transport s) k port_id (trace s) in
      (mkSystem this1 tr1 (live_rx s)
                (match r with inr session => session :: live_tx s | inl _ => live_tx s end),
       failure_of r)
  | OpDestroyRxSession session =>
      if decide (session ∈ live_rx s) then
        (mkSystem (onSessionEvent (transport s) (destroyed_event session))
                  (trace s) (remove_first session (live_rx s)) (live_tx s), None)
      else (s, None)
  | OpSend tx_metadata payload_fragments =>
      let '(this1, tr1, r) :=
        sendAnyTransfer (transport s) tx_metadata payload_fragments (trace s) in
      (mkSystem this1 tr1 (live_rx s) (live_tx s), r)
  | OpRun now =>
      let '(this1, tr1, r) := run (transport s) now (trace s) in
      (mkSystem this1 tr1 (live_rx s) (live_tx s), r)
  end.

(** A whole session of use: the calls in order, each logged with the
    failure it reported. *)
Fixpoint exec (ops : list Op) (s : System)
  : System * list (Op * option AnyFailure) :=
  match ops with
  | [] => (s, [])
  | op :: rest =>
      let '(s1, r) := step op s in
      let '(s2, log) := exec rest s1 in
      (s2, (op, r) :: log)
  end.

Definition initial (media_count : nat) : System :=
  mkSystem (make_transport media_count) [] [] [].

(** *** Reading a trace *)

(** What the transient-error policy answers for a report: the failure
    itself when no handler is set, the handler's answer otherwise. *)
Definition policy_verdict (handler : option TransientErrorHandler) (tr : Trace)
  (report : TransientErrorReport) : option AnyFailure :=
  match handler with
  | None => Some (failure report)
  | Some h => h tr report
  end.

(** Every verdict recorded in the events [new] (which follow [tr]) is the
    one the policy gives at that moment. *)
Fixpoint obeys (handler : option TransientErrorHandler) (tr new : Trace) : Prop :=
  match new with
  | [] => True
  | e :: older =>
      obeys handler tr older ∧
      match e with
      | EvTransientError report verdict =>
          verdict = policy_verdict handler (older ++ tr) report
      | _ => True
      end
  end.

(** No transient error in [new] was given a failure as verdict. *)
Definition quiet (new : Trace) : Prop :=
  ∀ report f, EvTransientError report (Some f) ∉ new.

(** The result of a call against the events of that call: a failure is
    returned exactly when the newest event is a transient error whose
    verdict is that failure, and nothing before it had such a verdict. *)
Definition stops_at_failure (new : Trace) (r : option AnyFailure) : Prop :=
  match r with
  | Some f => ∃ report older, new = EvTransientError report (Some f) :: older ∧ quiet older
  | None => quiet new
  end.

(** The transient failure, if any, that an answer of a collaborator
    amounts to, as the report the transport files for it. *)
Definition failure_arising (e : Event) : option TransientErrorReport :=
  match e with
  | EvMakeTxSocket i (MakeTxSocketFailure f) => Some (mkReport MediaMakeTxSocket f i)
  | EvMakeTxSocket i (MakeTxSocketSuccess None) =>
      Some (mkReport MediaMakeTxSocket MemoryError i)
  | EvMakeRxSocket i _ (MakeRxSocketFailure f) => Some (mkReport MediaMakeRxSocket f i)
  | EvMakeRxSocket i _ (MakeRxSocketSuccess None) =>
      Some (mkReport MediaMakeRxSocket MemoryError i)
  | EvSend i _ _ (SendFailure f) => Some (mkReport MediaTxSocketSend f i)
  | EvReceive i (ReceiveFailure f) => Some (mkReport MediaRxSocketReceive f i)
  | EvRpcDispatch i result =>
      (λ f, mkReport UdpardRxSvcReceive f i) <$> optAnyFailureFromUdpard result
  | EvTxPush i m result =>
      (λ f, mkReport (report_kind_of m) f i) <$> optAnyFailureFromUdpard result
  | _ => None
  end.

(** Every failing answer in [new] is followed by the transient-error
    event that reports it. *)
Definition routed (new : Trace) : Prop :=
  ∀ post e pre report,
    new = post ++ e :: pre → failure_arising e = Some report →
    ∃ verdict, EvTransientError report verdict ∈ post.

(** A call that took the trace from [tr] to [tr'] and returned [r]
    followed the transient-error policy. *)
Definition follows_policy (handler : option TransientErrorHandler)
  (tr tr' : Trace) (r : option AnyFailure) : Prop :=
  ∃ new, tr' = new ++ tr ∧ obeys handler tr new ∧ stops_at_failure new r ∧ routed new.

(** An event that neither is a transient error nor carries a failure. *)
Definition benign (e : Event) : Prop :=
  failure_arising e = None ∧ ∀ report verdict, e ≠ EvTransientError report verdict.

(** *** The TX drain as a relation *)

(** The runs of the loop of [runSingleMediaTransmit], one constructor per
    way through its body. *)
Inductive drain (this : TransportImpl) (tx_socket : ITxSocket) (now : TimePoint)
  : Media → Trace → Media * Trace * option AnyFailure → Prop :=
| drain_empty media tr :
    udpard_tx_ media = [] →
    drain this tx_socket now media tr (media, tr, None)
| drain_expired media tr tx_item rest res :
    udpard_tx_ media = tx_item :: rest →
    now >= TimePoint_of_usec (deadline_usec tx_item) →
    drain this tx_socket now (popAndFreeUdpardTxItem media true tr).1
          (popAndFreeUdpardTxItem media true tr).2 res →
    drain this tx_socket now media tr res
| drain_would_block media tr tx_item rest :
    udpard_tx_ media = tx_item :: rest →
    ¬ now >= TimePoint_of_usec (deadline_usec tx_item) →
    env_send env tr (index_ media) tx_socket (TimePoint_of_usec (deadline_usec tx_item)) tx_item
      = SendSuccess false →
    drain this tx_socket now media tr
          (media,
           EvSend (index_ media)
             (TimePoint_of_usec (deadline_usec tx_item)) tx_item (SendSuccess false) :: tr,
           None)
| drain_accepted media tr tx_item rest res :
    udpard_tx_ media = tx_item :: rest →
    ¬ now >= TimePoint_of_usec (deadline_usec tx_item) →
    env_send env tr (index_ media) tx_socket (TimePoint_of_usec (deadline_usec tx_item)) tx_item
      = SendSuccess true →
    let e := EvSend (index_ media)
      (TimePoint_of_usec (deadline_usec tx_item)) tx_item (SendSuccess true) in
    drain this tx_socket now (popAndFreeUdpardTxItem media false (e :: tr)).1
          (popAndFreeUdpardTxItem media false (e :: tr)).2 res →
    drain this tx_socket now media tr res
| drain_failure_stop media tr tx_item rest send_failure f :
    udpard_tx_ media = tx_item :: rest →
    ¬ now >= TimePoint_of_usec (deadline_usec tx_item) →
    env_send env tr (index_ media) tx_socket (TimePoint_of_usec (deadline_usec tx_item)) tx_item
      = SendFailure send_failure →
    let e := EvSend (index_ media) (TimePoint_of_usec (deadline_usec tx_item)) tx_item
                    (SendFailure send_failure) in
    let popped := popAndFreeUdpardTxItem media true (e :: tr) in
    let handled :=
      tryHandleTransientMediaError this MediaTxSocketSend popped.1 send_failure
                                   popped.2 in
    handled.2 = Some f →
    drain this tx_socket now media tr (popped.1, handled.1, Some f)
| drain_failure_continue media tr tx_item rest send_failure res :
    udpard_tx_ media = tx_item :: rest →
    ¬ now >= TimePoint_of_usec (deadline_usec tx_item) →
    env_send env tr (index_ media) tx_socket (TimePoint_of_usec (deadline_usec tx_item)) tx_item
      = SendFailure send_failure →
    let e := EvSend (index_ media) (TimePoint_of_usec (deadline_usec tx_item)) tx_item
                    (SendFailure send_failure) in
    let popped := popAndFreeUdpardTxItem media true (e :: tr) in
    let handled :=
      tryHandleTransientMediaError this MediaTxSocketSend popped.1 send_failure
                                   popped.2 in
    handled.2 = None →
    drain this tx_socket now popped.1 handled.1 res →
    drain this tx_socket now media tr res.

(** What a drain of [media] at [now] may leave in the trace: sends of
    queued items that have not expired, frees of queued items, and
    transient errors of the TX socket. *)
Definition drain_event (media : Media) (now : TimePoint) (e : Event) : Prop :=
  match e with
  | EvSend i d item _ =>
      i = index_ media ∧ item ∈ udpard_tx_ media ∧
      d = TimePoint_of_usec (deadline_usec item) ∧ ¬ now >= d
  | EvTxFree i item => i = index_ media ∧ item ∈ udpard_tx_ media
  | EvTransientError report _ =>
      report_kind report = MediaTxSocketSend ∧ media_index report = index_ media
  | _ => False
  end.

(** *** Counting RX sockets *)

(** The step from [tr] to [tr'] added only events satisfying [P]. *)
Definition emits (P : Event → Prop) (tr tr' : Trace) : Prop :=
  ∃ new, tr' = new ++ tr ∧ Forall P new.

Definition not_make_rx_socket (e : Event) : Prop :=
  match e with EvMakeRxSocket _ _ _ => False | _ => True end.

(** The event is a [makeRxSocket] of medium [i] that handed out a socket. *)
Definition is_rx_socket_created (i : nat) (e : Event) : bool :=
  match e with
  | EvMakeRxSocket j _ (MakeRxSocketSuccess (Some _)) => bool_decide (j = i)
  | _ => false
  end.

Fixpoint rx_sockets_created (i : nat) (tr : Trace) : nat :=
  match tr with
  | [] => 0
  | e :: older =>
      ((if is_rx_socket_created i e then 1 else 0) + rx_sockets_created i older)%nat
  end.

Definition holds_rx_socket (i : nat) (m : Media) : bool :=
  bool_decide (index_ m = i) && bool_decide (is_Some (rx_socket_ptr_ m)).

Fixpoint rx_socket_holders (i : nat) (ms : list Media) : nat :=
  match ms with
  | [] => 0
  | m :: rest => ((if holds_rx_socket i m then 1 else 0) + rx_socket_holders i rest)%nat
  end.

(** *** Invariants of a transport in use *)

(** The RX endpoint is there exactly when the node id is set, and is the
    one derived from it; every [makeRxSocket] so far was asked for that
    endpoint; and a medium holds an RX socket exactly when one was handed
    out for it, once. *)
Definition rx_invariant (s : System) : Prop :=
  match svc_rx_sockets_endpoint_ (transport s) with
  | None => node_id (transport s) = UDPARD_NODE_ID_UNSET
  | Some endpoint =>
      node_id (transport s) <= UDPARD_NODE_ID_MAX ∧
      endpoint = endpoint_of_node_id (node_id (transport s))
  end ∧
  NoDup (index_ <$> media_array_ (transport s)) ∧
  (∀ i endpoint result,
     EvMakeRxSocket i endpoint result ∈ trace s →
     svc_rx_sockets_endpoint_ (transport s) = Some endpoint) ∧
  (∀ i, rx_sockets_created i (trace s)
        = rx_socket_holders i (media_array_ (transport s))).

(** Each session tree has one node per live session of its kind, and no
    two live sessions share kind and port. *)
Definition session_invariant (s : System) : Prop :=
  NoDup (live_rx s) ∧
  ∀ k, NoDup (tree_of k (transport s)) ∧
       ∀ port, port ∈ tree_of k (transport s) ↔ mkRxSession k port ∈ live_rx s.

(** What an RX-side step may add to the trace: a [makeRxSocket] only for
    the endpoint the transport has stored. *)
Definition rx_event_ok (this : TransportImpl) (e : Event) : Prop :=
  match e with
  | EvMakeRxSocket _ endpoint _ => svc_rx_sockets_endpoint_ this = Some endpoint
  | _ => True
  end.

(** A step on one medium keeps its index, asks for RX sockets at the
    stored endpoint only, and hands the medium an RX socket exactly when
    one is created for its index. *)
Definition rx_step_ok (this : TransportImpl)
  (step : Media → Trace → Media * Trace * option AnyFailure) : Prop :=
  ∀ media tr,
    index_ (step media tr).1.1 = index_ media ∧
    emits (rx_event_ok this) tr (step media tr).1.2 ∧
    ∀ i, (rx_sockets_created i (step media tr).1.2 + rx_socket_holders i [media]
          = rx_sockets_created i tr + rx_socket_holders i [(step media tr).1.1])%nat.

(** An action that leaves index and RX socket alone and makes no RX
    socket. *)
Definition rx_neutral {S : Type} (action : Action S) : Prop :=
  ∀ media sock tr,
    index_ (action media sock tr).1.1 = index_ media ∧
    rx_socket_ptr_ (action media sock tr).1.1 = rx_socket_ptr_ media ∧
    emits not_make_rx_socket tr (action media sock tr).1.2.

(** A call that took transport and trace from [(this, tr)] to
    [(this', tr')] kept node id, endpoint and media indices, asked for RX
    sockets at the stored endpoint only, and handed out RX sockets to
    exactly the media that now hold one more. *)
Definition rx_op_ok (this : TransportImpl) (tr : Trace)
  (this' : TransportImpl) (tr' : Trace) : Prop :=
  node_id this' = node_id this ∧
  svc_rx_sockets_endpoint_ this' = svc_rx_sockets_endpoint_ this ∧
  index_ <$> media_array_ this' = index_ <$> media_array_ this ∧
  emits (rx_event_ok this) tr tr' ∧
  ∀ i, (rx_sockets_created i tr' + rx_socket_holders i (media_array_ this)
        = rx_sockets_created i tr + rx_socket_holders i (media_array_ this'))%nat.

(** *** What a finished loop over the media leaves behind *)

Definition tx_socket_event (e : Event) : Prop :=
  match e with
  | EvMakeTxSocket _ _ | EvTransientError _ _ => True
  | _ => False
  end.

(** The failure to make a socket of kind [kind] for medium [m] was
    swallowed by the handler during the events [new]. *)
Definition make_failure_swallowed (kind : ReportKind) (new : Trace) (m : Media) : Prop :=
  ∃ error, EvTransientError (mkReport kind error (index_ m)) None ∈ new.

(** After [ensureMediaTxSockets]: the medium has its TX socket, unless
    making it failed and the handler swallowed the failure. *)
Definition tx_socket_ensured (new : Trace) (m : Media) : Prop :=
  is_Some (tx_socket_ptr_ m) ∨ make_failure_swallowed MediaMakeTxSocket new m.

(** What [ensureMediaTxSockets] did to one medium, [m] before and [m']
    after, during the events [new]: a medium that has its TX socket is
    left as it is; for a medium without one [makeTxSocket] was called, and
    the medium either holds the socket that was made or, the failure to
    make it having been swallowed by the handler, is as it was, without
    TX socket. *)
Definition tx_socket_attempted (new : Trace) (m m' : Media) : Prop :=
  match tx_socket_ptr_ m with
  | Some _ => m' = m
  | None =>
      (∃ tx_socket,
         EvMakeTxSocket (index_ m) (MakeTxSocketSuccess (Some tx_socket)) ∈ new ∧
         m' = set_tx_socket_ptr m (Some tx_socket)) ∨
      ((∃ result, EvMakeTxSocket (index_ m) result ∈ new) ∧
       make_failure_swallowed MediaMakeTxSocket new m ∧
       m' = m)
  end.

(** After the TX drain of [run]: the medium has its TX socket and its
    queue is empty or stopped at an item the socket would not take yet,
    unless making the socket failed and the handler swallowed the
    failure. *)
Definition tx_drained (now : TimePoint) (new : Trace) (m : Media) : Prop :=
  (is_Some (tx_socket_ptr_ m) ∧
   (udpard_tx_ m = [] ∨
    ∃ item rest, udpard_tx_ m = item :: rest ∧ ¬ now >= TimePoint_of_usec (deadline_usec item) ∧
                 EvSend (index_ m)
                   (TimePoint_of_usec (deadline_usec item)) item (SendSuccess false) ∈ new)) ∨
  make_failure_swallowed MediaMakeTxSocket new m.

(** After the RX pump of [run]: the medium has its RX socket and was
    asked for a datagram, unless there is no RX endpoint yet or making the
    socket failed and the handler swallowed the failure. *)
Definition rx_pumped (this : TransportImpl) (new : Trace) (m : Media) : Prop :=
  (is_Some (rx_socket_ptr_ m) ∧ ∃ result, EvReceive (index_ m) result ∈ new) ∨
  (rx_socket_ptr_ m = None ∧ svc_rx_sockets_endpoint_ this = None) ∨
  make_failure_swallowed MediaMakeRxSocket new m.

(** After [sendAnyTransfer]: the transfer was pushed to the medium's
    queue, unless making its TX socket failed and the handler swallowed
    the failure. *)
Definition tx_pushed (tx_metadata : AnyUdpardTxMetadata) (new : Trace) (m : Media)
  : Prop :=
  (is_Some (tx_socket_ptr_ m) ∧
   ∃ result, EvTxPush (index_ m) tx_metadata result ∈ new) ∨
  make_failure_swallowed MediaMakeTxSocket new m.

(** *** The transient-error policy, case by case *)

(** A call that took the trace from [tr] to [tr'] and returned [r]
    treated every transient failure as the policy says: each failing
    answer of a collaborator was reported; without a handler the failure
    was returned; with a handler the verdict was the handler's answer; a
    verdict [Some f] ended the call at once with [f]; and with nothing but
    swallowed failures the call returned no failure. *)
Definition honours_transient_policy (handler : option TransientErrorHandler)
  (tr tr' : Trace) (r : option AnyFailure) : Prop :=
  ∃ new, tr' = new ++ tr ∧
    routed new ∧
    (handler = None →
     ∀ report verdict, EvTransientError report verdict ∈ new →
       verdict = Some (failure report) ∧ r = Some (failure report)) ∧
    (∀ h, handler = Some h →
     ∀ post report verdict pre, new = post ++ EvTransientError report verdict :: pre →
       verdict = h (pre ++ tr) report) ∧
    (∀ post report f pre, new = post ++ EvTransientError report (Some f) :: pre →
       post = [] ∧ r = Some f) ∧
    ((∀ report f, EvTransientError report (Some f) ∉ new) → r = None).

(** *** What the two halves of [run] may leave in the trace *)

(** An event of the TX half of [run] at [now] on medium [media]: making
    its TX socket, sending one of its queued frames before the deadline
    of that frame, freeing one of its queued frames, or a transient error
    of one of these. *)
Definition tx_run_event (now : TimePoint) (media : Media) (e : Event) : Prop :=
  match e with
  | EvMakeTxSocket i _ => i = index_ media
  | EvSend i deadline item _ =>
      i = index_ media ∧ item ∈ udpard_tx_ media ∧
      deadline = TimePoint_of_usec (deadline_usec item) ∧ now < deadline
  | EvTxFree i item => i = index_ media ∧ item ∈ udpard_tx_ media
  | EvTransientError report _ =>
      media_index report = index_ media ∧
      (report_kind report = MediaMakeTxSocket ∨ report_kind report = MediaTxSocketSend)
  | _ => False
  end.

(** An event of the RX half of [run] on medium [media]. *)
Definition rx_run_event (media : Media) (e : Event) : Prop :=
  match e with
  | EvMakeRxSocket i _ _ | EvReceive i _ | EvRpcDispatch i _ => i = index_ media
  | EvAcceptRxTransfer _ => True
  | EvTransientError report _ =>
      media_index report = index_ media ∧
      (report_kind report = MediaMakeRxSocket ∨
       report_kind report = MediaRxSocketReceive ∨
       report_kind report = UdpardRxSvcReceive)
  | _ => False
  end.

(** The event belongs to one of the media [medias]. *)
Definition at_some_media (Q : Media → Event → Prop) (medias : list Media) (e : Event)
  : Prop :=
  ∃ media, media ∈ medias ∧ Q media e.

(** The TX and the RX side of the transport, whatever the medium. *)
Definition tx_side (e : Event) : Prop :=
  match e with
  | EvMakeTxSocket _ _ | EvSend _ _ _ _ | EvTxFree _ _ => True
  | EvTransientError report _ =>
      report_kind report = MediaMakeTxSocket ∨ report_kind report = MediaTxSocketSend
  | _ => False
  end.

Definition rx_side (e : Event) : Prop :=
  match e with
  | EvMakeRxSocket _ _ _ | EvReceive _ _ | EvRpcDispatch _ _ | EvAcceptRxTransfer _ => True
  | EvTransientError report _ =>
      report_kind report = MediaMakeRxSocket ∨
      report_kind report = MediaRxSocketReceive ∨
      report_kind report = UdpardRxSvcReceive
  | _ => False
  end.

(** What [sendAnyTransfer] may leave in the trace: flattening the
    payload, making a TX socket, pushing the transfer to the framer, and
    transient errors of the latter two. *)
Definition enqueue_event (tx_metadata : AnyUdpardTxMetadata) (e : Event) : Prop :=
  match e with
  | EvContiguousPayload _ | EvMakeTxSocket _ _ => True
  | EvTxPush _ metadata _ => metadata = tx_metadata
  | EvTransientError report _ =>
      report_kind report = MediaMakeTxSocket ∨
      report_kind report = report_kind_of tx_metadata
  | _ => False
  end.

(** What a drain leaves in the trace when every frame of the queue [q] of
    medium [i] is sent and accepted: for each frame, oldest first, its
    send and then its release. The trace has the newest event first. *)
Definition sent_and_freed (i : nat) (q : list UdpardTxItem) : Trace :=
  concat ((λ item, [EvTxFree i item;
                    EvSend i (TimePoint_of_usec (deadline_usec item)) item (SendSuccess true)])
            <$> reverse q).

(** *** Counting TX sockets *)

Definition not_make_tx_socket (e : Event) : Prop :=
  match e with EvMakeTxSocket _ _ => False | _ => True end.

(** The event is a [makeTxSocket] of medium [i] that handed out a socket. *)
Definition is_tx_socket_created (i : nat) (e : Event) : bool :=
  match e with
  | EvMakeTxSocket j (MakeTxSocketSuccess (Some _)) => bool_decide (j = i)
  | _ => false
  end.

Fixpoint tx_sockets_created (i : nat) (tr : Trace) : nat :=
  match tr with
  | [] => 0
  | e :: older =>
      ((if is_tx_socket_created i e then 1 else 0) + tx_sockets_created i older)%nat
  end.

Definition holds_tx_socket (i : nat) (m : Media) : bool :=
  bool_decide (index_ m = i) && bool_decide (is_Some (tx_socket_ptr_ m)).

Fixpoint tx_socket_holders (i : nat) (ms : list Media) : nat :=
  match ms with
  | [] => 0
  | m :: rest => ((if holds_tx_socket i m then 1 else 0) + tx_socket_holders i rest)%nat
  end.

(** An action that leaves index and TX socket alone and makes no TX
    socket. *)
Definition tx_neutral {S : Type} (action : Action S) : Prop :=
  ∀ media sock tr,
    index_ (action media sock tr).1.1 = index_ media ∧
    tx_socket_ptr_ (action media sock tr).1.1 = tx_socket_ptr_ media ∧
    emits not_make_tx_socket tr (action media sock tr).1.2.

(** A step on one medium keeps its index and hands the medium a TX socket
    exactly when one is created for its index. *)
Definition tx_step_ok (step : Media → Trace → Media * Trace * option AnyFailure) : Prop :=
  ∀ media tr,
    index_ (step media tr).1.1 = index_ media ∧
    ∀ i, (tx_sockets_created i (step media tr).1.2 + tx_socket_holders i [media]
          = tx_sockets_created i tr + tx_socket_holders i [(step media tr).1.1])%nat.

(** A call that took transport and trace from [(this, tr)] to
    [(this', tr')] kept the media indices and handed out TX sockets to
    exactly the media that now hold one more. *)
Definition tx_op_ok (this : TransportImpl) (tr : Trace)
  (this' : TransportImpl) (tr' : Trace) : Prop :=
  index_ <$> media_array_ this' = index_ <$> media_array_ this ∧
  ∀ i, (tx_sockets_created i tr' + tx_socket_holders i (media_array_ this)
        = tx_sockets_created i tr + tx_socket_holders i (media_array_ this'))%nat.

(** The media have indices of their own, and a medium holds a TX socket
    exactly when one was handed out for it, once. *)
Definition tx_invariant (s : System) : Prop :=
  NoDup (index_ <$> media_array_ (transport s)) ∧
  ∀ i, tx_sockets_created i (trace s) = tx_socket_holders i (media_array_ (transport s)).

(** *** Counting what the RX pump does *)

Fixpoint count_events (p : Event → bool) (tr : Trace) : nat :=
  match tr with
  | [] => 0
  | e :: older => ((if p e then 1 else 0) + count_events p older)%nat
  end.







(** *** An anonymous node *)

(** As long as there is no RX endpoint, nothing has happened on the RX
    side. *)
Definition quiet_rx_invariant (s : System) : Prop :=
  svc_rx_sockets_endpoint_ (transport s) = None →
  Forall (λ e, ¬ rx_side e) (trace s).

(** A frame handed to a TX socket. *)
Definition is_send (e : Event) : bool :=
  match e with EvSend _ _ _ _ => true | _ => false end.


End Operations.

(** ** Scripted collaborators *)

(** Collaborators that always give the same answers, for running the
    transport on concrete inputs: the media hand out [tx_make] and
    [rx_make], the TX sockets answer [send], nothing is ever received, and
    the framer turns every transfer into one datagram. *)
Definition scripted_env (tx_make : MakeTxSocketResult) (rx_make : MakeRxSocketResult)
  (send : SendResult) : Env :=
  {| env_makeTxSocket := λ _ _, tx_make;
     env_makeRxSocket := λ _ _ _, rx_make;
     env_send := λ _ _ _ _ _, send;
     env_receive := λ _ _ _, ReceiveSuccess None;
     env_contiguousPayload := λ _ fragments, Some (concat fragments);
     env_udpardTx := λ _ _ _ payload, (1, [(mkIpEndpoint 0xEF000000 9382, 0, payload)]);
     env_udpardRxRPCDispatcherReceive := λ _ _ _, (0, 0);
     env_nodeAlloc := λ _ _ _, true;
     env_rxSessionMake := λ _ _ _, None;
     env_txSessionMake := λ _ _ _, None |}.

(** Collaborators that never fail. *)
Definition friendly_env : Env :=
  scripted_env (MakeTxSocketSuccess (Some (mkTxSocket 0)))
               (MakeRxSocketSuccess (Some (mkRxSocket 0)))
               (SendSuccess true).

(** An endpoint derivation in the style of the framer: a multicast group
    address carrying the node id, and the fixed Cyphal/UDP port. *)
Definition example_endpoint (n : NodeId) : IpEndpoint :=
  mkIpEndpoint (Z.lor 0xEF010000 n) 9382.

(** A reading of framer result codes: the negated error codes stand for
    failures, everything else for success. *)
Definition example_failure_of_result (result : Z) : option AnyFailure :=
  if decide (result = -2) then Some ArgumentError
  else if decide (result = -3) then Some MemoryError
  else if decide (result = -4) then Some CapacityError
  else if decide (result = -5) then Some AnonymousError
  else None.

(** A handler that swallows every transient failure. *)
Definition swallow_all : TransientErrorHandler := λ _ _, None.

(** A queue holding a two-fragment transfer with deadline 10 and a
    single-fragment transfer with deadline 100, on a medium that has its
    TX socket. *)
Definition fragment_a1 : UdpardTxItem :=
  mkTxItem 10 4 1 (mkIpEndpoint 0xEF000000 9382) 0 [1; 2].
Definition fragment_a2 : UdpardTxItem :=
  mkTxItem 10 4 1 (mkIpEndpoint 0xEF000000 9382) 0 [3].
Definition fragment_b : UdpardTxItem :=
  mkTxItem 100 4 2 (mkIpEndpoint 0xEF000000 9382) 0 [4].

Definition example_media : Media :=
  mkMedia 0 [fragment_a1; fragment_a2; fragment_b] None (Some (mkTxSocket 0)).

(** Media whose TX sockets cannot be made, whose RX sockets cannot be
    made, and TX sockets that are busy or broken. *)
Definition no_tx_socket_env : Env :=
  scripted_env (MakeTxSocketFailure (PlatformError 5))
               (MakeRxSocketSuccess (Some (mkRxSocket 0))) (SendSuccess true).
Definition no_rx_socket_env : Env :=
  scripted_env (MakeTxSocketSuccess (Some (mkTxSocket 0)))
               (MakeRxSocketFailure (PlatformError 5)) (SendSuccess true).
Definition busy_env : Env :=
  scripted_env (MakeTxSocketSuccess (Some (mkTxSocket 0)))
               (MakeRxSocketSuccess (Some (mkRxSocket 0))) (SendSuccess false).
Definition broken_env : Env :=
  scripted_env (MakeTxSocketSuccess (Some (mkTxSocket 0)))
               (MakeRxSocketSuccess (Some (mkRxSocket 0)))
               (SendFailure (PlatformError 5)).

(** ** Properties *)

Section Properties.

Variable env : Env.
Variable endpoint_of_node_id : NodeId → IpEndpoint.
Variable optAnyFailureFromUdpard : Z → option AnyFailure.

Local Abbreviation follows_policy := (follows_policy optAnyFailureFromUdpard).
Local Abbreviation routed := (routed optAnyFailureFromUdpard).
Local Abbreviation benign := (benign optAnyFailureFromUdpard).
Local Abbreviation failure_arising := (failure_arising optAnyFailureFromUdpard).

(** *** Composition of policy-abiding calls *)

Lemma obeys_app handler tr new1 new2 :
  obeys handler tr new1 → obeys handler (new1 ++ tr) new2 →
  obeys handler tr (new2 ++ new1).
Proof.
  intros H1. induction new2 as [|e new2 IH]; simpl; [done|].
  intros [H2 He]. split; [by apply IH|].
  destruct e; try done. by rewrite <- app_assoc.
Qed.

Lemma quiet_nil : quiet [].
Proof. intros report f H. by apply elem_of_nil in H. Qed.

Lemma quiet_app new1 new2 : quiet new1 → quiet new2 → quiet (new2 ++ new1).
Proof.
  intros H1 H2 report f [H|H]%elem_of_app; [by eapply H2 | by eapply H1].
Qed.

Lemma quiet_cons e new :
  (∀ report f, e ≠ EvTransientError report (Some f)) → quiet new → quiet (e :: new).
Proof.
  intros He Hq report f [H|H]%elem_of_cons; [by eapply He | by eapply Hq].
Qed.

Lemma routed_nil : routed [].
Proof. intros post e pre report H. by destruct post. Qed.

Lemma routed_app new1 new2 : routed new1 → routed new2 → routed (new2 ++ new1).
Proof.
  intros H1 H2 post e pre report Heq Hf.
  apply app_eq_inv in Heq as [[k [-> Hk]]|[k [-> Hk]]].
  - destruct k as [|e' k]; simpl in Hk.
    + subst new1. destruct (H1 [] e pre report eq_refl Hf) as [v Hv].
      by apply elem_of_nil in Hv.
    + injection Hk as -> ->. eapply H2; [reflexivity | done].
  - destruct (H1 k e pre report Hk Hf) as [v Hv].
    exists v. apply elem_of_app. by right.
Qed.

Lemma routed_benign e new : benign e → routed new → routed (e :: new).
Proof.
  intros [He _] Hr post e' pre report Heq Hf.
  destruct post as [|e0 post]; simpl in Heq.
  - injection Heq as <- <-. congruence.
  - injection Heq as <- ->. destruct (Hr post e' pre report eq_refl Hf) as [v Hv].
    exists v. by right.
Qed.

Lemma follows_policy_refl handler tr : follows_policy handler tr tr None.
Proof.
  exists []. split_and!; [done | done | apply quiet_nil | apply routed_nil].
Qed.

Lemma follows_policy_trans handler tr tr1 tr2 r :
  follows_policy handler tr tr1 None → follows_policy handler tr1 tr2 r →
  follows_policy handler tr tr2 r.
Proof.
  intros (new1 & -> & Ho1 & Hs1 & Hr1) (new2 & -> & Ho2 & Hs2 & Hr2).
  exists (new2 ++ new1). split_and!.
  - by rewrite app_assoc.
  - by apply obeys_app.
  - destruct r as [f|]; simpl in *.
    + destruct Hs2 as (report & older & -> & Hq).
      exists report, (older ++ new1). split; [done | by apply quiet_app].
    + by apply quiet_app.
  - by apply routed_app.
Qed.

Lemma follows_policy_benign handler tr e :
  benign e → follows_policy handler tr (e :: tr) None.
Proof.
  intros He. exists [e]. split_and!; [done | | |].
  - simpl. split; [done|]. destruct e; try done. destruct He as [_ He]. by exfalso; eapply He.
  - apply quiet_cons; [|apply quiet_nil]. intros report f. apply He.
  - apply routed_benign; [done | apply routed_nil].
Qed.

Lemma benign_all handler tr l :
  Forall benign l → obeys handler tr l ∧ quiet l ∧ routed l.
Proof.
  induction 1 as [|e l He Hl (Ho & Hq & Hr)]; simpl.
  - split_and!; [done | apply quiet_nil | apply routed_nil].
  - split; [split; [done|] | split].
    + destruct e; try done. destruct He as [_ He]. by exfalso; eapply He.
    + apply quiet_cons; [|done]. intros report f. apply He.
    + by apply routed_benign.
Qed.

Lemma follows_policy_benign_all handler tr l :
  Forall benign l → follows_policy handler tr (l ++ tr) None.
Proof.
  intros Hl. destruct (benign_all handler tr l Hl) as (Ho & Hq & Hr).
  by exists l.
Qed.

(** A failing answer [e], whatever is freed on its account, and then the
    verdict of the policy on it. *)
Lemma follows_policy_failure handler tr e frees report :
  failure_arising e = Some report → Forall benign frees →
  let verdict := policy_verdict handler (frees ++ e :: tr) report in
  follows_policy handler tr
    (EvTransientError report verdict :: frees ++ e :: tr) verdict.
Proof.
  intros He Hfrees verdict.
  destruct (benign_all handler (e :: tr) frees Hfrees) as (Ho & Hq & Hr).
  assert (Hqe : quiet (frees ++ [e])).
  { apply quiet_app; [|done]. apply quiet_cons; [|apply quiet_nil].
    intros report' f ->. done. }
  exists (EvTransientError report verdict :: frees ++ [e]). split_and!.
  - simpl. by rewrite <- app_assoc.
  - simpl. split.
    + apply obeys_app; [|done]. simpl. split; [done|]. by destruct e.
    + by rewrite <- app_assoc.
  - destruct verdict as [f|] eqn:Hv; simpl.
    + by exists report, (frees ++ [e]).
    + apply quiet_cons; [|done]. intros report' f. congruence.
  - intros post e' pre report' Heq Hf.
    destruct post as [|e0 post]; simpl in Heq.
    { injection Heq as <- _. done. }
    injection Heq as <- Heq.
    apply app_eq_inv in Heq as [[k [-> Hk]]|[k [-> Hk]]].
    + destruct k as [|e1 k]; simplify_eq/=.
      * exists verdict. by left.
      * destruct (Hr post e1 k report' eq_refl Hf) as [v Hv].
        exists v. by right.
    + destruct k as [|e1 k]; simplify_eq/=.
      * exists verdict. by left.
      * by destruct k.
Qed.

(** *** The policy along the code *)

Section WithTransport.

Variable this : TransportImpl.

Local Abbreviation handler := (transient_error_handler_ this).
Local Abbreviation tryHandleTransientUdpardResult :=
  (tryHandleTransientUdpardResult optAnyFailureFromUdpard).

(** A step on one medium follows the policy from every trace. *)
Definition step_follows_policy
  (step : Media → Trace → Media * Trace * option AnyFailure) : Prop :=
  ∀ media tr, follows_policy handler tr (step media tr).1.2 (step media tr).2.

Definition action_follows_policy {S : Type} (action : Action S) : Prop :=
  ∀ media sock tr,
    follows_policy handler tr (action media sock tr).1.2 (action media sock tr).2.

Lemma tryHandleTransientMediaError_verdict kind media error tr :
  tryHandleTransientMediaError this kind media error tr =
  (EvTransientError (mkReport kind error (index_ media))
     (policy_verdict handler tr (mkReport kind error (index_ media))) :: tr,
   policy_verdict handler tr (mkReport kind error (index_ media))).
Proof.
  unfold tryHandleTransientMediaError, policy_verdict.
  by destruct (transient_error_handler_ this).
Qed.

Lemma tryHandleTransientMediaError_follows kind media error tr e frees :
  failure_arising e = Some (mkReport kind error (index_ media)) →
  Forall benign frees →
  follows_policy handler tr
    (tryHandleTransientMediaError this kind media error (frees ++ e :: tr)).1
    (tryHandleTransientMediaError this kind media error (frees ++ e :: tr)).2.
Proof.
  intros He Hfrees. rewrite tryHandleTransientMediaError_verdict. simpl.
  by apply follows_policy_failure.
Qed.

Lemma tryHandleTransientUdpardResult_follows kind media result tr e :
  failure_arising e =
    (λ f, mkReport kind f (index_ media)) <$> optAnyFailureFromUdpard result →
  (∀ report verdict, e ≠ EvTransientError report verdict) →
  follows_policy handler tr
    (tryHandleTransientUdpardResult this kind media result (e :: tr)).1
    (tryHandleTransientUdpardResult this kind media result (e :: tr)).2.
Proof.
  intros He Hne. unfold Udp.tryHandleTransientUdpardResult.
  destruct (optAnyFailureFromUdpard result) as [error|] eqn:Hres; simpl in *.
  - pose proof (follows_policy_failure handler tr e [] _ He (Forall_nil_2 _)) as H.
    simpl in H. unfold policy_verdict in H.
    by destruct (transient_error_handler_ this).
  - by apply follows_policy_benign.
Qed.

Lemma popAndFreeUdpardTxItem_trace media whole tr :
  ∃ frees, (popAndFreeUdpardTxItem media whole tr).2 = frees ++ tr ∧
           Forall (λ e, ∃ item, e = EvTxFree (index_ media) item) frees.
Proof.
  unfold popAndFreeUdpardTxItem. destruct (udpard_tx_ media) as [|tx_item rest].
  { by exists []. }
  destruct whole.
  - eexists. split; [reflexivity|].
    apply Forall_reverse, Forall_fmap, Forall_forall. intros item _. by eexists.
  - exists [EvTxFree (index_ media) tx_item]. split; [done|].
    apply Forall_singleton. by eexists.
Qed.

Lemma popAndFreeUdpardTxItem_benign media whole tr :
  ∃ frees, (popAndFreeUdpardTxItem media whole tr).2 = frees ++ tr ∧
           Forall benign frees.
Proof.
  destruct (popAndFreeUdpardTxItem_trace media whole tr) as (frees & Heq & Hf).
  exists frees. split; [done|]. eapply Forall_impl; [exact Hf|].
  intros e [item ->]. by split.
Qed.

Lemma popAndFreeUdpardTxItem_index media whole tr :
  index_ (popAndFreeUdpardTxItem media whole tr).1 = index_ media.
Proof.
  unfold popAndFreeUdpardTxItem. destruct (udpard_tx_ media); [done|].
  by destruct whole.
Qed.

Lemma withEnsureMediaTxSocket_follows action :
  action_follows_policy action →
  step_follows_policy (λ media, withEnsureMediaTxSocket env this media action).
Proof.
  intros Ha media tr. unfold withEnsureMediaTxSocket.
  destruct (tx_socket_ptr_ media) as [tx_socket|]; [apply Ha|].
  destruct (env_makeTxSocket env tr (index_ media)) as [[tx_socket|]|f] eqn:Hres.
  - eapply follows_policy_trans; [|apply Ha].
    by apply follows_policy_benign.
  - rewrite tryHandleTransientMediaError_verdict. simpl.
    by apply (follows_policy_failure handler tr _ []).
  - rewrite tryHandleTransientMediaError_verdict. simpl.
    by apply (follows_policy_failure handler tr _ []).
Qed.

Lemma withEnsureMediaRxSocket_follows action :
  action_follows_policy action →
  step_follows_policy (λ media, withEnsureMediaRxSocket env this media action).
Proof.
  intros Ha media tr. unfold withEnsureMediaRxSocket.
  destruct (rx_socket_ptr_ media) as [rx_socket|]; [apply Ha|].
  destruct (svc_rx_sockets_endpoint_ this) as [endpoint|];
    [|apply follows_policy_refl].
  destruct (env_makeRxSocket env tr (index_ media) endpoint) as [[rx_socket|]|f] eqn:Hres.
  - eapply follows_policy_trans; [|apply Ha].
    by apply follows_policy_benign.
  - rewrite tryHandleTransientMediaError_verdict. simpl.
    by apply (follows_policy_failure handler tr _ []).
  - rewrite tryHandleTransientMediaError_verdict. simpl.
    by apply (follows_policy_failure handler tr _ []).
Qed.

Lemma no_action_follows {S : Type} : action_follows_policy (@no_action S).
Proof. intros media sock tr. apply follows_policy_refl. Qed.

Lemma for_each_media_follows step medias tr :
  step_follows_policy step →
  follows_policy handler tr (for_each_media step medias tr).1.2
                            (for_each_media step medias tr).2.
Proof.
  intros Hstep. revert tr. induction medias as [|media rest IH]; intros tr; simpl.
  { apply follows_policy_refl. }
  pose proof (Hstep media tr) as H.
  destruct (step media tr) as [[media1 tr1] [f|]]; simpl in *; [done|].
  specialize (IH tr1).
  destruct (for_each_media step rest tr1) as [[rest1 tr2] r]; simpl in *.
  by eapply follows_policy_trans.
Qed.

Lemma runSingleMediaTransmit_loop_follows fuel media tx_socket now tr :
  follows_policy handler tr
    (runSingleMediaTransmit_loop env fuel this media tx_socket now tr).1.2
    (runSingleMediaTransmit_loop env fuel this media tx_socket now tr).2.
Proof.
  revert media tr. induction fuel as [|fuel IH]; intros media tr; simpl.
  { apply follows_policy_refl. }
  destruct (udpardTxPeek (udpard_tx_ media)) as [tx_item|];
    [|apply follows_policy_refl].
  case_decide as Hexpired.
  - destruct (popAndFreeUdpardTxItem_benign media true tr) as (frees & Heq & Hb).
    destruct (popAndFreeUdpardTxItem media true tr) as [media1 tr1].
    simpl in Heq. subst tr1.
    eapply follows_policy_trans; [by apply follows_policy_benign_all | apply IH].
  - destruct (env_send env tr (index_ media) tx_socket
    (TimePoint_of_usec (deadline_usec tx_item)) tx_item)
      as [is_accepted|send_failure] eqn:Hsend.
    + destruct is_accepted; simpl.
      * set (e := EvSend _ _ _ _).
        destruct (popAndFreeUdpardTxItem_benign media false (e :: tr))
          as (frees & Heq & Hb).
        destruct (popAndFreeUdpardTxItem media false (e :: tr)) as [media1 tr1].
        simpl in Heq. subst tr1.
        eapply follows_policy_trans; [by apply (follows_policy_benign handler tr e)|].
        eapply follows_policy_trans; [by apply follows_policy_benign_all | apply IH].
      * by apply follows_policy_benign.
    + set (e := EvSend _ _ _ _).
      destruct (popAndFreeUdpardTxItem_benign media true (e :: tr))
        as (frees & Heq & Hb).
      pose proof (popAndFreeUdpardTxItem_index media true (e :: tr)) as Hidx.
      destruct (popAndFreeUdpardTxItem media true (e :: tr)) as [media1 tr1].
      simpl in Heq, Hidx. subst tr1.
      rewrite tryHandleTransientMediaError_verdict, Hidx.
      pose proof (follows_policy_failure handler tr e frees
                    (mkReport MediaTxSocketSend send_failure (index_ media))
                    eq_refl Hb) as Hfail.
      simpl in Hfail.
      destruct (policy_verdict handler (frees ++ e :: tr)
                  (mkReport MediaTxSocketSend send_failure (index_ media)))
        as [f|]; simpl; [done|].
      eapply follows_policy_trans; [exact Hfail | apply IH].
Qed.

Lemma runSingleMediaTransmit_follows now :
  action_follows_policy
    (λ media tx_socket, runSingleMediaTransmit env this media tx_socket now).
Proof. intros media tx_socket tr. apply runSingleMediaTransmit_loop_follows. Qed.

Lemma runSingleMediaReceive_follows :
  action_follows_policy
    (runSingleMediaReceive env optAnyFailureFromUdpard this).
Proof.
  intros media rx_socket tr. unfold runSingleMediaReceive.
  destruct (env_receive env tr (index_ media) rx_socket) as [[rx_meta|]|f] eqn:Hrecv.
  - set (e := EvReceive _ _).
    destruct (env_udpardRxRPCDispatcherReceive env (e :: tr) (index_ media) rx_meta)
      as [result out_port].
    set (d := EvRpcDispatch (index_ media) result).
    pose proof (tryHandleTransientUdpardResult_follows UdpardRxSvcReceive media result
                  (e :: tr) d eq_refl) as H.
    destruct (tryHandleTransientUdpardResult this UdpardRxSvcReceive media result
                (d :: e :: tr)) as [tr3 [f|]]; simpl in *.
    + eapply follows_policy_trans; [by apply (follows_policy_benign handler tr e)|].
      by apply H.
    + case_decide; simpl.
      * eapply follows_policy_trans; [by apply (follows_policy_benign handler tr e)|].
        eapply follows_policy_trans; [by apply H|].
        by apply follows_policy_benign.
      * eapply follows_policy_trans; [by apply (follows_policy_benign handler tr e)|].
        by apply H.
  - by apply follows_policy_benign.
  - rewrite tryHandleTransientMediaError_verdict. simpl.
    by apply (follows_policy_failure handler tr _ []).
Qed.

Lemma TxTransferHandler_follows tx_metadata payload :
  action_follows_policy
    (TxTransferHandler env optAnyFailureFromUdpard this tx_metadata payload).
Proof.
  intros media tx_socket tr. unfold TxTransferHandler.
  destruct (env_udpardTx env tr (index_ media) tx_metadata payload)
    as [result datagrams].
  set (media1 := if decide (result > 0) then _ else _).
  assert (Hidx : index_ media1 = index_ media) by (subst media1; by case_decide).
  set (e := EvTxPush (index_ media) tx_metadata result).
  pose proof (tryHandleTransientUdpardResult_follows (report_kind_of tx_metadata)
                media1 result tr e) as H.
  destruct (tryHandleTransientUdpardResult this (report_kind_of tx_metadata) media1
              result (e :: tr)) as [tr2 r]; simpl in *.
  apply H; [by rewrite Hidx | done].
Qed.

Lemma runMediaTransmit_follows now tr :
  follows_policy handler tr (runMediaTransmit env this now tr).1.2
                            (runMediaTransmit env this now tr).2.
Proof.
  unfold runMediaTransmit.
  pose proof (for_each_media_follows
                (λ some_media, withEnsureMediaTxSocket env this some_media
                   (λ media tx_socket, runSingleMediaTransmit env this media tx_socket now))
                (media_array_ this) tr
                (withEnsureMediaTxSocket_follows _ (runSingleMediaTransmit_follows now)))
    as H.
  by destruct (for_each_media _ _ _) as [[ms tr1] r].
Qed.

(** *** The TX queue under the drain *)

Lemma popAndFreeUdpardTxItem_cons media tx_item rest whole tr :
  udpard_tx_ media = tx_item :: rest →
  popAndFreeUdpardTxItem media whole tr =
  if whole then
    (set_udpard_tx media (filter (λ x, transfer_id x ≠ transfer_id tx_item) rest),
     reverse (EvTxFree (index_ media) <$>
                (tx_item :: filter (λ x, transfer_id x = transfer_id tx_item) rest))
       ++ tr)
  else (set_udpard_tx media rest, EvTxFree (index_ media) tx_item :: tr).
Proof. intros Hq. unfold popAndFreeUdpardTxItem. by rewrite Hq. Qed.

Lemma popAndFreeUdpardTxItem_sublist media tx_item rest whole tr :
  udpard_tx_ media = tx_item :: rest →
  udpard_tx_ (popAndFreeUdpardTxItem media whole tr).1 `sublist_of` rest.
Proof.
  intros Hq. rewrite (popAndFreeUdpardTxItem_cons _ _ _ _ _ Hq).
  destruct whole; simpl; [apply sublist_filter; apply _ | done].
Qed.

Lemma popAndFreeUdpardTxItem_sockets media whole tr :
  tx_socket_ptr_ (popAndFreeUdpardTxItem media whole tr).1 = tx_socket_ptr_ media ∧
  rx_socket_ptr_ (popAndFreeUdpardTxItem media whole tr).1 = rx_socket_ptr_ media.
Proof.
  unfold popAndFreeUdpardTxItem. destruct (udpard_tx_ media); [done|].
  by destruct whole.
Qed.

Lemma runSingleMediaTransmit_loop_drain fuel media tx_socket now tr :
  (length (udpard_tx_ media) ≤ fuel)%nat →
  drain env this tx_socket now media tr
        (runSingleMediaTransmit_loop env fuel this media tx_socket now tr).
Proof.
  revert media tr. induction fuel as [|fuel IH]; intros media tr Hlen; simpl.
  { apply drain_empty. destruct (udpard_tx_ media); [done | simpl in Hlen; lia]. }
  destruct (udpard_tx_ media) as [|tx_item rest] eqn:Hq; simpl.
  { by apply drain_empty. }
  assert (Hpop : ∀ whole tr0,
    (length (udpard_tx_ (popAndFreeUdpardTxItem media whole tr0).1) ≤ fuel)%nat).
  { intros whole tr0.
    pose proof (sublist_length _ _
                  (popAndFreeUdpardTxItem_sublist media tx_item rest whole tr0 Hq)).
    simpl in Hlen. lia. }
  case_decide as Hexpired.
  - eapply drain_expired; [done..|].
    specialize (Hpop true tr).
    destruct (popAndFreeUdpardTxItem media true tr) as [media1 tr1]. by apply IH.
  - destruct (env_send env tr (index_ media) tx_socket
    (TimePoint_of_usec (deadline_usec tx_item)) tx_item)
      as [[|]|send_failure] eqn:Hsend; simpl.
    + eapply drain_accepted; [done..|].
      specialize (Hpop false
        (EvSend (index_ media)
          (TimePoint_of_usec (deadline_usec tx_item)) tx_item (SendSuccess true) :: tr)).
      destruct (popAndFreeUdpardTxItem media false _) as [media1 tr1]. by apply IH.
    + by eapply drain_would_block.
    + specialize (Hpop true
        (EvSend (index_ media) (TimePoint_of_usec (deadline_usec tx_item)) tx_item
                (SendFailure send_failure) :: tr)).
      destruct (popAndFreeUdpardTxItem media true _) as [media1 tr1] eqn:Hp.
      destruct (tryHandleTransientMediaError this MediaTxSocketSend media1
                  send_failure tr1) as [tr3 [f|]] eqn:Hh; simpl in *.
      * pose proof (drain_failure_stop env this tx_socket now media tr tx_item rest
                      send_failure f Hq Hexpired Hsend) as H.
        simpl in H. rewrite Hp in H. simpl in H. rewrite Hh in H. by apply H.
      * pose proof (drain_failure_continue env this tx_socket now media tr tx_item rest
                      send_failure) as H.
        simpl in H. rewrite Hp in H. simpl in H. rewrite Hh in H.
        eapply H; [done..|]. by apply IH.
Qed.

Lemma runSingleMediaTransmit_drain media tx_socket now tr :
  drain env this tx_socket now media tr
        (runSingleMediaTransmit env this media tx_socket now tr).
Proof. by apply runSingleMediaTransmit_loop_drain. Qed.

(** The drain is a function of its arguments: the relation has one
    result. *)
Lemma drain_deterministic tx_socket now media tr res1 res2 :
  drain env this tx_socket now media tr res1 →
  drain env this tx_socket now media tr res2 → res1 = res2.
Proof.
  intros H1. revert res2.
  induction H1 as [media tr Hq|media tr tx_item rest res Hq Hexp _ IH
                  |media tr tx_item rest Hq Hexp Hsend
                  |media tr tx_item rest res Hq Hexp Hsend e _ IH
                  |media tr tx_item rest send_failure f Hq Hexp Hsend e popped handled Hv
                  |media tr tx_item rest send_failure res Hq Hexp Hsend e popped handled
                     Hv _ IH];
    intros res2 H2; inversion H2; subst;
    repeat match goal with
           | Ha : udpard_tx_ ?m = _, Hb : udpard_tx_ ?m = _ |- _ =>
               rewrite Ha in Hb; simplify_eq
           | x := _ |- _ => subst x
           end;
    repeat match goal with
           | Ha : env_send _ _ _ _ _ _ = _, Hb : env_send _ _ _ _ _ _ = _ |- _ =>
               rewrite Ha in Hb; simplify_eq
           end;
    try done; try congruence; try (by apply IH).
Qed.

Lemma drain_event_mono media1 media now e :
  index_ media1 = index_ media →
  udpard_tx_ media1 `sublist_of` udpard_tx_ media →
  drain_event media1 now e → drain_event media now e.
Proof.
  intros Hi Hs. destruct e; simpl; try done; rewrite Hi.
  - intros (? & ? & ? & ?). eauto using elem_of_sublist.
  - intros (? & ?). eauto using elem_of_sublist.
  - done.
Qed.

Lemma popAndFreeUdpardTxItem_frees media tx_item rest whole tr now :
  udpard_tx_ media = tx_item :: rest →
  ∃ frees, (popAndFreeUdpardTxItem media whole tr).2 = frees ++ tr ∧
           Forall (drain_event media now) frees.
Proof.
  intros Hq. rewrite (popAndFreeUdpardTxItem_cons _ _ _ _ _ Hq).
  destruct whole.
  - eexists. split; [reflexivity|].
    apply Forall_reverse, Forall_fmap, Forall_forall. intros item Hitem. simpl.
    split; [done|]. rewrite Hq.
    apply elem_of_cons in Hitem as [->|Hitem]; [by left|right].
    by apply list_elem_of_filter in Hitem as [_ ?].
  - exists [EvTxFree (index_ media) tx_item]. split; [done|].
    apply Forall_singleton. simpl. rewrite Hq. split; [done | by left].
Qed.

Lemma popAndFreeUdpardTxItem_state media tx_item rest whole tr :
  udpard_tx_ media = tx_item :: rest →
  index_ (popAndFreeUdpardTxItem media whole tr).1 = index_ media ∧
  tx_socket_ptr_ (popAndFreeUdpardTxItem media whole tr).1 = tx_socket_ptr_ media ∧
  rx_socket_ptr_ (popAndFreeUdpardTxItem media whole tr).1 = rx_socket_ptr_ media ∧
  udpard_tx_ (popAndFreeUdpardTxItem media whole tr).1 `sublist_of` udpard_tx_ media.
Proof.
  intros Hq. split_and!.
  - apply popAndFreeUdpardTxItem_index.
  - apply popAndFreeUdpardTxItem_sockets.
  - apply popAndFreeUdpardTxItem_sockets.
  - rewrite Hq. apply sublist_cons.
    by apply (popAndFreeUdpardTxItem_sublist media tx_item rest whole tr).
Qed.

(** The drain leaves the medium's index and sockets alone and only ever
    removes items from its queue. *)
Lemma drain_state tx_socket now media tr res :
  drain env this tx_socket now media tr res →
  index_ res.1.1 = index_ media ∧
  tx_socket_ptr_ res.1.1 = tx_socket_ptr_ media ∧
  rx_socket_ptr_ res.1.1 = rx_socket_ptr_ media ∧
  udpard_tx_ res.1.1 `sublist_of` udpard_tx_ media.
Proof.
  induction 1 as [media tr Hq|media tr tx_item rest res Hq Hexp _ IH
                 |media tr tx_item rest Hq Hexp Hsend
                 |media tr tx_item rest res Hq Hexp Hsend e _ IH
                 |media tr tx_item rest send_failure f Hq Hexp Hsend e popped handled Hv
                 |media tr tx_item rest send_failure res Hq Hexp Hsend e popped handled
                    Hv _ IH]; simpl; try done.
  - destruct (popAndFreeUdpardTxItem_state media tx_item rest true tr Hq)
      as (Hi & Ht & Hr & Hs).
    destruct IH as (-> & -> & -> & IH). split_and!; try done. by etrans.
  - destruct (popAndFreeUdpardTxItem_state media tx_item rest false (e :: tr) Hq)
      as (Hi & Ht & Hr & Hs).
    destruct IH as (-> & -> & -> & IH). split_and!; try done. by etrans.
  - by apply (popAndFreeUdpardTxItem_state media tx_item rest true (e :: tr)).
  - destruct (popAndFreeUdpardTxItem_state media tx_item rest true (e :: tr) Hq)
      as (Hi & Ht & Hr & Hs).
    destruct IH as (-> & -> & -> & IH). split_and!; try done. by etrans.
Qed.

(** Everything the drain adds to the trace is a [drain_event]. *)
Lemma drain_events tx_socket now media tr res :
  drain env this tx_socket now media tr res →
  ∃ new, res.1.2 = new ++ tr ∧ Forall (drain_event media now) new.
Proof.
  induction 1 as [media tr Hq|media tr tx_item rest res Hq Hexp _ IH
                 |media tr tx_item rest Hq Hexp Hsend
                 |media tr tx_item rest res Hq Hexp Hsend e _ IH
                 |media tr tx_item rest send_failure f Hq Hexp Hsend e popped handled Hv
                 |media tr tx_item rest send_failure res Hq Hexp Hsend e popped handled
                    Hv _ IH]; simpl.
  - by exists [].
  - destruct (popAndFreeUdpardTxItem_state media tx_item rest true tr Hq)
      as (Hi & _ & _ & Hs).
    destruct (popAndFreeUdpardTxItem_frees media tx_item rest true tr now Hq)
      as (frees & Hfr & Hfrees).
    destruct IH as (new & -> & Hnew). rewrite Hfr.
    exists (new ++ frees). split; [by rewrite app_assoc|].
    apply Forall_app. split; [|done].
    eapply Forall_impl; [exact Hnew|]. intros e. by apply drain_event_mono.
  - eexists [_]. split; [done|]. apply Forall_singleton. simpl.
    rewrite Hq. split_and!; [done | by left | done | done].
  - destruct (popAndFreeUdpardTxItem_state media tx_item rest false (e :: tr) Hq)
      as (Hi & _ & _ & Hs).
    destruct (popAndFreeUdpardTxItem_frees media tx_item rest false (e :: tr) now Hq)
      as (frees & Hfr & Hfrees).
    destruct IH as (new & -> & Hnew). rewrite Hfr.
    exists (new ++ frees ++ [e]). split; [by rewrite <- !app_assoc|].
    apply Forall_app. split; [|apply Forall_app; split; [done|]].
    + eapply Forall_impl; [exact Hnew|]. intros e'. by apply drain_event_mono.
    + apply Forall_singleton. simpl.
      rewrite Hq. split_and!; [done | by left | done | done].
  - destruct (popAndFreeUdpardTxItem_state media tx_item rest true (e :: tr) Hq)
      as (Hi & _ & _ & Hs).
    destruct (popAndFreeUdpardTxItem_frees media tx_item rest true (e :: tr) now Hq)
      as (frees & Hfr & Hfrees).
    subst handled. rewrite tryHandleTransientMediaError_verdict. simpl.
    subst popped. rewrite Hfr, Hi.
    eexists (_ :: frees ++ [e]). split; [simpl; by rewrite <- app_assoc|].
    apply Forall_cons. split; [done|].
    apply Forall_app. split; [done|]. apply Forall_singleton. simpl.
    rewrite Hq. split_and!; [done | by left | done | done].
  - destruct (popAndFreeUdpardTxItem_state media tx_item rest true (e :: tr) Hq)
      as (Hi & _ & _ & Hs).
    destruct (popAndFreeUdpardTxItem_frees media tx_item rest true (e :: tr) now Hq)
      as (frees & Hfr & Hfrees).
    destruct IH as (new & -> & Hnew).
    subst handled. rewrite tryHandleTransientMediaError_verdict. simpl.
    subst popped. rewrite Hfr, Hi.
    eexists (new ++ _ :: frees ++ [e]).
    split; [simpl; by rewrite <- !app_assoc; simpl; rewrite <- app_assoc|].
    apply Forall_app. split.
    { eapply Forall_impl; [exact Hnew|]. intros e'. by apply drain_event_mono. }
    apply Forall_cons. split; [done|].
    apply Forall_app. split; [done|]. apply Forall_singleton. simpl.
    rewrite Hq. split_and!; [done | by left | done | done].
Qed.

(** A drain that reports no failure ends on an empty queue or on the
    head item that the socket would not take. *)
Lemma drain_complete tx_socket now media tr res :
  drain env this tx_socket now media tr res → res.2 = None →
  udpard_tx_ res.1.1 = [] ∨
  ∃ item rest older,
    udpard_tx_ res.1.1 = item :: rest ∧ ¬ now >= TimePoint_of_usec (deadline_usec item) ∧
    res.1.2 = EvSend (index_ media)
      (TimePoint_of_usec (deadline_usec item)) item (SendSuccess false) :: older ∧
    tr `suffix_of` older.
Proof.
  induction 1 as [media tr Hq|media tr tx_item rest res Hq Hexp _ IH
                 |media tr tx_item rest Hq Hexp Hsend
                 |media tr tx_item rest res Hq Hexp Hsend e _ IH
                 |media tr tx_item rest send_failure f Hq Hexp Hsend e popped handled Hv
                 |media tr tx_item rest send_failure res Hq Hexp Hsend e popped handled
                    Hv _ IH]; simpl; intros Hres; try done.
  - by left.
  - destruct (popAndFreeUdpardTxItem_state media tx_item rest true tr Hq)
      as (Hi & _ & _ & Hs).
    destruct (popAndFreeUdpardTxItem_frees media tx_item rest true tr now Hq)
      as (frees & Hfr & _).
    destruct (IH Hres) as [?|(item & rest' & older & ? & ? & ? & Hsuf)]; [by left|right].
    exists item, rest', older. rewrite <- Hi. split_and!; try done.
    etrans; [|exact Hsuf]. rewrite Hfr. by apply suffix_app_r.
  - right. by exists tx_item, rest, tr.
  - destruct (popAndFreeUdpardTxItem_state media tx_item rest false (e :: tr) Hq)
      as (Hi & _ & _ & Hs).
    destruct (popAndFreeUdpardTxItem_frees media tx_item rest false (e :: tr) now Hq)
      as (frees & Hfr & _).
    destruct (IH Hres) as [?|(item & rest' & older & ? & ? & ? & Hsuf)]; [by left|right].
    exists item, rest', older. rewrite <- Hi. split_and!; try done.
    etrans; [|exact Hsuf]. rewrite Hfr. by apply suffix_app_r, suffix_cons_r.
  - destruct (popAndFreeUdpardTxItem_state media tx_item rest true (e :: tr) Hq)
      as (Hi & _ & _ & Hs).
    destruct (popAndFreeUdpardTxItem_frees media tx_item rest true (e :: tr) now Hq)
      as (frees & Hfr & _).
    destruct (IH Hres) as [?|(item & rest' & older & ? & ? & ? & Hsuf)]; [by left|right].
    exists item, rest', older. rewrite <- Hi. split_and!; try done.
    etrans; [|exact Hsuf].
    subst handled. rewrite tryHandleTransientMediaError_verdict. simpl.
    subst popped. rewrite Hfr. by apply suffix_cons_r, suffix_app_r, suffix_cons_r.
Qed.

(** One iteration on an expired head: the drain goes on from the popped
    queue. *)
Lemma runSingleMediaTransmit_expired media tx_socket now tr tx_item rest :
  udpard_tx_ media = tx_item :: rest → now >= TimePoint_of_usec (deadline_usec tx_item) →
  runSingleMediaTransmit env this media tx_socket now tr =
  runSingleMediaTransmit env this (popAndFreeUdpardTxItem media true tr).1 tx_socket now
                         (popAndFreeUdpardTxItem media true tr).2.
Proof.
  intros Hq Hexp.
  eapply drain_deterministic; [apply runSingleMediaTransmit_drain|].
  eapply drain_expired; [done..|]. apply runSingleMediaTransmit_drain.
Qed.

Lemma runSingleMediaTransmit_would_block media tx_socket now tr tx_item rest :
  udpard_tx_ media = tx_item :: rest → ¬ now >= TimePoint_of_usec (deadline_usec tx_item) →
  env_send env tr (index_ media) tx_socket (TimePoint_of_usec (deadline_usec tx_item)) tx_item
    = SendSuccess false →
  runSingleMediaTransmit env this media tx_socket now tr =
  (media,
   EvSend (index_ media)
     (TimePoint_of_usec (deadline_usec tx_item)) tx_item (SendSuccess false) :: tr,
   None).
Proof.
  intros Hq Hexp Hsend.
  eapply drain_deterministic; [apply runSingleMediaTransmit_drain|].
  by eapply drain_would_block.
Qed.

Lemma runSingleMediaTransmit_failure media tx_socket now tr tx_item rest send_failure :
  udpard_tx_ media = tx_item :: rest → ¬ now >= TimePoint_of_usec (deadline_usec tx_item) →
  env_send env tr (index_ media) tx_socket (TimePoint_of_usec (deadline_usec tx_item)) tx_item
    = SendFailure send_failure →
  let e := EvSend (index_ media) (TimePoint_of_usec (deadline_usec tx_item)) tx_item
                  (SendFailure send_failure) in
  let popped := popAndFreeUdpardTxItem media true (e :: tr) in
  let report := mkReport MediaTxSocketSend send_failure (index_ media) in
  let verdict := policy_verdict handler popped.2 report in
  runSingleMediaTransmit env this media tx_socket now tr =
  match verdict with
  | Some f => (popped.1, EvTransientError report verdict :: popped.2, Some f)
  | None =>
      runSingleMediaTransmit env this popped.1 tx_socket now
                             (EvTransientError report verdict :: popped.2)
  end.
Proof.
  intros Hq Hexp Hsend e popped report verdict.
  pose proof (popAndFreeUdpardTxItem_index media true (e :: tr)) as Hi.
  pose proof (tryHandleTransientMediaError_verdict MediaTxSocketSend popped.1
                send_failure popped.2) as Hh.
  fold popped in Hi. rewrite Hi in Hh. fold report verdict in Hh.
  eapply drain_deterministic; [apply runSingleMediaTransmit_drain|].
  destruct verdict as [f|] eqn:Hv.
  - pose proof (drain_failure_stop env this tx_socket now media tr tx_item rest
                  send_failure f Hq Hexp Hsend) as H.
    simpl in H. fold e popped in H. rewrite Hh in H. by apply H.
  - pose proof (drain_failure_continue env this tx_socket now media tr tx_item rest
                  send_failure) as H.
    simpl in H. fold e popped in H. rewrite Hh in H.
    eapply H; [done..|]. apply runSingleMediaTransmit_drain.
Qed.

(** A drain never sends, nor leaves behind, an item of a transfer that
    is absent from the queue it starts on. *)
Lemma runSingleMediaTransmit_absent_transfer media tx_socket now tr tid :
  (∀ item, item ∈ udpard_tx_ media → transfer_id item ≠ tid) →
  let res := runSingleMediaTransmit env this media tx_socket now tr in
  (∀ item, item ∈ udpard_tx_ res.1.1 → transfer_id item ≠ tid) ∧
  ∃ new, res.1.2 = new ++ tr ∧
         ∀ i d item result, EvSend i d item result ∈ new → transfer_id item ≠ tid.
Proof.
  intros Habsent res.
  pose proof (runSingleMediaTransmit_drain media tx_socket now tr) as Hd.
  destruct (drain_state _ _ _ _ _ Hd) as (_ & _ & _ & Hs).
  destruct (drain_events _ _ _ _ _ Hd) as (new & Hnew & Hev).
  split.
  - intros item Hitem. apply Habsent. by eapply elem_of_sublist.
  - exists new. split; [done|]. intros i d item result Hin.
    rewrite Forall_forall in Hev. destruct (Hev _ Hin) as (_ & Hitem & _).
    by apply Habsent.
Qed.

End WithTransport.

Lemma runMediaReceive_follows this tr :
  follows_policy (transient_error_handler_ this) tr
    (runMediaReceive env optAnyFailureFromUdpard this tr).1.2
    (runMediaReceive env optAnyFailureFromUdpard this tr).2.
Proof.
  unfold runMediaReceive.
  pose proof (for_each_media_follows this
                (λ some_media, withEnsureMediaRxSocket env this some_media
                   (λ media rx_socket,
                      runSingleMediaReceive env optAnyFailureFromUdpard this media rx_socket))
                (media_array_ this) tr
                (withEnsureMediaRxSocket_follows this _ (runSingleMediaReceive_follows this)))
    as H.
  by destruct (for_each_media _ _ _) as [[ms tr1] r].
Qed.

Lemma runMediaTransmit_handler this now tr :
  transient_error_handler_ (runMediaTransmit env this now tr).1.1 =
  transient_error_handler_ this.
Proof.
  unfold runMediaTransmit. by destruct (for_each_media _ _ _) as [[ms tr1] r].
Qed.

Lemma run_follows this now tr :
  follows_policy (transient_error_handler_ this) tr
    (run env optAnyFailureFromUdpard this now tr).1.2
    (run env optAnyFailureFromUdpard this now tr).2.
Proof.
  unfold run.
  pose proof (runMediaTransmit_follows this now tr) as Htx.
  pose proof (runMediaTransmit_handler this now tr) as Hh.
  destruct (runMediaTransmit env this now tr) as [[this1 tr1] [f|]]; simpl in *; [done|].
  eapply follows_policy_trans; [exact Htx|].
  rewrite <- Hh. apply runMediaReceive_follows.
Qed.

(** [sendAnyTransfer] either gives up before touching any medium, for
    want of memory for the flattened payload, or follows the policy. *)
Lemma sendAnyTransfer_follows this tx_metadata payload_fragments tr :
  let res := sendAnyTransfer env optAnyFailureFromUdpard this tx_metadata
               payload_fragments tr in
  (env_contiguousPayload env tr payload_fragments = None ∧
   res = (this, EvContiguousPayload false :: tr, Some MemoryError)) ∨
  (env_contiguousPayload env tr payload_fragments ≠ None ∧
   follows_policy (transient_error_handler_ this) tr res.1.2 res.2).
Proof.
  unfold sendAnyTransfer.
  destruct (env_contiguousPayload env tr payload_fragments) as [payload|];
    [right|by left].
  split; [done|].
  pose proof (for_each_media_follows this
                (λ some_media, withEnsureMediaTxSocket env this some_media
                   (TxTransferHandler env optAnyFailureFromUdpard this tx_metadata payload))
                (media_array_ this) (EvContiguousPayload true :: tr)
                (withEnsureMediaTxSocket_follows this _
                   (TxTransferHandler_follows this tx_metadata payload)))
    as H.
  destruct (for_each_media _ _ _) as [[ms tr1] r]; simpl in *.
  eapply follows_policy_trans; [|exact H].
  by apply follows_policy_benign.
Qed.

(** *** The TX drain: expiry, WouldBlock and send failures *)

(** The signed reading of a microsecond count is never later than the
    count itself. *)
Lemma TimePoint_of_usec_le usec : TimePoint_of_usec usec <= usec.
Proof. unfold TimePoint_of_usec. case_decide; lia. Qed.

(** A count below [2^63] is read as it is. *)
Lemma TimePoint_of_usec_small usec : usec < 2 ^ 63 → TimePoint_of_usec usec = usec.
Proof. intros H. unfold TimePoint_of_usec. by rewrite decide_True. Qed.

(** C2: in the TX drain of [run(now)], a head item with [now >= deadline]
    has its entire transfer (the head and every queued fragment sharing
    its transfer id) popped and freed without any send, and the drain goes
    on from the remaining queue: nothing of that transfer is sent or left
    behind, and every send the drain does make is of an item that has not
    expired. *)
Theorem expired_transfer_dropped this media tx_socket now tr tx_item rest :
  udpard_tx_ media = tx_item :: rest →
  now >= deadline_usec tx_item →
  let same := filter (λ x, transfer_id x = transfer_id tx_item) rest in
  let others := filter (λ x, transfer_id x ≠ transfer_id tx_item) rest in
  let freed := reverse (EvTxFree (index_ media) <$> tx_item :: same) in
  let res := runSingleMediaTransmit env this media tx_socket now tr in
  res = runSingleMediaTransmit env this (set_udpard_tx media others) tx_socket now
                               (freed ++ tr) ∧
  (∀ item, item ∈ udpard_tx_ res.1.1 → transfer_id item ≠ transfer_id tx_item) ∧
  ∃ new, res.1.2 = new ++ freed ++ tr ∧
         ∀ i d item result, EvSend i d item result ∈ new →
           transfer_id item ≠ transfer_id tx_item ∧
           d = TimePoint_of_usec (deadline_usec item) ∧ ¬ now >= d.
Proof.
  intros Hq Hexp same others freed res.
  assert (Hres : res = runSingleMediaTransmit env this (set_udpard_tx media others)
                         tx_socket now (freed ++ tr)).
  { assert (Hexp' : now >= TimePoint_of_usec (deadline_usec tx_item)).
    { pose proof (TimePoint_of_usec_le (deadline_usec tx_item)). lia. }
    subst res. rewrite (runSingleMediaTransmit_expired this _ _ _ _ _ _ Hq Hexp').
    by rewrite (popAndFreeUdpardTxItem_cons _ _ _ _ _ Hq). }
  split; [done|]. rewrite Hres.
  pose proof (runSingleMediaTransmit_drain this (set_udpard_tx media others)
                tx_socket now (freed ++ tr)) as Hd.
  destruct (drain_state _ _ _ _ _ _ Hd) as (_ & _ & _ & Hs).
  destruct (drain_events _ _ _ _ _ _ Hd) as (new & Hnew & Hev).
  split.
  - intros item Hitem. eapply elem_of_sublist in Hitem; [|exact Hs].
    simpl in Hitem. by apply list_elem_of_filter in Hitem as [? _].
  - exists new. split; [done|]. intros i d item result Hin.
    rewrite Forall_forall in Hev. destruct (Hev _ Hin) as (_ & Hitem & Hd' & Hne).
    simpl in Hitem. by apply list_elem_of_filter in Hitem as [? _].
Qed.

(** C6: in the TX drain, when the socket's send reports WouldBlock (not
    accepted), the drain of that medium stops for this tick, the queue is
    left as it was and no failure is reported; a later drain of the same
    queue, while the item has not expired, starts by sending that same
    item again. The head item is one the drain sends, that is, one that
    has not expired by the drain's own test: [now] is before the item's
    [deadline_usec] read as a time point. *)
Theorem would_block_keeps_item this media tx_socket now tr tx_item rest :
  udpard_tx_ media = tx_item :: rest →
  ¬ now >= TimePoint_of_usec (deadline_usec tx_item) →
  env_send env tr (index_ media) tx_socket (TimePoint_of_usec (deadline_usec tx_item)) tx_item
    = SendSuccess false →
  runSingleMediaTransmit env this media tx_socket now tr =
    (media,
     EvSend (index_ media)
       (TimePoint_of_usec (deadline_usec tx_item)) tx_item (SendSuccess false) :: tr,
     None) ∧
  ∀ this' now' tr',
    ¬ now' >= TimePoint_of_usec (deadline_usec tx_item) →
    ∃ new,
      (runSingleMediaTransmit env this' media tx_socket now' tr').1.2 =
      new ++ EvSend (index_ media) (TimePoint_of_usec (deadline_usec tx_item)) tx_item
                    (env_send env tr' (index_ media) tx_socket
                              (TimePoint_of_usec (deadline_usec tx_item)) tx_item) :: tr'.
Proof.
  intros Hq Hexp Hsend. split.
  { by eapply runSingleMediaTransmit_would_block. }
  intros this' now' tr' Hexp'.
  destruct (env_send env tr' (index_ media) tx_socket
    (TimePoint_of_usec (deadline_usec tx_item)) tx_item)
    as [[|]|send_failure] eqn:Hsend'.
  - pose proof (runSingleMediaTransmit_drain this' media tx_socket now' tr') as Hd.
    set (e := EvSend (index_ media)
      (TimePoint_of_usec (deadline_usec tx_item)) tx_item (SendSuccess true)).
    pose proof (runSingleMediaTransmit_drain this'
                  (popAndFreeUdpardTxItem media false (e :: tr')).1 tx_socket now'
                  (popAndFreeUdpardTxItem media false (e :: tr')).2) as Hd1.
    pose proof (drain_accepted env this' tx_socket now' media tr' tx_item rest _
                  Hq Hexp' Hsend' Hd1) as Hd2.
    rewrite (drain_deterministic this' _ _ _ _ _ _ Hd Hd2).
    destruct (drain_events _ _ _ _ _ _ Hd1) as (new & -> & _).
    rewrite (popAndFreeUdpardTxItem_cons _ _ _ _ _ Hq). simpl.
    exists (new ++ [EvTxFree (index_ media) tx_item]). by rewrite <- app_assoc.
  - rewrite (runSingleMediaTransmit_would_block this' _ _ _ _ _ _ Hq Hexp' Hsend').
    by exists [].
  - rewrite (runSingleMediaTransmit_failure this' _ _ _ _ _ _ _ Hq Hexp' Hsend').
    set (e := EvSend _ _ _ _).
    destruct (popAndFreeUdpardTxItem_frees media tx_item rest true (e :: tr') now' Hq)
      as (frees & Hfr & _).
    destruct (policy_verdict _ _ _) as [f|]; simpl.
    + rewrite Hfr. eexists (_ :: frees). by simpl.
    + pose proof (runSingleMediaTransmit_drain this'
                    (popAndFreeUdpardTxItem media true (e :: tr')).1 tx_socket now'
                    (EvTransientError
                       (mkReport MediaTxSocketSend send_failure (index_ media)) None
                     :: (popAndFreeUdpardTxItem media true (e :: tr')).2)) as Hd1.
      destruct (drain_events _ _ _ _ _ _ Hd1) as (new & -> & _).
      rewrite Hfr. eexists (new ++ _ :: frees). by rewrite <- app_assoc.
Qed.

(** C7: in the TX drain, when the socket's send returns a failure, the
    entire transfer of the failed frame is popped and freed, whatever the
    handler then says, and the failure goes through the transient-error
    policy: a verdict [Some f] (the handler's, or the failure itself when
    no handler is set) is returned at once and the drain stops; on [None]
    the drain goes on with what is left. Either way no fragment of the
    transfer remains queued. The failed frame is one the drain sends:
    [now] is before its [deadline_usec] read as a time point. *)
Theorem send_failure_drops_transfer this media tx_socket now tr tx_item rest
  send_failure :
  udpard_tx_ media = tx_item :: rest →
  ¬ now >= TimePoint_of_usec (deadline_usec tx_item) →
  env_send env tr (index_ media) tx_socket (TimePoint_of_usec (deadline_usec tx_item)) tx_item
    = SendFailure send_failure →
  let e := EvSend (index_ media) (TimePoint_of_usec (deadline_usec tx_item)) tx_item
                  (SendFailure send_failure) in
  let same := filter (λ x, transfer_id x = transfer_id tx_item) rest in
  let others := filter (λ x, transfer_id x ≠ transfer_id tx_item) rest in
  let freed := reverse (EvTxFree (index_ media) <$> tx_item :: same) in
  let report := mkReport MediaTxSocketSend send_failure (index_ media) in
  let verdict :=
    match transient_error_handler_ this with
    | None => Some send_failure
    | Some handler => handler (freed ++ e :: tr) report
    end in
  let res := runSingleMediaTransmit env this media tx_socket now tr in
  match verdict with
  | Some f =>
      res = (set_udpard_tx media others,
             EvTransientError report (Some f) :: freed ++ e :: tr, Some f)
  | None =>
      res = runSingleMediaTransmit env this (set_udpard_tx media others) tx_socket now
              (EvTransientError report None :: freed ++ e :: tr)
  end ∧
  ∀ item, item ∈ udpard_tx_ res.1.1 → transfer_id item ≠ transfer_id tx_item.
Proof.
  intros Hq Hexp Hsend e same others freed report verdict res.
  pose proof (runSingleMediaTransmit_failure this _ _ _ _ _ _ _ Hq Hexp Hsend) as H.
  cbv zeta in H. rewrite (popAndFreeUdpardTxItem_cons _ _ _ _ _ Hq) in H.
  assert (Hv : policy_verdict (transient_error_handler_ this)
                 (freed ++ e :: tr) report = verdict).
  { unfold policy_verdict. subst verdict. by destruct (transient_error_handler_ this). }
  assert (H' : res =
    match verdict with
    | Some f => (set_udpard_tx media others,
                 EvTransientError report verdict :: freed ++ e :: tr, Some f)
    | None => runSingleMediaTransmit env this (set_udpard_tx media others) tx_socket now
                (EvTransientError report verdict :: freed ++ e :: tr)
    end).
  { subst res. rewrite <- Hv. exact H. }
  clear H. destruct verdict as [f|].
  - split; [done|]. rewrite H'. simpl. intros item Hitem.
    by apply list_elem_of_filter in Hitem as [? _].
  - split; [done|]. rewrite H'.
    apply (runSingleMediaTransmit_absent_transfer this). simpl.
    intros item Hitem. by apply list_elem_of_filter in Hitem as [? _].
Qed.

(** *** Frames: what the media loops leave alone *)

Lemma set_media_array_twice this ms ms' :
  set_media_array (set_media_array this ms) ms' = set_media_array this ms'.
Proof. done. Qed.

Lemma ensureMediaTxSockets_frame this tr :
  ∃ ms, (ensureMediaTxSockets env this tr).1.1 = set_media_array this ms.
Proof.
  unfold ensureMediaTxSockets. destruct (for_each_media _ _ _) as [[ms tr1] r].
  by exists ms.
Qed.

Lemma ensureMediaRxSockets_frame this tr :
  ∃ ms, (ensureMediaRxSockets env this tr).1.1 = set_media_array this ms.
Proof.
  unfold ensureMediaRxSockets. destruct (for_each_media _ _ _) as [[ms tr1] r].
  by exists ms.
Qed.

Lemma runMediaTransmit_frame this now tr :
  ∃ ms, (runMediaTransmit env this now tr).1.1 = set_media_array this ms.
Proof.
  unfold runMediaTransmit. destruct (for_each_media _ _ _) as [[ms tr1] r].
  by exists ms.
Qed.

Lemma runMediaReceive_frame this tr :
  ∃ ms, (runMediaReceive env optAnyFailureFromUdpard this tr).1.1
        = set_media_array this ms.
Proof.
  unfold runMediaReceive. destruct (for_each_media _ _ _) as [[ms tr1] r].
  by exists ms.
Qed.

Lemma run_frame this now tr :
  ∃ ms, (run env optAnyFailureFromUdpard this now tr).1.1 = set_media_array this ms.
Proof.
  unfold run. destruct (runMediaTransmit_frame this now tr) as [ms Hms].
  destruct (runMediaTransmit env this now tr) as [[this1 tr1] [f|]]; simpl in *.
  { by exists ms. }
  destruct (runMediaReceive_frame this1 tr1) as [ms' Hms'].
  exists ms'. by rewrite Hms', Hms.
Qed.

Lemma sendAnyTransfer_frame this tx_metadata payload_fragments tr :
  ∃ ms, (sendAnyTransfer env optAnyFailureFromUdpard this tx_metadata
           payload_fragments tr).1.1 = set_media_array this ms.
Proof.
  unfold sendAnyTransfer. destruct (env_contiguousPayload _ _ _).
  - destruct (for_each_media _ _ _) as [[ms tr1] r]. by exists ms.
  - exists (media_array_ this). by destruct this.
Qed.

Lemma makeAnyTxSession_frame this k port_id tr :
  ∃ ms, (makeAnyTxSession env this k port_id tr).1.1 = set_media_array this ms.
Proof.
  unfold makeAnyTxSession. destruct (ensureMediaTxSockets_frame this tr) as [ms Hms].
  destruct (ensureMediaTxSockets env this tr) as [[this1 tr1] [f|]]; simpl in *.
  { by exists ms. }
  destruct (env_txSessionMake env tr1 k port_id); by exists ms.
Qed.

(** *** Properties kept along any use of the transport *)

Local Abbreviation step := (step env endpoint_of_node_id optAnyFailureFromUdpard).
Local Abbreviation exec := (exec env endpoint_of_node_id optAnyFailureFromUdpard).

Lemma exec_invariant (I : System → Prop) :
  (∀ op s, I s → I (step op s).1) →
  ∀ ops s, I s → I (exec ops s).1.
Proof.
  intros Hstep ops. induction ops as [|op rest IH]; intros s Hs; simpl; [done|].
  specialize (Hstep op s Hs). destruct (step op s) as [s1 r]. simpl in Hstep.
  specialize (IH s1 Hstep). by destruct (exec rest s1) as [s2 log].
Qed.

(** *** Session trees *)

Lemma tree_of_set_tree k k' this tree :
  tree_of k (set_tree k' this tree) = if decide (k = k') then tree else tree_of k this.
Proof. by destruct k, k'. Qed.

Lemma set_tree_same k this : set_tree k this (tree_of k this) = this.
Proof. by destruct this, k. Qed.

Lemma set_tree_twice k this tree tree' :
  set_tree k (set_tree k this tree) tree' = set_tree k this tree'.
Proof. by destruct k. Qed.

Lemma tree_of_set_media_array k this ms :
  tree_of k (set_media_array this ms) = tree_of k this.
Proof. by destruct k. Qed.

Lemma removeNodeFor_head port_id tree :
  removeNodeFor port_id (port_id :: tree) = tree.
Proof. simpl. by rewrite decide_True. Qed.

Lemma elem_of_removeNodeFor port_id tree other :
  NoDup tree →
  other ∈ removeNodeFor port_id tree ↔ other ∈ tree ∧ other ≠ port_id.
Proof.
  induction 1 as [|key rest Hkey Hrest IH]; simpl.
  { split; [by intros ?%elem_of_nil | by intros [?%elem_of_nil _]]. }
  case_decide as Heq.
  - subst key. split.
    + intros Hin. split; [by right|]. by intros ->.
    + intros [[->|Hin]%elem_of_cons Hne]; done.
  - rewrite !elem_of_cons, IH. split.
    + intros [->|[Hin Hne]]; [split; [by left | done] | split; [by right | done]].
    + intros [[->|Hin] Hne]; [by left | by right].
Qed.

Lemma NoDup_removeNodeFor port_id tree :
  NoDup tree → NoDup (removeNodeFor port_id tree).
Proof.
  induction 1 as [|key rest Hkey Hrest IH]; simpl; [constructor|].
  case_decide; [done|]. constructor; [|done].
  rewrite elem_of_removeNodeFor by done. by intros [? _].
Qed.

Lemma elem_of_remove_first session l other :
  NoDup l → other ∈ remove_first session l ↔ other ∈ l ∧ other ≠ session.
Proof.
  induction 1 as [|x rest Hx Hrest IH]; simpl.
  { split; [by intros ?%elem_of_nil | by intros [?%elem_of_nil _]]. }
  case_decide as Heq.
  - subst x. split.
    + intros Hin. split; [by right|]. by intros ->.
    + intros [[->|Hin]%elem_of_cons Hne]; done.
  - rewrite !elem_of_cons, IH. split.
    + intros [->|[Hin Hne]]; [split; [by left | done] | split; [by right | done]].
    + intros [[->|Hin] Hne]; [by left | by right].
Qed.

Lemma NoDup_remove_first session l : NoDup l → NoDup (remove_first session l).
Proof.
  induction 1 as [|x rest Hx Hrest IH]; simpl; [constructor|].
  case_decide; [done|]. constructor; [|done].
  rewrite elem_of_remove_first by done. by intros [? _].
Qed.

(** The four ways through [makeAnyRxSession]. *)
Lemma makeAnyRxSession_cases this k port_id tr :
  makeAnyRxSession env this k port_id tr =
  if decide (port_id ∈ tree_of k this) then (this, tr, inl AlreadyExistsError)
  else if env_nodeAlloc env tr k port_id then
    match env_rxSessionMake env (EvNodeAlloc k port_id true :: tr) k port_id with
    | Some f =>
        (this,
         EvRxSessionMake k port_id (Some f) :: EvNodeAlloc k port_id true :: tr,
         inl f)
    | None =>
        (set_tree k this (port_id :: tree_of k this),
         EvRxSessionMake k port_id None :: EvNodeAlloc k port_id true :: tr,
         inr (mkRxSession k port_id))
    end
  else (this, EvNodeAlloc k port_id false :: tr, inl MemoryError).
Proof.
  unfold makeAnyRxSession, ensureNewNodeFor.
  case_decide; [done|].
  destruct (env_nodeAlloc env tr k port_id); [|done].
  destruct (env_rxSessionMake env _ k port_id); [|done].
  by rewrite set_tree_twice, removeNodeFor_head, set_tree_same.
Qed.

Lemma makeAnyRxSession_trees this k port_id tr k' :
  tree_of k' (makeAnyRxSession env this k port_id tr).1.1 =
  match (makeAnyRxSession env this k port_id tr).2 with
  | inr _ => if decide (k' = k) then port_id :: tree_of k this else tree_of k' this
  | inl _ => tree_of k' this
  end.
Proof.
  rewrite makeAnyRxSession_cases.
  case_decide; [done|].
  destruct (env_nodeAlloc env tr k port_id); [|done].
  destruct (env_rxSessionMake env _ k port_id); [done|]. simpl.
  by rewrite tree_of_set_tree.
Qed.

Lemma makeAnyRxSession_result this k port_id tr session :
  (makeAnyRxSession env this k port_id tr).2 = inr session →
  session = mkRxSession k port_id ∧ port_id ∉ tree_of k this.
Proof.
  rewrite makeAnyRxSession_cases.
  case_decide; [done|].
  destruct (env_nodeAlloc env tr k port_id); [|done].
  destruct (env_rxSessionMake env _ k port_id); [done|]. simpl.
  by intros [= <-].
Qed.

Lemma makeRxSession_trees this k port_id tr k' :
  let res := makeRxSession env this k port_id tr in
  tree_of k' res.1.1 =
  match res.2 with
  | inr _ => if decide (k' = k) then port_id :: tree_of k this else tree_of k' this
  | inl _ => tree_of k' this
  end ∧
  ∀ session, res.2 = inr session →
             session = mkRxSession k port_id ∧ port_id ∉ tree_of k this.
Proof.
  assert (Hsvc : ∀ k0,
    let res :=
      (let '(this1, tr1, failure) := ensureMediaRxSockets env this tr in
       match failure with
       | Some f => (this1, tr1, inl f)
       | None => makeAnyRxSession env this1 k0 port_id tr1
       end) in
    tree_of k' res.1.1 =
    match res.2 with
    | inr _ => if decide (k' = k0) then port_id :: tree_of k0 this else tree_of k' this
    | inl _ => tree_of k' this
    end ∧
    ∀ session, res.2 = inr session →
               session = mkRxSession k0 port_id ∧ port_id ∉ tree_of k0 this).
  { intros k0. destruct (ensureMediaRxSockets_frame this tr) as [ms Hms].
    destruct (ensureMediaRxSockets env this tr) as [[this1 tr1] [f|]]; simpl in *; subst.
    { split; [by rewrite tree_of_set_media_array | done]. }
    split.
    - rewrite makeAnyRxSession_trees. by rewrite !tree_of_set_media_array.
    - intros session Hs. apply makeAnyRxSession_result in Hs.
      by rewrite tree_of_set_media_array in Hs. }
  destruct k; simpl.
  - split; [apply makeAnyRxSession_trees | apply makeAnyRxSession_result].
  - apply (Hsvc RequestRx).
  - apply (Hsvc ResponseRx).
Qed.

Lemma initial_session_invariant media_count : session_invariant (initial media_count).
Proof.
  split; [constructor|]. intros k. split; [destruct k; constructor|].
  intros port. destruct k; simpl; split; by intros ?%elem_of_nil.
Qed.

Lemma session_invariant_frame s this1 tr1 live_tx1 ms :
  this1 = set_media_array (transport s) ms →
  session_invariant s →
  session_invariant (mkSystem this1 tr1 (live_rx s) live_tx1).
Proof.
  intros -> [Hlive Htrees]. split; [done|].
  intros k. specialize (Htrees k). by destruct k.
Qed.

Lemma step_session_invariant op s :
  session_invariant s → session_invariant (step op s).1.
Proof.
  intros [Hlive Htrees]. destruct op as [handler|n|k port_id|k port_id|session|m pf|now];
    simpl.
  - split; [done|]. intros k. specialize (Htrees k). by destruct k.
  - unfold setLocalNodeId. by repeat case_decide.
  - destruct (makeRxSession_trees (transport s) k port_id (trace s) k) as [_ Hres].
    pose proof (λ k', proj1 (makeRxSession_trees (transport s) k port_id (trace s) k'))
      as Htr.
    destruct (makeRxSession env (transport s) k port_id (trace s))
      as [[this1 tr1] [f|session]]; simpl in *.
    + split; [done|]. intros k'. rewrite Htr. apply Htrees.
    + destruct (Hres session eq_refl) as [-> Hfresh].
      assert (Hnew : mkRxSession k port_id ∉ live_rx s).
      { intros Hin. by apply (Htrees k) in Hin. }
      split; [by constructor|]. intros k'. rewrite Htr. simpl.
      destruct (Htrees k') as [Hnd Hiff]. case_decide as Hk.
      * subst k'. split; [by constructor|]. intros port.
        rewrite !elem_of_cons, Hiff. split.
        -- intros [->|?]; [by left | by right].
        -- intros [[= ->]|?]; [by left | by right].
      * split; [done|]. intros port. rewrite Hiff, elem_of_cons. split; [by right|].
        intros [[= ? ?]|?]; [by subst | done].
  - destruct (makeAnyTxSession_frame (transport s) k port_id (trace s)) as [ms Hms].
    destruct (makeAnyTxSession env (transport s) k port_id (trace s))
      as [[this1 tr1] r].
    by eapply session_invariant_frame.
  - case_decide as Hin; [|done].
    split; [by apply NoDup_remove_first|].
    intros k. cbn [fst transport live_rx]. destruct (Htrees k) as [Hnd Hiff].
    destruct session as [k0 port0].
    assert (Htree : tree_of k (onSessionEvent (transport s)
                                 (destroyed_event (mkRxSession k0 port0))) =
                    if decide (k = k0) then removeNodeFor port0 (tree_of k (transport s))
                    else tree_of k (transport s)).
    { by destruct k0, k. }
    rewrite Htree. case_decide as Hk.
    + subst k0. split; [by apply NoDup_removeNodeFor|]. intros port.
      rewrite elem_of_removeNodeFor, elem_of_remove_first, Hiff by done.
      split; intros [? Hne]; (split; [done|]); congruence.
    + split; [done|]. intros port.
      rewrite elem_of_remove_first, Hiff by done.
      split; [|by intros [? _]]. intros ?. split; [done|]. congruence.
  - destruct (sendAnyTransfer_frame (transport s) m pf (trace s)) as [ms Hms].
    destruct (sendAnyTransfer env optAnyFailureFromUdpard (transport s) m pf (trace s))
      as [[this1 tr1] r].
    by eapply session_invariant_frame.
  - destruct (run_frame (transport s) now (trace s)) as [ms Hms].
    destruct (run env optAnyFailureFromUdpard (transport s) now (trace s))
      as [[this1 tr1] r].
    by eapply session_invariant_frame.
Qed.

(** *** RX sockets: where they are made, and how often *)

Lemma emits_refl P tr : emits P tr tr.
Proof. by exists []. Qed.

Lemma emits_cons P tr e : P e → emits P tr (e :: tr).
Proof. intros He. exists [e]. split; [done|]. by apply Forall_singleton. Qed.

Lemma emits_trans P tr tr1 tr2 : emits P tr tr1 → emits P tr1 tr2 → emits P tr tr2.
Proof.
  intros (new1 & -> & H1) (new2 & -> & H2). exists (new2 ++ new1).
  split; [by rewrite app_assoc | by apply Forall_app].
Qed.

Lemma emits_mono (P Q : Event → Prop) tr tr' :
  (∀ e, P e → Q e) → emits P tr tr' → emits Q tr tr'.
Proof.
  intros HPQ (new & -> & H). exists new. split; [done|].
  by eapply Forall_impl.
Qed.

Lemma rx_sockets_created_app i new tr :
  rx_sockets_created i (new ++ tr)
  = (rx_sockets_created i new + rx_sockets_created i tr)%nat.
Proof. induction new as [|e new IH]; simpl; [done | lia]. Qed.

Lemma rx_sockets_created_neutral i tr tr' :
  emits not_make_rx_socket tr tr' → rx_sockets_created i tr' = rx_sockets_created i tr.
Proof.
  intros (new & -> & Hnew). rewrite rx_sockets_created_app.
  assert (rx_sockets_created i new = 0%nat) as ->; [|done].
  induction Hnew as [|e new He _ IH]; simpl; [done|].
  rewrite IH. by destruct e.
Qed.

Lemma rx_socket_holders_app i ms1 ms2 :
  rx_socket_holders i (ms1 ++ ms2)
  = (rx_socket_holders i ms1 + rx_socket_holders i ms2)%nat.
Proof. induction ms1 as [|m ms1 IH]; simpl; [done | lia]. Qed.

Lemma rx_socket_holders_absent i ms :
  i ∉ index_ <$> ms → rx_socket_holders i ms = 0%nat.
Proof.
  induction ms as [|m ms IH]; simpl; [done|].
  intros Hi. apply not_elem_of_cons in Hi as [Hne Hi]. rewrite (IH Hi).
  unfold holds_rx_socket. by rewrite bool_decide_false.
Qed.


Lemma rx_socket_holders_member i m ms :
  NoDup (index_ <$> ms) → m ∈ ms → index_ m = i →
  rx_socket_holders i ms = if bool_decide (is_Some (rx_socket_ptr_ m)) then 1%nat else 0%nat.
Proof.
  intros Hnd Hm Hi. apply list_elem_of_split in Hm as (ms1 & ms2 & ->).
  rewrite fmap_app, fmap_cons in Hnd.
  apply NoDup_app in Hnd as (_ & Hdisj & [H2 _]%NoDup_cons).
  rewrite rx_socket_holders_app. simpl.
  rewrite (rx_socket_holders_absent i ms1), (rx_socket_holders_absent i ms2).
  - unfold holds_rx_socket. rewrite bool_decide_true by done. simpl. lia.
  - by subst i.
  - intros Hin. apply (Hdisj _ Hin). subst i. by left.
Qed.

Lemma tryHandleTransientMediaError_emits P this kind media error tr :
  (∀ report verdict, P (EvTransientError report verdict)) →
  emits P tr (tryHandleTransientMediaError this kind media error tr).1.
Proof.
  intros HP. rewrite tryHandleTransientMediaError_verdict. by apply emits_cons.
Qed.

Lemma tryHandleTransientUdpardResult_emits P this kind media result tr :
  (∀ report verdict, P (EvTransientError report verdict)) →
  emits P tr (tryHandleTransientUdpardResult optAnyFailureFromUdpard this kind media
                result tr).1.
Proof.
  intros HP. unfold tryHandleTransientUdpardResult.
  destruct (optAnyFailureFromUdpard result); [|apply emits_refl].
  destruct (transient_error_handler_ this); by apply emits_cons.
Qed.

Lemma no_action_rx_neutral {S : Type} : rx_neutral (@no_action S).
Proof. intros media sock tr. split_and!; [done | done | apply emits_refl]. Qed.

Lemma runSingleMediaTransmit_rx_neutral this now :
  rx_neutral (λ media tx_socket, runSingleMediaTransmit env this media tx_socket now).
Proof.
  intros media tx_socket tr.
  pose proof (runSingleMediaTransmit_drain this media tx_socket now tr) as Hd.
  destruct (drain_state _ _ _ _ _ _ Hd) as (Hi & _ & Hr & _).
  split_and!; [done | done |].
  eapply emits_mono; [|by eapply drain_events]. by intros [].
Qed.

Lemma TxTransferHandler_rx_neutral this tx_metadata payload :
  rx_neutral (TxTransferHandler env optAnyFailureFromUdpard this tx_metadata payload).
Proof.
  intros media tx_socket tr. unfold TxTransferHandler.
  destruct (env_udpardTx env tr (index_ media) tx_metadata payload)
    as [result datagrams].
  set (media1 := if decide (result > 0) then _ else _).
  assert (Hm : index_ media1 = index_ media ∧
               rx_socket_ptr_ media1 = rx_socket_ptr_ media)
    by (subst media1; by case_decide).
  pose proof (tryHandleTransientUdpardResult_emits not_make_rx_socket this
                (report_kind_of tx_metadata) media1 result
                (EvTxPush (index_ media) tx_metadata result :: tr)) as He.
  destruct (tryHandleTransientUdpardResult _ _ _ _ _ _) as [tr2 r]; simpl in *.
  split_and!; [apply Hm | apply Hm |].
  eapply emits_trans; [|by apply He]. by apply emits_cons.
Qed.

Lemma runSingleMediaReceive_rx_neutral this :
  rx_neutral (runSingleMediaReceive env optAnyFailureFromUdpard this).
Proof.
  intros media rx_socket tr. unfold runSingleMediaReceive.
  destruct (env_receive env tr (index_ media) rx_socket) as [[rx_meta|]|f].
  - destruct (env_udpardRxRPCDispatcherReceive _ _ _ _) as [result out_port].
    set (tr2 := EvRpcDispatch _ _ :: _ :: tr).
    pose proof (tryHandleTransientUdpardResult_emits not_make_rx_socket this
                  UdpardRxSvcReceive media result tr2) as He.
    assert (Htr2 : emits not_make_rx_socket tr tr2).
    { exists [EvRpcDispatch (index_ media) result;
              EvReceive (index_ media) (ReceiveSuccess (Some rx_meta))].
      split; [done|]. by repeat constructor. }
    destruct (tryHandleTransientUdpardResult _ _ _ _ _ _) as [tr3 [f|]]; simpl in *.
    + split_and!; [done..|]. eapply emits_trans; [exact Htr2 | by apply He].
    + case_decide; simpl; (split_and!; [done..|]).
      * eapply emits_trans; [|by apply emits_cons].
        eapply emits_trans; [exact Htr2 | by apply He].
      * eapply emits_trans; [exact Htr2 | by apply He].
  - split_and!; [done..|]. by apply emits_cons.
  - pose proof (tryHandleTransientMediaError_emits not_make_rx_socket this
                  MediaRxSocketReceive media f
                  (EvReceive (index_ media) (ReceiveFailure f) :: tr)) as He.
    destruct (tryHandleTransientMediaError _ _ _ _ _) as [tr2 r]; simpl in *.
    split_and!; [done..|]. eapply emits_trans; [|by apply He]. by apply emits_cons.
Qed.

(** A step that is neutral in the above sense is a fine RX-side step. *)
Lemma rx_step_ok_neutral this step :
  (∀ media tr,
     index_ (step media tr).1.1 = index_ media ∧
     rx_socket_ptr_ (step media tr).1.1 = rx_socket_ptr_ media ∧
     emits not_make_rx_socket tr (step media tr).1.2) →
  rx_step_ok this step.
Proof.
  intros H media tr. destruct (H media tr) as (Hi & Hr & He). split_and!; [done | |].
  - eapply emits_mono; [|done]. by intros [].
  - intros i. rewrite (rx_sockets_created_neutral i _ _ He). simpl.
    unfold holds_rx_socket. by rewrite Hi, Hr.
Qed.

Lemma withEnsureMediaTxSocket_rx_ok this action :
  rx_neutral action →
  rx_step_ok this (λ media, withEnsureMediaTxSocket env this media action).
Proof.
  intros Ha. apply rx_step_ok_neutral. intros media tr.
  unfold withEnsureMediaTxSocket.
  destruct (tx_socket_ptr_ media) as [tx_socket|]; [apply Ha|].
  destruct (env_makeTxSocket env tr (index_ media)) as [[tx_socket|]|f].
  - destruct (Ha (set_tx_socket_ptr media (Some tx_socket)) tx_socket
                (EvMakeTxSocket (index_ media) (MakeTxSocketSuccess (Some tx_socket))
                 :: tr)) as (Hi & Hr & He).
    split_and!; [done | done |].
    eapply emits_trans; [|done]. by apply emits_cons.
  - pose proof (tryHandleTransientMediaError_emits not_make_rx_socket this
                  MediaMakeTxSocket media MemoryError
                  (EvMakeTxSocket (index_ media) (MakeTxSocketSuccess None) :: tr)) as He.
    destruct (tryHandleTransientMediaError _ _ _ _ _) as [tr2 r]; simpl in *.
    split_and!; [done..|]. eapply emits_trans; [|by apply He]. by apply emits_cons.
  - pose proof (tryHandleTransientMediaError_emits not_make_rx_socket this
                  MediaMakeTxSocket media f
                  (EvMakeTxSocket (index_ media) (MakeTxSocketFailure f) :: tr)) as He.
    destruct (tryHandleTransientMediaError _ _ _ _ _) as [tr2 r]; simpl in *.
    split_and!; [done..|]. eapply emits_trans; [|by apply He]. by apply emits_cons.
Qed.

Lemma withEnsureMediaRxSocket_rx_ok this action :
  rx_neutral action →
  rx_step_ok this (λ media, withEnsureMediaRxSocket env this media action).
Proof.
  intros Ha media tr. unfold withEnsureMediaRxSocket.
  destruct (rx_socket_ptr_ media) as [rx_socket|] eqn:Hrx.
  { destruct (Ha media rx_socket tr) as (Hi & Hr & He). split_and!; [done | |].
    - eapply emits_mono; [|done]. by intros [].
    - intros i. rewrite (rx_sockets_created_neutral i _ _ He). simpl.
      unfold holds_rx_socket. by rewrite Hi, Hr. }
  destruct (svc_rx_sockets_endpoint_ this) as [endpoint|] eqn:Hep.
  2:{ split_and!; [done | apply emits_refl | done]. }
  destruct (env_makeRxSocket env tr (index_ media) endpoint) as [[rx_socket|]|f].
  - set (e := EvMakeRxSocket _ _ _).
    destruct (Ha (set_rx_socket_ptr media (Some rx_socket)) rx_socket (e :: tr))
      as (Hi & Hr & He).
    split_and!; [done | |].
    + eapply emits_trans; [|eapply emits_mono; [|eassumption]; by intros []].
      by apply emits_cons.
    + intros i. rewrite (rx_sockets_created_neutral i _ _ He). simpl.
      unfold holds_rx_socket. rewrite Hi, Hr, Hrx. simpl.
      destruct (bool_decide (index_ media = i)); simpl; lia.
  - pose proof (tryHandleTransientMediaError_emits not_make_rx_socket this
                  MediaMakeRxSocket media MemoryError
                  (EvMakeRxSocket (index_ media) endpoint (MakeRxSocketSuccess None)
                   :: tr)) as He.
    destruct (tryHandleTransientMediaError _ _ _ _ _) as [tr2 r]; simpl in *.
    specialize (He ltac:(done)).
    split_and!; [done | |].
    + eapply emits_trans; [|eapply emits_mono; [|eassumption]; by intros []].
      by apply emits_cons.
    + intros i. rewrite (rx_sockets_created_neutral i _ _ He). simpl. lia.
  - pose proof (tryHandleTransientMediaError_emits not_make_rx_socket this
                  MediaMakeRxSocket media f
                  (EvMakeRxSocket (index_ media) endpoint (MakeRxSocketFailure f)
                   :: tr)) as He.
    destruct (tryHandleTransientMediaError _ _ _ _ _) as [tr2 r]; simpl in *.
    specialize (He ltac:(done)).
    split_and!; [done | |].
    + eapply emits_trans; [|eapply emits_mono; [|eassumption]; by intros []].
      by apply emits_cons.
    + intros i. rewrite (rx_sockets_created_neutral i _ _ He). simpl. lia.
Qed.

Lemma for_each_media_rx_ok this step medias tr :
  rx_step_ok this step →
  index_ <$> (for_each_media step medias tr).1.1 = index_ <$> medias ∧
  emits (rx_event_ok this) tr (for_each_media step medias tr).1.2 ∧
  ∀ i, (rx_sockets_created i (for_each_media step medias tr).1.2
        + rx_socket_holders i medias
        = rx_sockets_created i tr
          + rx_socket_holders i (for_each_media step medias tr).1.1)%nat.
Proof.
  intros Hstep. revert tr. induction medias as [|media rest IH]; intros tr; simpl.
  { split_and!; [done | apply emits_refl | done]. }
  destruct (Hstep media tr) as (Hi & He & Hb).
  destruct (step media tr) as [[media1 tr1] [f|]]; simpl in *.
  { split_and!; [by rewrite Hi | done |]. intros i. specialize (Hb i). lia. }
  destruct (IH tr1) as (Hi' & He' & Hb').
  destruct (for_each_media step rest tr1) as [[rest1 tr2] r]; simpl in *.
  split_and!; [by f_equal | by eapply emits_trans |].
  intros i. specialize (Hb i). specialize (Hb' i). lia.
Qed.

Lemma rx_op_ok_refl this tr : rx_op_ok this tr this tr.
Proof. split_and!; [done..| apply emits_refl | done]. Qed.

Lemma rx_op_ok_trans this tr this1 tr1 this2 tr2 :
  rx_op_ok this tr this1 tr1 → rx_op_ok this1 tr1 this2 tr2 →
  rx_op_ok this tr this2 tr2.
Proof.
  intros (Hn1 & He1 & Hi1 & Hem1 & Hb1) (Hn2 & He2 & Hi2 & Hem2 & Hb2).
  split_and!; [congruence.. | |].
  - eapply emits_trans; [done|]. eapply emits_mono; [|done].
    intros []; simpl; congruence.
  - intros i. specialize (Hb1 i). specialize (Hb2 i). lia.
Qed.

Lemma rx_op_ok_cons this tr e : not_make_rx_socket e → rx_op_ok this tr this (e :: tr).
Proof.
  intros He. split_and!; [done..| |].
  - apply emits_cons. by destruct e.
  - intros i. simpl. by destruct e.
Qed.

Lemma for_each_media_rx_op_ok this step tr :
  rx_step_ok this step →
  rx_op_ok this tr
    (set_media_array this (for_each_media step (media_array_ this) tr).1.1)
    (for_each_media step (media_array_ this) tr).1.2.
Proof.
  intros Hstep.
  destruct (for_each_media_rx_ok this step (media_array_ this) tr Hstep)
    as (Hi & He & Hb).
  by split_and!.
Qed.

Lemma ensureMediaTxSockets_rx_op_ok this tr :
  rx_op_ok this tr (ensureMediaTxSockets env this tr).1.1
                   (ensureMediaTxSockets env this tr).1.2.
Proof.
  unfold ensureMediaTxSockets.
  pose proof (for_each_media_rx_op_ok this _ tr
                (withEnsureMediaTxSocket_rx_ok this _ no_action_rx_neutral)) as H.
  by destruct (for_each_media _ _ _) as [[ms tr1] r].
Qed.

Lemma ensureMediaRxSockets_rx_op_ok this tr :
  rx_op_ok this tr (ensureMediaRxSockets env this tr).1.1
                   (ensureMediaRxSockets env this tr).1.2.
Proof.
  unfold ensureMediaRxSockets.
  pose proof (for_each_media_rx_op_ok this _ tr
                (withEnsureMediaRxSocket_rx_ok this _ no_action_rx_neutral)) as H.
  by destruct (for_each_media _ _ _) as [[ms tr1] r].
Qed.

Lemma runMediaTransmit_rx_op_ok this now tr :
  rx_op_ok this tr (runMediaTransmit env this now tr).1.1
                   (runMediaTransmit env this now tr).1.2.
Proof.
  unfold runMediaTransmit.
  pose proof (for_each_media_rx_op_ok this _ tr
                (withEnsureMediaTxSocket_rx_ok this _
                   (runSingleMediaTransmit_rx_neutral this now))) as H.
  by destruct (for_each_media _ _ _) as [[ms tr1] r].
Qed.

Lemma runMediaReceive_rx_op_ok this tr :
  rx_op_ok this tr (runMediaReceive env optAnyFailureFromUdpard this tr).1.1
                   (runMediaReceive env optAnyFailureFromUdpard this tr).1.2.
Proof.
  unfold runMediaReceive.
  pose proof (for_each_media_rx_op_ok this _ tr
                (withEnsureMediaRxSocket_rx_ok this _
                   (runSingleMediaReceive_rx_neutral this))) as H.
  by destruct (for_each_media _ _ _) as [[ms tr1] r].
Qed.

Lemma run_rx_op_ok this now tr :
  rx_op_ok this tr (run env optAnyFailureFromUdpard this now tr).1.1
                   (run env optAnyFailureFromUdpard this now tr).1.2.
Proof.
  unfold run. pose proof (runMediaTransmit_rx_op_ok this now tr) as Htx.
  destruct (runMediaTransmit env this now tr) as [[this1 tr1] [f|]]; simpl in *; [done|].
  eapply rx_op_ok_trans; [done|]. apply runMediaReceive_rx_op_ok.
Qed.

Lemma sendAnyTransfer_rx_op_ok this tx_metadata payload_fragments tr :
  rx_op_ok this tr
    (sendAnyTransfer env optAnyFailureFromUdpard this tx_metadata payload_fragments tr).1.1
    (sendAnyTransfer env optAnyFailureFromUdpard this tx_metadata payload_fragments tr).1.2.
Proof.
  unfold sendAnyTransfer.
  destruct (env_contiguousPayload env tr payload_fragments) as [payload|];
    [|by apply rx_op_ok_cons].
  pose proof (for_each_media_rx_op_ok this _ (EvContiguousPayload true :: tr)
                (withEnsureMediaTxSocket_rx_ok this _
                   (TxTransferHandler_rx_neutral this tx_metadata payload))) as H.
  destruct (for_each_media _ _ _) as [[ms tr1] r]; simpl in *.
  eapply rx_op_ok_trans; [|done]. by apply rx_op_ok_cons.
Qed.

Lemma makeAnyTxSession_rx_op_ok this k port_id tr :
  rx_op_ok this tr (makeAnyTxSession env this k port_id tr).1.1
                   (makeAnyTxSession env this k port_id tr).1.2.
Proof.
  unfold makeAnyTxSession. pose proof (ensureMediaTxSockets_rx_op_ok this tr) as H.
  destruct (ensureMediaTxSockets env this tr) as [[this1 tr1] [f|]]; simpl in *; [done|].
  destruct (env_txSessionMake env tr1 k port_id); simpl;
    (eapply rx_op_ok_trans; [done|]; by apply rx_op_ok_cons).
Qed.

Lemma set_tree_rx_op_ok this k tree tr : rx_op_ok this tr (set_tree k this tree) tr.
Proof. split_and!; [done..| apply emits_refl | done]. Qed.

Lemma makeAnyRxSession_rx_op_ok this k port_id tr :
  rx_op_ok this tr (makeAnyRxSession env this k port_id tr).1.1
                   (makeAnyRxSession env this k port_id tr).1.2.
Proof.
  rewrite makeAnyRxSession_cases.
  case_decide; [apply rx_op_ok_refl|].
  destruct (env_nodeAlloc env tr k port_id); [|by apply rx_op_ok_cons].
  destruct (env_rxSessionMake env _ k port_id); simpl.
  - eapply rx_op_ok_trans; by apply rx_op_ok_cons.
  - eapply rx_op_ok_trans; [apply (set_tree_rx_op_ok this k)|].
    eapply rx_op_ok_trans; by apply rx_op_ok_cons.
Qed.

Lemma makeRxSession_rx_op_ok this k port_id tr :
  rx_op_ok this tr (makeRxSession env this k port_id tr).1.1
                   (makeRxSession env this k port_id tr).1.2.
Proof.
  assert (Hsvc : ∀ k0,
    let res :=
      (let '(this1, tr1, failure) := ensureMediaRxSockets env this tr in
       match failure with
       | Some f => (this1, tr1, inl f)
       | None => makeAnyRxSession env this1 k0 port_id tr1
       end) in
    rx_op_ok this tr res.1.1 res.1.2).
  { intros k0. pose proof (ensureMediaRxSockets_rx_op_ok this tr) as H.
    destruct (ensureMediaRxSockets env this tr) as [[this1 tr1] [f|]]; simpl in *;
      [done|].
    eapply rx_op_ok_trans; [done|]. apply makeAnyRxSession_rx_op_ok. }
  destruct k; simpl.
  - apply makeAnyRxSession_rx_op_ok.
  - apply (Hsvc RequestRx).
  - apply (Hsvc ResponseRx).
Qed.

Local Abbreviation rx_invariant := (rx_invariant endpoint_of_node_id).

Lemma rx_invariant_op s this' tr' live_rx' live_tx' :
  rx_invariant s → rx_op_ok (transport s) (trace s) this' tr' →
  rx_invariant (mkSystem this' tr' live_rx' live_tx').
Proof.
  intros (Hnode & Hnd & Hev & Hcount) (Hn & He & Hi & (new & -> & Hnew) & Hb).
  unfold Udp.rx_invariant. simpl. rewrite Hn, He, Hi. split_and!; [done | done | |].
  - intros i endpoint result [Hin|Hin]%elem_of_app.
    + rewrite Forall_forall in Hnew. apply (Hnew _ Hin).
    + by eapply Hev.
  - intros i. specialize (Hb i). specialize (Hcount i). lia.
Qed.

Lemma makeMediaArray_indices media_count :
  index_ <$> makeMediaArray media_count = seq 0 media_count.
Proof.
  unfold makeMediaArray. generalize 0%nat.
  induction media_count as [|n IH]; intros start; simpl; [done | by rewrite IH].
Qed.

Lemma initial_rx_invariant media_count : rx_invariant (initial media_count).
Proof.
  unfold Udp.rx_invariant. simpl. split_and!; [done | | |].
  - rewrite makeMediaArray_indices. apply NoDup_seq.
  - by intros i endpoint result ?%elem_of_nil.
  - intros i. unfold makeMediaArray. symmetry. generalize 0%nat at 1.
    induction media_count as [|n IH]; intros start; simpl; [done|].
    rewrite IH. unfold holds_rx_socket. simpl. by rewrite andb_false_r.
Qed.

Lemma step_rx_invariant op s : rx_invariant s → rx_invariant (step op s).1.
Proof.
  intros Hinv. destruct op as [handler|n|k port_id|k port_id|session|m pf|now]; simpl.
  - apply (rx_invariant_op s); [done|].
    split_and!; [done..| apply emits_refl | done].
  - unfold Udp.setLocalNodeId. repeat case_decide; try done.
    destruct Hinv as (Hnode & Hnd & Hev & Hcount).
    assert (Hnone : svc_rx_sockets_endpoint_ (transport s) = None).
    { destruct (svc_rx_sockets_endpoint_ (transport s)); [|done].
      destruct Hnode as [Hle _]. unfold UDPARD_NODE_ID_MAX, UDPARD_NODE_ID_UNSET in *. lia. }
    unfold Udp.rx_invariant, setNodeId. simpl.
    split_and!; [lia | done | done | | done].
    intros i endpoint result Hin. specialize (Hev _ _ _ Hin). congruence.
  - pose proof (makeRxSession_rx_op_ok (transport s) k port_id (trace s)) as H.
    destruct (makeRxSession env (transport s) k port_id (trace s)) as [[this1 tr1] r].
    by apply (rx_invariant_op s).
  - pose proof (makeAnyTxSession_rx_op_ok (transport s) k port_id (trace s)) as H.
    destruct (makeAnyTxSession env (transport s) k port_id (trace s)) as [[this1 tr1] r].
    by apply (rx_invariant_op s).
  - case_decide; [|done]. apply (rx_invariant_op s); [done|].
    destruct session as [[] port]; apply set_tree_rx_op_ok.
  - pose proof (sendAnyTransfer_rx_op_ok (transport s) m pf (trace s)) as H.
    destruct (sendAnyTransfer env optAnyFailureFromUdpard (transport s) m pf (trace s))
      as [[this1 tr1] r].
    by apply (rx_invariant_op s).
  - pose proof (run_rx_op_ok (transport s) now (trace s)) as H.
    destruct (run env optAnyFailureFromUdpard (transport s) now (trace s))
      as [[this1 tr1] r].
    by apply (rx_invariant_op s).
Qed.

(** *** The node id along any use of the transport *)

Lemma step_node_id op s :
  (∀ n, op ≠ OpSetLocalNodeId n) →
  node_id (transport (step op s).1) = node_id (transport s).
Proof.
  intros Hop. destruct op as [handler|n|k port_id|k port_id|session|m pf|now]; simpl.
  - done.
  - by destruct (Hop n).
  - pose proof (makeRxSession_rx_op_ok (transport s) k port_id (trace s)) as [H _].
    by destruct (makeRxSession env (transport s) k port_id (trace s)) as [[this1 tr1] r].
  - pose proof (makeAnyTxSession_rx_op_ok (transport s) k port_id (trace s)) as [H _].
    by destruct (makeAnyTxSession env (transport s) k port_id (trace s))
      as [[this1 tr1] r].
  - case_decide; [|done]. by destruct session as [[] port].
  - pose proof (sendAnyTransfer_rx_op_ok (transport s) m pf (trace s)) as [H _].
    by destruct (sendAnyTransfer env optAnyFailureFromUdpard (transport s) m pf (trace s))
      as [[this1 tr1] r].
  - pose proof (run_rx_op_ok (transport s) now (trace s)) as [H _].
    by destruct (run env optAnyFailureFromUdpard (transport s) now (trace s))
      as [[this1 tr1] r].
Qed.

Lemma step_getLocalNodeId op s id :
  getLocalNodeId (transport (step op s).1) = Some id ↔
  getLocalNodeId (transport s) = Some id ∨
  (op = OpSetLocalNodeId id ∧ (step op s).2 = None).
Proof.
  destruct op as [handler|n|k port_id|k port_id|session|m pf|now];
    try (unfold getLocalNodeId; rewrite (step_node_id _ s) by done;
         split; [by left | by intros [?|[[=] _]]]).
  simpl. unfold setLocalNodeId, getLocalNodeId, setNodeId.
  repeat case_decide; simpl; repeat case_decide;
    unfold UDPARD_NODE_ID_MAX, UDPARD_NODE_ID_UNSET in *;
    split; try (intros [?|[[= ?] ?]]); try intros [= ?]; simplify_eq;
    try lia; try done; try (by left); try (by right).
Qed.

Lemma exec_getLocalNodeId ops s id :
  getLocalNodeId (transport (exec ops s).1) = Some id ↔
  getLocalNodeId (transport s) = Some id ∨ (OpSetLocalNodeId id, None) ∈ (exec ops s).2.
Proof.
  revert s. induction ops as [|op rest IH]; intros s; simpl.
  { split; [by left|]. by intros [?|?%elem_of_nil]. }
  pose proof (step_getLocalNodeId op s id) as Hstep.
  destruct (step op s) as [s1 r]. specialize (IH s1).
  destruct (exec rest s1) as [s2 log]. simpl in *.
  rewrite IH, Hstep, elem_of_cons. split.
  - intros [[?|[-> ->]]|?]; [by left | right; by left | right; by right].
  - intros [?|[[= -> ->]|?]]; [left; by left | left; by right | by right].
Qed.

Lemma exec_rx_invariant media_count ops :
  rx_invariant (exec ops (initial media_count)).1.
Proof.
  apply (exec_invariant rx_invariant); [apply step_rx_invariant|].
  apply initial_rx_invariant.
Qed.

(** C3: the node-id policy. Along any use of a fresh transport,
    [getLocalNodeId] returns [Some id] exactly when a [setLocalNodeId id]
    has succeeded, and returns [None] exactly while the node id is the
    [UNSET] sentinel. Setting the id that is already set succeeds and
    changes nothing; setting another id once one is set returns
    [ArgumentError] and changes nothing, the RX endpoint included; a first
    [setLocalNodeId n] with [n] in range succeeds, after which
    [getLocalNodeId] returns [Some n] and the RX endpoint is the one
    derived from [n]. *)
Theorem node_id_policy :
  (∀ media_count ops id,
     getLocalNodeId (transport (exec ops (initial media_count)).1) = Some id ↔
     (OpSetLocalNodeId id, None) ∈ (exec ops (initial media_count)).2) ∧
  (∀ media_count ops,
     getLocalNodeId (transport (exec ops (initial media_count)).1) = None ↔
     node_id (transport (exec ops (initial media_count)).1) = UDPARD_NODE_ID_UNSET) ∧
  (∀ this n, getLocalNodeId this = Some n →
     setLocalNodeId endpoint_of_node_id this n = (this, None)) ∧
  (∀ this n n', getLocalNodeId this = Some n → n' ≠ n →
     setLocalNodeId endpoint_of_node_id this n' = (this, Some ArgumentError)) ∧
  (∀ this n, node_id this = UDPARD_NODE_ID_UNSET → n <= UDPARD_NODE_ID_MAX →
     (setLocalNodeId endpoint_of_node_id this n).2 = None ∧
     getLocalNodeId (setLocalNodeId endpoint_of_node_id this n).1 = Some n ∧
     svc_rx_sockets_endpoint_ (setLocalNodeId endpoint_of_node_id this n).1
       = Some (endpoint_of_node_id n)).
Proof.
  split_and!.
  - intros media_count ops id. rewrite exec_getLocalNodeId. split; [|by right].
    intros [H|H]; [|done]. by vm_compute in H.
  - intros media_count ops.
    destruct (exec_rx_invariant media_count ops) as (Hnode & _).
    unfold getLocalNodeId. unfold UDPARD_NODE_ID_MAX, UDPARD_NODE_ID_UNSET in *.
    destruct (svc_rx_sockets_endpoint_ _); case_decide; split; try done; lia.
  - intros this n. unfold getLocalNodeId, setLocalNodeId.
    repeat case_decide; intros [= ?]; try done; lia.
  - intros this n n'. unfold getLocalNodeId, setLocalNodeId.
    unfold UDPARD_NODE_ID_MAX, UDPARD_NODE_ID_UNSET in *.
    repeat case_decide; intros [= ?] ?; try done; lia.
  - intros this n Hunset Hn. unfold getLocalNodeId, setLocalNodeId, setNodeId.
    unfold UDPARD_NODE_ID_MAX, UDPARD_NODE_ID_UNSET in *.
    repeat case_decide; simpl; repeat case_decide; try done; lia.
Qed.

(** C5, as the code has it: along any use of a fresh transport no two live
    RX sessions share kind and port, and each session tree holds exactly
    one node per live session of its kind. Creating an RX session for a
    port that has a node already fails and leaves every tree as it was:
    [makeAnyRxSession] answers with the duplicate error, which is what the
    factory returns unless, for the two service kinds, making the media RX
    sockets fails first, in which case that failure is returned. A
    session whose construction fails leaves no node behind, and the
    [Destroyed] event of a session removes its node and no other. *)
Theorem rx_session_uniqueness :
  (∀ media_count ops, session_invariant (exec ops (initial media_count)).1) ∧
  (∀ this k port_id tr, port_id ∈ tree_of k this →
     makeAnyRxSession env this k port_id tr = (this, tr, inl AlreadyExistsError)) ∧
  (∀ this k port_id tr, port_id ∈ tree_of k this →
     (∀ k', tree_of k' (makeRxSession env this k port_id tr).1.1 = tree_of k' this) ∧
     ∃ f, (makeRxSession env this k port_id tr).2 = inl f ∧
          (f = AlreadyExistsError ∨
           k ≠ MessageRx ∧ (ensureMediaRxSockets env this tr).2 = Some f)) ∧
  (∀ this k port_id tr f,
     port_id ∉ tree_of k this →
     env_nodeAlloc env tr k port_id = true →
     env_rxSessionMake env (EvNodeAlloc k port_id true :: tr) k port_id = Some f →
     makeAnyRxSession env this k port_id tr =
     (this, EvRxSessionMake k port_id (Some f) :: EvNodeAlloc k port_id true :: tr,
      inl f)) ∧
  (∀ this k port_id,
     NoDup (tree_of k this) →
     (port_id ∉ tree_of k (onSessionEvent this (destroyed_event (mkRxSession k port_id)))) ∧
     ∀ k' other,
       (k', other) ≠ (k, port_id) →
       other ∈ tree_of k' (onSessionEvent this (destroyed_event (mkRxSession k port_id)))
       ↔ other ∈ tree_of k' this).
Proof.
  split_and!.
  - intros media_count ops.
    apply (exec_invariant session_invariant); [apply step_session_invariant|].
    apply initial_session_invariant.
  - intros this k port_id tr Hin. rewrite makeAnyRxSession_cases. by rewrite decide_True.
  - intros this k port_id tr Hin.
    assert (Hany : ∀ this1 tr1, tree_of k this1 = tree_of k this →
              makeAnyRxSession env this1 k port_id tr1 = (this1, tr1, inl AlreadyExistsError)).
    { intros this1 tr1 Htree. rewrite makeAnyRxSession_cases.
      rewrite decide_True; [done | by rewrite Htree]. }
    assert (Hsvc :
      let res :=
        (let '(this1, tr1, failure) := ensureMediaRxSockets env this tr in
         match failure with
         | Some f => (this1, tr1, inl f)
         | None => makeAnyRxSession env this1 k port_id tr1
         end) in
      (∀ k', tree_of k' res.1.1 = tree_of k' this) ∧
      ∃ f, res.2 = inl f ∧
           (f = AlreadyExistsError ∨ (ensureMediaRxSockets env this tr).2 = Some f)).
    { destruct (ensureMediaRxSockets_frame this tr) as [ms Hms].
      destruct (ensureMediaRxSockets env this tr) as [[this1 tr1] [f|]]; simpl in *;
        subst this1.
      - split; [intros k'; apply tree_of_set_media_array|]. exists f. split; [done|].
        by right.
      - rewrite Hany by apply tree_of_set_media_array. simpl.
        split; [intros k'; apply tree_of_set_media_array|].
        exists AlreadyExistsError. split; [done | by left]. }
    destruct k; simpl.
    + unfold makeMessageRxSession. rewrite Hany by done. simpl. split; [done|].
      exists AlreadyExistsError. split; [done | by left].
    + destruct Hsvc as [Htrees (f & Hf & Hcase)]. split; [done|]. exists f.
      split; [done|]. destruct Hcase; [by left | by right].
    + destruct Hsvc as [Htrees (f & Hf & Hcase)]. split; [done|]. exists f.
      split; [done|]. destruct Hcase; [by left | by right].
  - intros this k port_id tr f Hfresh Halloc Hmake. rewrite makeAnyRxSession_cases.
    rewrite decide_False by done. by rewrite Halloc, Hmake.
  - intros this k port_id Hnd.
    assert (Htree : ∀ k',
      tree_of k' (onSessionEvent this (destroyed_event (mkRxSession k port_id))) =
      if decide (k' = k) then removeNodeFor port_id (tree_of k' this) else tree_of k' this).
    { intros k'. by destruct k, k'. }
    split.
    + rewrite Htree, decide_True by done. rewrite elem_of_removeNodeFor by done.
      by intros [_ ?].
    + intros k' other Hne. rewrite Htree. case_decide as Hk; [|done]. subst k'.
      rewrite elem_of_removeNodeFor by done. split; [by intros [? _]|].
      intros Hin. split; [done|]. intros ->. by apply Hne.
Qed.

(** *** Every medium gets its turn *)

(** When a loop over the media reports no failure, what each step
    established for its medium holds for every medium at the end. *)
Lemma for_each_media_post step (Q : Trace → Media → Prop) medias tr :
  (∀ m tr0, ∃ new, (step m tr0).1.2 = new ++ tr0 ∧
                   ((step m tr0).2 = None → Q new (step m tr0).1.1)) →
  (∀ new older m, Q new m → Q (new ++ older) m) →
  (∀ new newer m, Q new m → Q (newer ++ new) m) →
  ∃ new, (for_each_media step medias tr).1.2 = new ++ tr ∧
         ((for_each_media step medias tr).2 = None →
          Forall (Q new) (for_each_media step medias tr).1.1).
Proof.
  intros Hstep Hold Hnew. revert tr.
  induction medias as [|media rest IH]; intros tr; simpl.
  { by exists []. }
  destruct (Hstep media tr) as (new1 & Hext1 & HQ1).
  destruct (step media tr) as [[media1 tr1] [f|]]; simpl in *.
  { by exists new1. }
  destruct (IH tr1) as (new2 & Hext2 & HQ2).
  destruct (for_each_media step rest tr1) as [[rest1 tr2] r]; simpl in *.
  subst tr1 tr2. exists (new2 ++ new1). split; [by rewrite app_assoc|].
  intros ->. constructor; [by apply Hnew, HQ1|].
  eapply Forall_impl; [by apply HQ2|]. intros m. apply Hold.
Qed.

Lemma make_failure_swallowed_older kind new older m :
  make_failure_swallowed kind new m → make_failure_swallowed kind (new ++ older) m.
Proof. intros [error H]. exists error. apply elem_of_app. by left. Qed.

Lemma make_failure_swallowed_newer kind new newer m :
  make_failure_swallowed kind new m → make_failure_swallowed kind (newer ++ new) m.
Proof. intros [error H]. exists error. apply elem_of_app. by right. Qed.

(** What [withEnsureMediaTxSocket] establishes when it reports no
    failure: the socket is there and the action ran, or making the socket
    failed and the failure was swallowed. *)
Lemma withEnsureMediaTxSocket_post this action (Q : Trace → Media → Prop) media tr :
  (∀ m sock tr0, tx_socket_ptr_ m = Some sock →
     ∃ new, (action m sock tr0).1.2 = new ++ tr0 ∧
            ((action m sock tr0).2 = None → Q new (action m sock tr0).1.1)) →
  (∀ new older m, Q new m → Q (new ++ older) m) →
  ∃ new, (withEnsureMediaTxSocket env this media action tr).1.2 = new ++ tr ∧
         ((withEnsureMediaTxSocket env this media action tr).2 = None →
          Q new (withEnsureMediaTxSocket env this media action tr).1.1 ∨
          (tx_socket_ptr_ (withEnsureMediaTxSocket env this media action tr).1.1 = None ∧
           make_failure_swallowed MediaMakeTxSocket new
             (withEnsureMediaTxSocket env this media action tr).1.1)).
Proof.
  intros Ha Hold. unfold withEnsureMediaTxSocket.
  destruct (tx_socket_ptr_ media) as [tx_socket|] eqn:Htx.
  { destruct (Ha media tx_socket tr Htx) as (new & Hext & HQ).
    exists new. split; [done|]. intros Hr. left. by apply HQ. }
  destruct (env_makeTxSocket env tr (index_ media)) as [[tx_socket|]|f].
  - destruct (Ha (set_tx_socket_ptr media (Some tx_socket)) tx_socket
                (EvMakeTxSocket (index_ media) (MakeTxSocketSuccess (Some tx_socket))
                 :: tr) eq_refl) as (new & Hext & HQ).
    exists (new ++ [EvMakeTxSocket (index_ media) (MakeTxSocketSuccess (Some tx_socket))]).
    split; [rewrite <- app_assoc; exact Hext|].
    intros Hr. left. by apply Hold, HQ.
  - rewrite tryHandleTransientMediaError_verdict. simpl.
    eexists [_; _]. split; [done|]. intros Hr. right. split; [done|].
    exists MemoryError. rewrite Hr. by left.
  - rewrite tryHandleTransientMediaError_verdict. simpl.
    eexists [_; _]. split; [done|]. intros Hr. right. split; [done|].
    exists f. rewrite Hr. by left.
Qed.

Lemma withEnsureMediaRxSocket_post this action (Q : Trace → Media → Prop) media tr :
  (∀ m sock tr0, rx_socket_ptr_ m = Some sock →
     ∃ new, (action m sock tr0).1.2 = new ++ tr0 ∧
            ((action m sock tr0).2 = None → Q new (action m sock tr0).1.1)) →
  (∀ new older m, Q new m → Q (new ++ older) m) →
  ∃ new, (withEnsureMediaRxSocket env this media action tr).1.2 = new ++ tr ∧
         ((withEnsureMediaRxSocket env this media action tr).2 = None →
          Q new (withEnsureMediaRxSocket env this media action tr).1.1 ∨
          (rx_socket_ptr_ (withEnsureMediaRxSocket env this media action tr).1.1 = None ∧
           svc_rx_sockets_endpoint_ this = None) ∨
          make_failure_swallowed MediaMakeRxSocket new
            (withEnsureMediaRxSocket env this media action tr).1.1).
Proof.
  intros Ha Hold. unfold withEnsureMediaRxSocket.
  destruct (rx_socket_ptr_ media) as [rx_socket|] eqn:Hrx.
  { destruct (Ha media rx_socket tr Hrx) as (new & Hext & HQ).
    exists new. split; [done|]. intros Hr. left. by apply HQ. }
  destruct (svc_rx_sockets_endpoint_ this) as [endpoint|].
  2:{ exists []. split; [done|]. intros _. right. by left. }
  destruct (env_makeRxSocket env tr (index_ media) endpoint) as [[rx_socket|]|f].
  - destruct (Ha (set_rx_socket_ptr media (Some rx_socket)) rx_socket
                (EvMakeRxSocket (index_ media) endpoint
                   (MakeRxSocketSuccess (Some rx_socket)) :: tr) eq_refl)
      as (new & Hext & HQ).
    exists (new ++ [EvMakeRxSocket (index_ media) endpoint
                      (MakeRxSocketSuccess (Some rx_socket))]).
    split; [rewrite <- app_assoc; exact Hext|].
    intros Hr. left. by apply Hold, HQ.
  - rewrite tryHandleTransientMediaError_verdict. simpl.
    eexists [_; _]. split; [done|]. intros Hr. right. right.
    exists MemoryError. rewrite Hr. by left.
  - rewrite tryHandleTransientMediaError_verdict. simpl.
    eexists [_; _]. split; [done|]. intros Hr. right. right.
    exists f. rewrite Hr. by left.
Qed.

Lemma for_each_media_emits P step medias tr :
  (∀ m tr0, emits P tr0 (step m tr0).1.2) →
  emits P tr (for_each_media step medias tr).1.2.
Proof.
  intros Hstep. revert tr. induction medias as [|media rest IH]; intros tr; simpl.
  { apply emits_refl. }
  specialize (Hstep media tr).
  destruct (step media tr) as [[media1 tr1] [f|]]; simpl in *; [done|].
  specialize (IH tr1). destruct (for_each_media step rest tr1) as [[rest1 tr2] r].
  by eapply emits_trans.
Qed.

Lemma withEnsureMediaTxSocket_emits (P : Event → Prop) this action media tr :
  (∀ i result, P (EvMakeTxSocket i result)) →
  (∀ report verdict, P (EvTransientError report verdict)) →
  (∀ m sock tr0, emits P tr0 (action m sock tr0).1.2) →
  emits P tr (withEnsureMediaTxSocket env this media action tr).1.2.
Proof.
  intros Hmake Herr Ha. unfold withEnsureMediaTxSocket.
  destruct (tx_socket_ptr_ media); [apply Ha|].
  destruct (env_makeTxSocket env tr (index_ media)) as [[tx_socket|]|f].
  - eapply emits_trans; [|apply Ha]. by apply emits_cons.
  - rewrite tryHandleTransientMediaError_verdict. simpl.
    eapply emits_trans; by apply emits_cons.
  - rewrite tryHandleTransientMediaError_verdict. simpl.
    eapply emits_trans; by apply emits_cons.
Qed.

Lemma ensureMediaTxSockets_emits this tr :
  emits tx_socket_event tr (ensureMediaTxSockets env this tr).1.2.
Proof.
  unfold ensureMediaTxSockets.
  pose proof (for_each_media_emits tx_socket_event
                (λ media, withEnsureMediaTxSocket env this media no_action)
                (media_array_ this) tr) as H.
  destruct (for_each_media _ _ _) as [[ms tr1] r]. apply H.
  intros m tr0. apply withEnsureMediaTxSocket_emits; [done..|].
  intros m' sock tr1'. apply emits_refl.
Qed.

Lemma tx_socket_ensured_step this m tr0 :
  ∃ new, (withEnsureMediaTxSocket env this m no_action tr0).1.2 = new ++ tr0 ∧
         ((withEnsureMediaTxSocket env this m no_action tr0).2 = None →
          tx_socket_ensured new (withEnsureMediaTxSocket env this m no_action tr0).1.1).
Proof.
  destruct (withEnsureMediaTxSocket_post this no_action
              (λ _ m, is_Some (tx_socket_ptr_ m)) m tr0) as (new & Hext & Hpost).
  { intros m' sock tr1 Hsock. exists []. split; [done|]. intros _. simpl. eauto. }
  { done. }
  exists new. split; [done|]. intros Hr.
  destruct (Hpost Hr) as [?|[_ ?]]; [by left | by right].
Qed.

Lemma ensureMediaTxSockets_post this tr :
  ∃ new, (ensureMediaTxSockets env this tr).1.2 = new ++ tr ∧
         ((ensureMediaTxSockets env this tr).2 = None →
          Forall (tx_socket_ensured new)
                 (media_array_ (ensureMediaTxSockets env this tr).1.1)).
Proof.
  unfold ensureMediaTxSockets.
  destruct (for_each_media_post
              (λ media, withEnsureMediaTxSocket env this media no_action)
              tx_socket_ensured (media_array_ this) tr) as (new & Hext & Hpost).
  - apply tx_socket_ensured_step.
  - intros new older m [?|?]; [by left | right; by apply make_failure_swallowed_older].
  - intros new newer m [?|?]; [by left | right; by apply make_failure_swallowed_newer].
  - destruct (for_each_media _ _ _) as [[ms tr1] r]. by exists new.
Qed.

(** Without a handler nothing is ever swallowed. *)
Lemma obeys_no_handler tr new report :
  obeys None tr new → EvTransientError report None ∉ new.
Proof.
  induction new as [|e new IH]; simpl; [by intros _ ?%elem_of_nil|].
  intros [Ho He] [<-|Hin]%elem_of_cons; [done | by apply IH].
Qed.

Lemma ensureMediaTxSockets_follows this tr :
  follows_policy (transient_error_handler_ this) tr
    (ensureMediaTxSockets env this tr).1.2 (ensureMediaTxSockets env this tr).2.
Proof.
  unfold ensureMediaTxSockets.
  pose proof (for_each_media_follows this
                (λ media, withEnsureMediaTxSocket env this media no_action)
                (media_array_ this) tr
                (withEnsureMediaTxSocket_follows this _ (no_action_follows this))) as H.
  by destruct (for_each_media _ _ _) as [[ms tr1] r].
Qed.

Lemma for_each_media_pairs step (Q : Trace → Media → Media → Prop) medias tr :
  (∀ m tr0, ∃ new, (step m tr0).1.2 = new ++ tr0 ∧
                   ((step m tr0).2 = None → Q new m (step m tr0).1.1)) →
  (∀ new older m m', Q new m m' → Q (new ++ older) m m') →
  (∀ new newer m m', Q new m m' → Q (newer ++ new) m m') →
  ∃ new, (for_each_media step medias tr).1.2 = new ++ tr ∧
         ((for_each_media step medias tr).2 = None →
          Forall2 (Q new) medias (for_each_media step medias tr).1.1).
Proof.
  intros Hstep Hold Hnew. revert tr.
  induction medias as [|media rest IH]; intros tr; simpl.
  { exists []. split; [done|]. intros _. constructor. }
  destruct (Hstep media tr) as (new1 & Hext1 & HQ1).
  destruct (step media tr) as [[media1 tr1] [f|]]; simpl in *.
  { by exists new1. }
  destruct (IH tr1) as (new2 & Hext2 & HQ2).
  destruct (for_each_media step rest tr1) as [[rest1 tr2] r]; simpl in *.
  subst tr1 tr2. exists (new2 ++ new1). split; [by rewrite app_assoc|].
  intros ->. constructor; [by apply Hnew, HQ1|].
  eapply Forall2_impl; [by apply HQ2|]. intros m m'. apply Hold.
Qed.

Lemma tx_socket_attempted_older new older m m' :
  tx_socket_attempted new m m' → tx_socket_attempted (new ++ older) m m'.
Proof.
  unfold tx_socket_attempted. destruct (tx_socket_ptr_ m); [done|].
  intros [(tx_socket & Hin & ->)|((result & Hin) & Hsw & ->)].
  - left. exists tx_socket. split; [|done]. apply elem_of_app. by left.
  - right. split_and!; [|by apply make_failure_swallowed_older | done].
    exists result. apply elem_of_app. by left.
Qed.

Lemma tx_socket_attempted_newer new newer m m' :
  tx_socket_attempted new m m' → tx_socket_attempted (newer ++ new) m m'.
Proof.
  unfold tx_socket_attempted. destruct (tx_socket_ptr_ m); [done|].
  intros [(tx_socket & Hin & ->)|((result & Hin) & Hsw & ->)].
  - left. exists tx_socket. split; [|done]. apply elem_of_app. by right.
  - right. split_and!; [|by apply make_failure_swallowed_newer | done].
    exists result. apply elem_of_app. by right.
Qed.

Lemma tx_socket_attempted_step this m tr0 :
  ∃ new, (withEnsureMediaTxSocket env this m no_action tr0).1.2 = new ++ tr0 ∧
         ((withEnsureMediaTxSocket env this m no_action tr0).2 = None →
          tx_socket_attempted new m (withEnsureMediaTxSocket env this m no_action tr0).1.1).
Proof.
  unfold withEnsureMediaTxSocket, tx_socket_attempted, no_action.
  destruct (tx_socket_ptr_ m) as [tx_socket|]; simpl.
  { by exists []. }
  destruct (env_makeTxSocket env tr0 (index_ m)) as [[tx_socket|]|f] eqn:Hmake.
  - exists [EvMakeTxSocket (index_ m) (MakeTxSocketSuccess (Some tx_socket))].
    split; [done|]. intros _. left. exists tx_socket. split; [by left | done].
  - rewrite tryHandleTransientMediaError_verdict. simpl.
    eexists [_; _]. split; [reflexivity|]. intros ->. right. split_and!; [| |done].
    + eexists. right. by left.
    + exists MemoryError. by left.
  - rewrite tryHandleTransientMediaError_verdict. simpl.
    eexists [_; _]. split; [reflexivity|]. intros ->. right. split_and!; [| |done].
    + eexists. right. by left.
    + exists f. by left.
Qed.

Lemma ensureMediaTxSockets_attempts this tr :
  ∃ new, (ensureMediaTxSockets env this tr).1.2 = new ++ tr ∧
         ((ensureMediaTxSockets env this tr).2 = None →
          Forall2 (tx_socket_attempted new) (media_array_ this)
                  (media_array_ (ensureMediaTxSockets env this tr).1.1)).
Proof.
  unfold ensureMediaTxSockets.
  destruct (for_each_media_pairs
              (λ media, withEnsureMediaTxSocket env this media no_action)
              tx_socket_attempted (media_array_ this) tr) as (new & Hext & Hpost).
  - apply tx_socket_attempted_step.
  - apply tx_socket_attempted_older.
  - apply tx_socket_attempted_newer.
  - destruct (for_each_media _ _ _) as [[ms tr1] r]. by exists new.
Qed.

(** C10, as the code has it: every TX-session factory first runs
    [ensureMediaTxSockets], which tries to make a TX socket for the media
    that lack one, and only then constructs the session. When the
    transient-error policy answers a failed socket creation with a failure
    (the handler's answer, or the failure itself when no handler is set),
    the factory returns that failure and constructs no session; that is
    the only way [ensureMediaTxSockets] stops the factory. A failure that
    the handler swallows leaves its medium as it was, without TX socket,
    and does not stop the factory: as long as no verdict is a failure,
    [makeTxSocket] is called for every medium that lacks a TX socket, each
    of them ends with the socket made for it or with its failure
    swallowed, and the session is constructed. So a successfully created
    TX session implies that every medium holds a TX socket or had such a
    failure swallowed during the call, and that every medium holds one
    when no handler is set. *)
Theorem tx_session_after_tx_sockets this k port_id tr :
  makeAnyTxSession env this k port_id tr =
  match (ensureMediaTxSockets env this tr).2 with
  | Some f =>
      ((ensureMediaTxSockets env this tr).1.1, (ensureMediaTxSockets env this tr).1.2,
       inl f)
  | None =>
      let made :=
        env_txSessionMake env (ensureMediaTxSockets env this tr).1.2 k port_id in
      ((ensureMediaTxSockets env this tr).1.1,
       EvTxSessionMake k port_id made :: (ensureMediaTxSockets env this tr).1.2,
       match made with Some f => inl f | None => inr (mkTxSession k port_id) end)
  end ∧
  ∃ new,
    (ensureMediaTxSockets env this tr).1.2 = new ++ tr ∧
    Forall tx_socket_event new ∧
    (∀ report f,
       EvTransientError report (Some f) ∈ new →
       (ensureMediaTxSockets env this tr).2 = Some f) ∧
    (∀ session,
       (makeAnyTxSession env this k port_id tr).2 = inr session →
       Forall (tx_socket_ensured new)
              (media_array_ (makeAnyTxSession env this k port_id tr).1.1)) ∧
    (transient_error_handler_ this = None →
     ∀ session,
       (makeAnyTxSession env this k port_id tr).2 = inr session →
       Forall (λ m, is_Some (tx_socket_ptr_ m))
              (media_array_ (makeAnyTxSession env this k port_id tr).1.1)) ∧
    ((∀ report f, EvTransientError report (Some f) ∉ new) →
     (ensureMediaTxSockets env this tr).2 = None ∧
     Forall2 (tx_socket_attempted new) (media_array_ this)
             (media_array_ (makeAnyTxSession env this k port_id tr).1.1) ∧
     (makeAnyTxSession env this k port_id tr).2 =
     match env_txSessionMake env (new ++ tr) k port_id with
     | Some f => inl f
     | None => inr (mkTxSession k port_id)
     end).
Proof.
  assert (Hcases :
    makeAnyTxSession env this k port_id tr =
    match (ensureMediaTxSockets env this tr).2 with
    | Some f =>
        ((ensureMediaTxSockets env this tr).1.1, (ensureMediaTxSockets env this tr).1.2,
         inl f)
    | None =>
        let made :=
          env_txSessionMake env (ensureMediaTxSockets env this tr).1.2 k port_id in
        ((ensureMediaTxSockets env this tr).1.1,
         EvTxSessionMake k port_id made :: (ensureMediaTxSockets env this tr).1.2,
         match made with Some f => inl f | None => inr (mkTxSession k port_id) end)
    end).
  { unfold makeAnyTxSession.
    destruct (ensureMediaTxSockets env this tr) as [[this1 tr1] [f|]]; simpl; [done|].
    by destruct (env_txSessionMake env tr1 k port_id). }
  split; [done|].
  destruct (ensureMediaTxSockets_post this tr) as (new & Hext & Hpost).
  destruct (ensureMediaTxSockets_emits this tr) as (new' & Hext' & Hev).
  destruct (ensureMediaTxSockets_follows this tr) as (new'' & Hext'' & Hobeys & Hstop & _).
  destruct (ensureMediaTxSockets_attempts this tr) as (new3 & Hext3 & Hattempts).
  assert (new' = new) as -> by (eapply app_inv_tail; by rewrite <- Hext, <- Hext').
  assert (new'' = new) as -> by (eapply app_inv_tail; by rewrite <- Hext, <- Hext'').
  assert (new3 = new) as -> by (eapply app_inv_tail; by rewrite <- Hext, <- Hext3).
  assert (Hmade : ∀ session,
    (makeAnyTxSession env this k port_id tr).2 = inr session →
    (ensureMediaTxSockets env this tr).2 = None ∧
    (makeAnyTxSession env this k port_id tr).1.1 = (ensureMediaTxSockets env this tr).1.1).
  { intros session. rewrite Hcases.
    destruct ((ensureMediaTxSockets env this tr).2); [done|]. by intros _. }
  exists new. split_and!; [done | done | | | |].
  - intros report f Hin.
    destruct ((ensureMediaTxSockets env this tr).2) as [f'|]; simpl in Hstop.
    + destruct Hstop as (report' & older & -> & Hquiet).
      apply elem_of_cons in Hin as [[= _ ->]|Hin]; [done|]. by destruct (Hquiet _ _ Hin).
    + by destruct (Hstop _ _ Hin).
  - intros session Hs. destruct (Hmade _ Hs) as [Hnone ->]. by apply Hpost.
  - intros Hno session Hs. destruct (Hmade _ Hs) as [Hnone ->].
    eapply Forall_impl; [by apply Hpost|]. intros m [?|[error Hsw]]; [done|].
    rewrite Hno in Hobeys. by destruct (obeys_no_handler _ _ _ Hobeys Hsw).
  - intros Hquiet.
    assert (Hnone : (ensureMediaTxSockets env this tr).2 = None).
    { destruct ((ensureMediaTxSockets env this tr).2) as [f|]; [|done].
      simpl in Hstop. destruct Hstop as (report & older & -> & _).
      destruct (Hquiet report f). by left. }
    rewrite Hcases, Hnone. simpl. rewrite Hext.
    split_and!; [done | by apply Hattempts | done].
Qed.

(** *** The three cases of the transient-error policy *)

Local Abbreviation honours_transient_policy :=
  (honours_transient_policy optAnyFailureFromUdpard).

Lemma obeys_split handler tr post report verdict pre :
  obeys handler tr (post ++ EvTransientError report verdict :: pre) →
  verdict = policy_verdict handler (pre ++ tr) report.
Proof.
  induction post as [|e post IH]; simpl; [by intros [_ ?] | by intros [? _]; apply IH].
Qed.

Lemma follows_policy_honours handler tr tr' r :
  follows_policy handler tr tr' r → honours_transient_policy handler tr tr' r.
Proof.
  intros (new & -> & Hobeys & Hstop & Hrouted). exists new.
  assert (Hat_once : ∀ post report f pre,
    new = post ++ EvTransientError report (Some f) :: pre → post = [] ∧ r = Some f).
  { intros post report f pre Hnew. subst new. destruct r as [f'|]; simpl in Hstop.
    - destruct Hstop as (report' & older & Heq & Hquiet).
      destruct post as [|e post]; simpl in Heq; [by simplify_eq|].
      injection Heq as -> <-. destruct (Hquiet report f).
      apply elem_of_app. right. by left.
    - destruct (Hstop report f). apply elem_of_app. right. by left. }
  split_and!; [done | done | | | done |].
  - intros Hno report verdict Hin. subst handler.
    apply list_elem_of_split in Hin as (post & pre & ->).
    pose proof (obeys_split _ _ _ _ _ _ Hobeys) as ->. simpl.
    split; [done|]. by destruct (Hat_once post report (failure report) pre eq_refl).
  - intros h -> post report verdict pre Hnew. subst new.
    by apply obeys_split in Hobeys.
  - intros Hquiet. destruct r as [f|]; [|done]. simpl in Hstop.
    destruct Hstop as (report & older & -> & _). destruct (Hquiet report f). by left.
Qed.

(** *** Every medium gets its turn in [run] and in [sendAnyTransfer] *)

Lemma runMediaTransmit_post this now tr :
  ∃ new, (runMediaTransmit env this now tr).1.2 = new ++ tr ∧
         ((runMediaTransmit env this now tr).2 = None →
          Forall (tx_drained now new) (media_array_ (runMediaTransmit env this now tr).1.1)).
Proof.
  unfold runMediaTransmit.
  destruct (for_each_media_post
              (λ some_media, withEnsureMediaTxSocket env this some_media
                 (λ media tx_socket, runSingleMediaTransmit env this media tx_socket now))
              (tx_drained now) (media_array_ this) tr) as (new & Hext & Hpost).
  - intros m tr0.
    destruct (withEnsureMediaTxSocket_post this
                (λ media tx_socket, runSingleMediaTransmit env this media tx_socket now)
                (λ new m,
                   is_Some (tx_socket_ptr_ m) ∧
                   (udpard_tx_ m = [] ∨
                    ∃ item rest,
                      udpard_tx_ m = item :: rest ∧
                      ¬ now >= TimePoint_of_usec (deadline_usec item) ∧
                      EvSend (index_ m)
                        (TimePoint_of_usec (deadline_usec item)) item (SendSuccess false)
                        ∈ new))
                m tr0) as (new & Hext & Hpost).
    + intros m' sock tr1 Hsock. cbn beta.
      pose proof (runSingleMediaTransmit_drain this m' sock now tr1) as Hd.
      destruct (drain_state _ _ _ _ _ _ Hd) as (Hi & Ht & _ & _).
      destruct (drain_events _ _ _ _ _ _ Hd) as (new & Hext & _).
      exists new. split; [done|]. intros Hr. split; [rewrite Ht, Hsock; eauto|].
      destruct (drain_complete _ _ _ _ _ _ Hd Hr)
        as [?|(item & rest & older & Hq & Hexp & Htr & Hsuf)]; [by left|right].
      exists item, rest. split_and!; [done..|]. rewrite Hi.
      rewrite Hext in Htr. destruct new as [|e new]; simpl in Htr.
      * subst tr1. apply suffix_cons_not in Hsuf. done.
      * injection Htr as -> _. by left.
    + intros new older m' [? [?|(item & rest & ? & ? & ?)]]; (split; [done|]);
        [by left | right]. exists item, rest. split_and!; [done..|].
      apply elem_of_app. by left.
    + exists new. split; [done|]. intros Hr.
      destruct (Hpost Hr) as [?|[_ ?]]; [by left | by right].
  - intros new older m [[? [?|(item & rest & ? & ? & ?)]]|?].
    + left. split; [done | by left].
    + left. split; [done|]. right. exists item, rest. split_and!; [done..|].
      apply elem_of_app. by left.
    + right. by apply make_failure_swallowed_older.
  - intros new newer m [[? [?|(item & rest & ? & ? & ?)]]|?].
    + left. split; [done | by left].
    + left. split; [done|]. right. exists item, rest. split_and!; [done..|].
      apply elem_of_app. by right.
    + right. by apply make_failure_swallowed_newer.
  - destruct (for_each_media _ _ _) as [[ms tr1] r]. by exists new.
Qed.

Lemma runSingleMediaReceive_trace this media rx_socket tr :
  (runSingleMediaReceive env optAnyFailureFromUdpard this media rx_socket tr).1.1 = media ∧
  ∃ newer,
    (runSingleMediaReceive env optAnyFailureFromUdpard this media rx_socket tr).1.2
    = newer ++ EvReceive (index_ media) (env_receive env tr (index_ media) rx_socket) :: tr.
Proof.
  unfold runSingleMediaReceive.
  destruct (env_receive env tr (index_ media) rx_socket) as [[rx_meta|]|f].
  - destruct (env_udpardRxRPCDispatcherReceive _ _ _ _) as [result out_port].
    unfold tryHandleTransientUdpardResult.
    destruct (optAnyFailureFromUdpard result) as [error|].
    + destruct (transient_error_handler_ this) as [h|]; simpl.
      * destruct (h _ _); simpl; [split; [done|]; by eexists [_; _]|].
        case_decide; (split; [done|]); [by eexists [_; _; _] | by eexists [_; _]].
      * split; [done|]. by eexists [_; _].
    + simpl. case_decide; (split; [done|]); [by eexists [_; _] | by eexists [_]].
  - split; [done|]. by exists [].
  - rewrite tryHandleTransientMediaError_verdict. simpl. split; [done|]. by eexists [_].
Qed.

Lemma runMediaReceive_post this tr :
  ∃ new, (runMediaReceive env optAnyFailureFromUdpard this tr).1.2 = new ++ tr ∧
         ((runMediaReceive env optAnyFailureFromUdpard this tr).2 = None →
          Forall (rx_pumped this new)
                 (media_array_ (runMediaReceive env optAnyFailureFromUdpard this tr).1.1)).
Proof.
  unfold runMediaReceive.
  destruct (for_each_media_post
              (λ some_media, withEnsureMediaRxSocket env this some_media
                 (λ media rx_socket,
                    runSingleMediaReceive env optAnyFailureFromUdpard this media rx_socket))
              (rx_pumped this) (media_array_ this) tr) as (new & Hext & Hpost).
  - intros m tr0.
    destruct (withEnsureMediaRxSocket_post this
                (λ media rx_socket,
                   runSingleMediaReceive env optAnyFailureFromUdpard this media rx_socket)
                (λ new m,
                   is_Some (rx_socket_ptr_ m) ∧ ∃ result, EvReceive (index_ m) result ∈ new)
                m tr0) as (new & Hext & Hpost).
    + intros m' sock tr1 Hsock. cbn beta.
      destruct (runSingleMediaReceive_trace this m' sock tr1) as (-> & newer & ->).
      eexists (newer ++ [_]). split; [by rewrite <- app_assoc|]. intros _.
      split; [by rewrite Hsock|]. eexists. apply elem_of_app. right. by left.
    + intros new older m' [? [result ?]]. split; [done|]. exists result.
      apply elem_of_app. by left.
    + exists new. split; [done|]. intros Hr.
      destruct (Hpost Hr) as [?|[?|?]]; [by left | right; by left | right; by right].
  - intros new older m [[? [result ?]]|[?|?]].
    + left. split; [done|]. exists result. apply elem_of_app. by left.
    + right. by left.
    + right. right. by apply make_failure_swallowed_older.
  - intros new newer m [[? [result ?]]|[?|?]].
    + left. split; [done|]. exists result. apply elem_of_app. by right.
    + right. by left.
    + right. right. by apply make_failure_swallowed_newer.
  - destruct (for_each_media _ _ _) as [[ms tr1] r]. by exists new.
Qed.

Lemma sendAnyTransfer_post this tx_metadata payload_fragments tr :
  ∃ new,
    (sendAnyTransfer env optAnyFailureFromUdpard this tx_metadata payload_fragments tr).1.2
    = new ++ tr ∧
    ((sendAnyTransfer env optAnyFailureFromUdpard this tx_metadata payload_fragments tr).2
     = None →
     Forall (tx_pushed tx_metadata new)
       (media_array_
          (sendAnyTransfer env optAnyFailureFromUdpard this tx_metadata payload_fragments
             tr).1.1)).
Proof.
  unfold sendAnyTransfer.
  destruct (env_contiguousPayload env tr payload_fragments) as [payload|].
  2:{ by exists [EvContiguousPayload false]. }
  destruct (for_each_media_post
              (λ some_media, withEnsureMediaTxSocket env this some_media
                 (TxTransferHandler env optAnyFailureFromUdpard this tx_metadata payload))
              (tx_pushed tx_metadata) (media_array_ this)
              (EvContiguousPayload true :: tr)) as (new & Hext & Hpost).
  - intros m tr0.
    destruct (withEnsureMediaTxSocket_post this
                (TxTransferHandler env optAnyFailureFromUdpard this tx_metadata payload)
                (λ new m,
                   is_Some (tx_socket_ptr_ m) ∧
                   ∃ result, EvTxPush (index_ m) tx_metadata result ∈ new)
                m tr0) as (new & Hext & Hpost).
    + intros m' sock tr1 Hsock. unfold TxTransferHandler.
      destruct (env_udpardTx env tr1 (index_ m') tx_metadata payload)
        as [result datagrams].
      set (media1 := if decide (result > 0) then _ else _).
      assert (Hm : index_ media1 = index_ m' ∧ tx_socket_ptr_ media1 = tx_socket_ptr_ m')
        by (subst media1; by case_decide).
      destruct Hm as [Hi Ht].
      assert (Hnewer : ∃ newer,
        (tryHandleTransientUdpardResult optAnyFailureFromUdpard this
           (report_kind_of tx_metadata) media1 result
           (EvTxPush (index_ m') tx_metadata result :: tr1)).1
        = newer ++ EvTxPush (index_ m') tx_metadata result :: tr1).
      { unfold tryHandleTransientUdpardResult.
        destruct (optAnyFailureFromUdpard result); [|by exists []].
        destruct (transient_error_handler_ this); by eexists [_]. }
      destruct Hnewer as [newer Hnewer].
      destruct (tryHandleTransientUdpardResult _ _ _ _ _ _) as [tr2 r]; simpl in *.
      subst tr2. eexists (newer ++ [_]). split; [by rewrite <- app_assoc|]. intros _.
      split; [rewrite Ht, Hsock; eauto|]. exists result. rewrite Hi.
      apply elem_of_app. right. by left.
    + intros new older m' [? [result ?]]. split; [done|]. exists result.
      apply elem_of_app. by left.
    + exists new. split; [done|]. intros Hr.
      destruct (Hpost Hr) as [?|[_ ?]]; [by left | by right].
  - intros new older m [[? [result ?]]|?].
    + left. split; [done|]. exists result. apply elem_of_app. by left.
    + right. by apply make_failure_swallowed_older.
  - intros new newer m [[? [result ?]]|?].
    + left. split; [done|]. exists result. apply elem_of_app. by right.
    + right. by apply make_failure_swallowed_newer.
  - destruct (for_each_media _ _ _) as [[ms tr1] r]; simpl in *.
    exists (new ++ [EvContiguousPayload true]). split; [by rewrite Hext, <- app_assoc|].
    intros Hr. eapply Forall_impl; [by apply Hpost|].
    intros m [[? [result ?]]|?].
    + left. split; [done|]. exists result. apply elem_of_app. by left.
    + right. by apply make_failure_swallowed_older.
Qed.

(** The RX pump leaves the TX side of every medium as it was. *)
Lemma for_each_media_Forall2 (R : Media → Media → Prop) step medias tr :
  (∀ m, R m m) → (∀ m tr0, R m (step m tr0).1.1) →
  Forall2 R medias (for_each_media step medias tr).1.1.
Proof.
  intros Hrefl Hstep. revert tr.
  induction medias as [|media rest IH]; intros tr; simpl; [constructor|].
  specialize (Hstep media tr).
  destruct (step media tr) as [[media1 tr1] [f|]]; simpl in *.
  { constructor; [done|]. by apply Forall_Forall2_diag, Forall_forall. }
  specialize (IH tr1). destruct (for_each_media step rest tr1) as [[rest1 tr2] r].
  by constructor.
Qed.

Lemma runMediaReceive_same_tx this tr :
  Forall2 (λ m m', index_ m' = index_ m ∧ tx_socket_ptr_ m' = tx_socket_ptr_ m ∧
                   udpard_tx_ m' = udpard_tx_ m)
          (media_array_ this)
          (media_array_ (runMediaReceive env optAnyFailureFromUdpard this tr).1.1).
Proof.
  unfold runMediaReceive.
  pose proof (for_each_media_Forall2
                (λ m m', index_ m' = index_ m ∧ tx_socket_ptr_ m' = tx_socket_ptr_ m ∧
                         udpard_tx_ m' = udpard_tx_ m)
                (λ some_media, withEnsureMediaRxSocket env this some_media
                   (λ media rx_socket,
                      runSingleMediaReceive env optAnyFailureFromUdpard this media
                        rx_socket))
                (media_array_ this) tr) as H.
  destruct (for_each_media _ _ _) as [[ms tr1] r]. apply H; [done|].
  intros m tr0. unfold withEnsureMediaRxSocket.
  destruct (rx_socket_ptr_ m) as [sock|].
  { by destruct (runSingleMediaReceive_trace this m sock tr0) as [-> _]. }
  destruct (svc_rx_sockets_endpoint_ this) as [endpoint|]; [|done].
  destruct (env_makeRxSocket env tr0 (index_ m) endpoint) as [[sock|]|f].
  - by destruct (runSingleMediaReceive_trace this (set_rx_socket_ptr m (Some sock)) sock
                   (EvMakeRxSocket (index_ m) endpoint (MakeRxSocketSuccess (Some sock))
                    :: tr0)) as [-> _].
  - by rewrite tryHandleTransientMediaError_verdict.
  - by rewrite tryHandleTransientMediaError_verdict.
Qed.

Lemma run_post this now tr :
  ∃ new, (run env optAnyFailureFromUdpard this now tr).1.2 = new ++ tr ∧
         ((run env optAnyFailureFromUdpard this now tr).2 = None →
          Forall (λ m, tx_drained now new m ∧ rx_pumped this new m)
                 (media_array_ (run env optAnyFailureFromUdpard this now tr).1.1)).
Proof.
  unfold run.
  destruct (runMediaTransmit_post this now tr) as (new1 & Hext1 & Hpost1).
  destruct (runMediaTransmit_frame this now tr) as [ms Hms].
  destruct (runMediaTransmit env this now tr) as [[this1 tr1] [f|]]; simpl in *.
  { by exists new1. }
  destruct (runMediaReceive_post this1 tr1) as (new2 & Hext2 & Hpost2).
  pose proof (runMediaReceive_same_tx this1 tr1) as Hsame.
  exists (new2 ++ new1). split; [by rewrite Hext2, Hext1, app_assoc|].
  intros Hr. specialize (Hpost1 eq_refl). specialize (Hpost2 Hr).
  apply Forall_forall. intros m' Hm'.
  rewrite Forall_forall in Hpost2. specialize (Hpost2 _ Hm').
  apply list_elem_of_lookup in Hm' as [j Hj].
  destruct (Forall2_lookup_r _ _ _ _ _ Hsame Hj) as (m & Hm & Hi & Ht & Hq).
  rewrite Forall_forall in Hpost1.
  specialize (Hpost1 m ltac:(by eapply list_elem_of_lookup_2)).
  split.
  - destruct Hpost1 as [[Hsock [Hempty|(item & rest & ? & ? & ?)]]|[error Hsw]].
    + left. rewrite Ht, Hq. split; [done | by left].
    + left. rewrite Ht, Hq, Hi. split; [done|]. right. exists item, rest.
      split_and!; [done..|]. apply elem_of_app. by right.
    + right. exists error. rewrite Hi. apply elem_of_app. by right.
  - subst this1.
    destruct Hpost2 as [[? [result ?]]|[?|[error ?]]].
    + left. split; [done|]. exists result. apply elem_of_app. by left.
    + right. by left.
    + right. right. exists error. apply elem_of_app. by left.
Qed.



(** C1: the transient-error policy of [run] and of a send. Where a
    transient failure is handled, no handler means the failure itself is
    the verdict and a handler's answer is the verdict otherwise. Every
    failing answer of a medium, socket or the framer during [run] or
    [sendAnyTransfer] is reported this way; with no handler set the
    failure is what the call returns; a verdict [Some f] ends the call at
    once with [f], nothing more being done for the remaining media; and a
    swallowed failure (verdict [None]) does not stop the call, which, when
    it returns no failure, has given every medium its turn: in [run] the
    TX queue drained and the RX socket pumped, in a send the transfer
    pushed, but for the media whose socket could not be made. *)
Theorem transient_error_policy this :
  (∀ kind media error tr,
     tryHandleTransientMediaError this kind media error tr =
     match transient_error_handler_ this with
     | None =>
         (EvTransientError (mkReport kind error (index_ media)) (Some error) :: tr,
          Some error)
     | Some handler =>
         (EvTransientError (mkReport kind error (index_ media))
            (handler tr (mkReport kind error (index_ media))) :: tr,
          handler tr (mkReport kind error (index_ media)))
     end) ∧
  (∀ now tr,
     honours_transient_policy (transient_error_handler_ this) tr
       (run env optAnyFailureFromUdpard this now tr).1.2
       (run env optAnyFailureFromUdpard this now tr).2 ∧
     ∃ new,
       (run env optAnyFailureFromUdpard this now tr).1.2 = new ++ tr ∧
       ((run env optAnyFailureFromUdpard this now tr).2 = None →
        Forall (λ m, tx_drained now new m ∧ rx_pumped this new m)
               (media_array_ (run env optAnyFailureFromUdpard this now tr).1.1))) ∧
  (∀ tx_metadata payload_fragments tr,
     (env_contiguousPayload env tr payload_fragments = None ∧
      sendAnyTransfer env optAnyFailureFromUdpard this tx_metadata payload_fragments tr
      = (this, EvContiguousPayload false :: tr, Some MemoryError)) ∨
     (env_contiguousPayload env tr payload_fragments ≠ None ∧
      honours_transient_policy (transient_error_handler_ this) tr
        (sendAnyTransfer env optAnyFailureFromUdpard this tx_metadata
           payload_fragments tr).1.2
        (sendAnyTransfer env optAnyFailureFromUdpard this tx_metadata
           payload_fragments tr).2 ∧
      ∃ new,
        (sendAnyTransfer env optAnyFailureFromUdpard this tx_metadata
           payload_fragments tr).1.2 = new ++ tr ∧
        ((sendAnyTransfer env optAnyFailureFromUdpard this tx_metadata
            payload_fragments tr).2 = None →
         Forall (tx_pushed tx_metadata new)
           (media_array_
              (sendAnyTransfer env optAnyFailureFromUdpard this tx_metadata
                 payload_fragments tr).1.1)))).
Proof.
  split_and!.
  - intros kind media error tr. unfold tryHandleTransientMediaError.
    by destruct (transient_error_handler_ this).
  - intros now tr. split; [apply follows_policy_honours, run_follows | apply run_post].
  - intros tx_metadata payload_fragments tr.
    destruct (sendAnyTransfer_follows this tx_metadata payload_fragments tr)
      as [[Hnone Hres]|[Hsome Hfollows]]; [by left | right].
    split_and!; [done | by apply follows_policy_honours | apply sendAnyTransfer_post].
Qed.

End Properties.

(** ** Scenarios *)

(** The drain at time 20 drops the expired two-fragment transfer without
    a send, then sends the remaining item. *)
Example drain_drops_expired :
  runSingleMediaTransmit friendly_env (make_transport 1) example_media (mkTxSocket 0) 20 []
  = (mkMedia 0 [] None (Some (mkTxSocket 0)),
     [EvTxFree 0 fragment_b; EvSend 0 100 fragment_b (SendSuccess true);
      EvTxFree 0 fragment_a2; EvTxFree 0 fragment_a1],
     None).
Proof. reflexivity. Qed.

Lemma expired_transfer_dropped_witness :
  20 >= deadline_usec fragment_a1 ∧
  ∀ item,
    item ∈ udpard_tx_ (runSingleMediaTransmit friendly_env (make_transport 1)
                         example_media (mkTxSocket 0) 20 []).1.1 →
    transfer_id item ≠ transfer_id fragment_a1.
Proof.
  split; [by vm_compute|].
  apply (expired_transfer_dropped friendly_env (make_transport 1) example_media
           (mkTxSocket 0) 20 [] fragment_a1 [fragment_a2; fragment_b]);
    [reflexivity | by vm_compute].
Defined.

Lemma would_block_keeps_item_witness :
  ¬ 5 >= TimePoint_of_usec (deadline_usec fragment_a1) ∧
  runSingleMediaTransmit busy_env (make_transport 1) example_media (mkTxSocket 0) 5 []
  = (example_media, [EvSend 0 10 fragment_a1 (SendSuccess false)], None).
Proof.
  split; [by vm_compute|].
  apply (would_block_keeps_item busy_env (make_transport 1) example_media
           (mkTxSocket 0) 5 [] fragment_a1 [fragment_a2; fragment_b]);
    [reflexivity | by vm_compute | reflexivity].
Defined.

(** A broken socket with a handler that swallows: both transfers are
    dropped, one after the other, and the drain reports nothing. *)
Example drain_swallows_send_failures :
  runSingleMediaTransmit broken_env
    (setTransientErrorHandler (make_transport 1) (Some swallow_all))
    example_media (mkTxSocket 0) 5 []
  = (mkMedia 0 [] None (Some (mkTxSocket 0)),
     [EvTransientError (mkReport MediaTxSocketSend (PlatformError 5) 0) None;
      EvTxFree 0 fragment_b;
      EvSend 0 100 fragment_b (SendFailure (PlatformError 5));
      EvTransientError (mkReport MediaTxSocketSend (PlatformError 5) 0) None;
      EvTxFree 0 fragment_a2; EvTxFree 0 fragment_a1;
      EvSend 0 10 fragment_a1 (SendFailure (PlatformError 5))],
     None).
Proof. reflexivity. Qed.

Lemma send_failure_drops_transfer_witness :
  ¬ 5 >= TimePoint_of_usec (deadline_usec fragment_a1) ∧
  ∀ item,
    item ∈ udpard_tx_ (runSingleMediaTransmit broken_env (make_transport 1)
                         example_media (mkTxSocket 0) 5 []).1.1 →
    transfer_id item ≠ transfer_id fragment_a1.
Proof.
  split; [by vm_compute|].
  apply (send_failure_drops_transfer broken_env (make_transport 1) example_media
           (mkTxSocket 0) 5 [] fragment_a1 [fragment_a2; fragment_b] (PlatformError 5));
    [reflexivity | by vm_compute | reflexivity].
Defined.

(** Without a handler the failure of the socket is what the drain
    returns, and the failed transfer is gone all the same. *)
Example drain_returns_send_failure :
  runSingleMediaTransmit broken_env (make_transport 1) example_media (mkTxSocket 0) 5 []
  = (mkMedia 0 [fragment_b] None (Some (mkTxSocket 0)),
     [EvTransientError (mkReport MediaTxSocketSend (PlatformError 5) 0)
        (Some (PlatformError 5));
      EvTxFree 0 fragment_a2; EvTxFree 0 fragment_a1;
      EvSend 0 10 fragment_a1 (SendFailure (PlatformError 5))],
     Some (PlatformError 5)).
Proof. reflexivity. Qed.

Lemma node_id_policy_witness :
  getLocalNodeId (setLocalNodeId example_endpoint (make_transport 1) 42).1 = Some 42 ∧
  setLocalNodeId example_endpoint
    (setLocalNodeId example_endpoint (make_transport 1) 42).1 7
  = ((setLocalNodeId example_endpoint (make_transport 1) 42).1, Some ArgumentError) ∧
  setLocalNodeId example_endpoint
    (setLocalNodeId example_endpoint (make_transport 1) 42).1 42
  = ((setLocalNodeId example_endpoint (make_transport 1) 42).1, None).
Proof.
  destruct (node_id_policy friendly_env example_endpoint example_failure_of_result)
    as (_ & _ & Hsame & Hother & Hfirst).
  destruct (Hfirst (make_transport 1) 42 eq_refl ltac:(by vm_compute)) as (_ & Hget & _).
  split_and!; [done | by apply (Hother _ 42) | by apply Hsame].
Defined.

(** [run] before and after the node id is set, on friendly media: one
    [makeRxSocket], in the first [run] after the id is set, at the
    endpoint derived from it. *)
Example rx_socket_made_once :
  trace (exec friendly_env example_endpoint example_failure_of_result
           [OpRun 0; OpSetLocalNodeId 42; OpRun 1; OpRun 2] (initial 1)).1
  = [EvReceive 0 (ReceiveSuccess None);
     EvReceive 0 (ReceiveSuccess None);
     EvMakeRxSocket 0 (example_endpoint 42) (MakeRxSocketSuccess (Some (mkRxSocket 0)));
     EvMakeTxSocket 0 (MakeTxSocketSuccess (Some (mkTxSocket 0)))].
Proof. by vm_compute. Qed.


(** The claim of C5 fails for a request session made while the node was
    anonymous: once the node id is set, making the session again first
    tries to make the RX socket, and the failure of that is what the
    factory returns, not the duplicate error. *)
Lemma duplicate_request_other_failure :
  let s := (exec no_rx_socket_env example_endpoint example_failure_of_result
              [OpMakeRxSession RequestRx 430; OpSetLocalNodeId 42] (initial 1)).1 in
  live_rx s = [mkRxSession RequestRx 430] ∧
  (step no_rx_socket_env example_endpoint example_failure_of_result
        (OpMakeRxSession RequestRx 430) s).2 = Some (PlatformError 5) ∧
  PlatformError 5 ≠ AlreadyExistsError.
Proof. by vm_compute. Qed.

Lemma rx_session_uniqueness_witness :
  let this := set_tree RequestRx (make_transport 1) [430] in
  makeAnyRxSession friendly_env this RequestRx 430 [] = (this, [], inl AlreadyExistsError) ∧
  430 ∉ tree_of RequestRx (onSessionEvent this (RequestDestroyed 430)).
Proof.
  destruct (rx_session_uniqueness friendly_env example_endpoint
              example_failure_of_result) as (_ & Hdup & _ & _ & Hdestroyed).
  split.
  - apply Hdup. by left.
  - apply (Hdestroyed (set_tree RequestRx (make_transport 1) [430]) RequestRx 430).
    simpl. apply NoDup_singleton.
Defined.

(** The claim of C10 fails when the handler swallows the failure to make
    a TX socket: the TX session is created although the medium holds no
    TX socket. *)
Lemma tx_session_without_tx_socket :
  let this := setTransientErrorHandler (make_transport 1) (Some swallow_all) in
  let res := makeMessageTxSession no_tx_socket_env this 7509 [] in
  res.2 = inr (mkTxSession MessageTx 7509) ∧
  tx_socket_ptr_ <$> media_array_ res.1.1 = [None].
Proof. by vm_compute. Qed.

(** With a handler that swallows everything and media that cannot make a
    TX socket, neither medium stops the factory: [makeTxSocket] is tried
    for both and the session is made. *)
Lemma tx_session_after_tx_sockets_witness :
  let this := setTransientErrorHandler (make_transport 2) (Some swallow_all) in
  (∀ report f,
     EvTransientError report (Some f) ∉ (ensureMediaTxSockets no_tx_socket_env this []).1.2) ∧
  (ensureMediaTxSockets no_tx_socket_env this []).2 = None ∧
  (makeAnyTxSession no_tx_socket_env this MessageTx 7509 []).2
  = inr (mkTxSession MessageTx 7509) ∧
  tx_socket_ptr_ <$> media_array_ (makeAnyTxSession no_tx_socket_env this MessageTx 7509 []).1.1
  = [None; None].
Proof.
  intros this.
  assert (Hquiet : ∀ report f,
    EvTransientError report (Some f)
    ∉ (ensureMediaTxSockets no_tx_socket_env this []).1.2).
  { intros report f Hin. vm_compute in Hin.
    repeat (apply elem_of_cons in Hin as [[=]|Hin]). by apply elem_of_nil in Hin. }
  split; [done|].
  destruct (tx_session_after_tx_sockets no_tx_socket_env example_failure_of_result
              this MessageTx 7509 []) as (_ & new & Hext & _ & _ & _ & _ & Hgo).
  rewrite app_nil_r in Hext. subst new.
  destruct (Hgo Hquiet) as (Hnone & Hall & Hres).
  split_and!; [done | by rewrite Hres |].
  apply Forall2_length in Hall as Hlen.
  destruct (media_array_ (makeAnyTxSession no_tx_socket_env this MessageTx 7509 []).1.1)
    as [|m0 [|m1 [|m2 ms]]]; try done.
  apply Forall2_cons in Hall as [H0 Hall]. apply Forall2_cons in Hall as [H1 _].
  destruct H0 as [(sock & Hin & _)|(_ & _ & ->)]; [|destruct H1 as [(sock & Hin & _)|(_ & _ & ->)]];
    [| |done]; exfalso; vm_compute in Hin;
    repeat (apply elem_of_cons in Hin as [[=]|Hin]); by apply elem_of_nil in Hin.
Defined.

(** Without a handler the same factory call returns the failure and
    makes no session. *)
Example tx_session_refused :
  makeMessageTxSession no_tx_socket_env (make_transport 1) 7509 []
  = (make_transport 1,
     [EvTransientError (mkReport MediaMakeTxSocket (PlatformError 5) 0)
        (Some (PlatformError 5));
      EvMakeTxSocket 0 (MakeTxSocketFailure (PlatformError 5))],
     inl (PlatformError 5)).
Proof. reflexivity. Qed.

(** A frame whose [deadline_usec] is [2^63] has, as a time point, a
    deadline long past: the drain drops it without sending it. *)
Example deadline_beyond_the_clock_dropped :
  let item := mkTxItem (2 ^ 63) 4 1 (mkIpEndpoint 0xEF000000 9382) 0 [1; 2] in
  runSingleMediaTransmit friendly_env (make_transport 1)
    (mkMedia 0 [item] None (Some (mkTxSocket 0))) (mkTxSocket 0) 5 []
  = (mkMedia 0 [] None (Some (mkTxSocket 0)), [EvTxFree 0 item], None).
Proof. reflexivity. Qed.

(** A transfer sent with an expired deadline is dropped by the next
    [run] without reaching the socket, and the queue is empty
    afterwards. *)
Example stale_transfer_never_sent :
  let s := (exec friendly_env example_endpoint example_failure_of_result
              [OpSend (Publish 10 4 7509 1) [[1; 2; 3]]; OpRun 20] (initial 1)).1 in
  udpard_tx_ <$> media_array_ (transport s) = [[]] ∧
  trace s
  = [EvTxFree 0 (mkTxItem 10 4 1 (mkIpEndpoint 0xEF000000 9382) 0 [1; 2; 3]);
     EvTxPush 0 (Publish 10 4 7509 1) 1;
     EvMakeTxSocket 0 (MakeTxSocketSuccess (Some (mkTxSocket 0)));
     EvContiguousPayload true].
Proof. by vm_compute. Qed.

(** ** Further properties of the transport *)

Section Footprint.

Variable env : Env.
Variable endpoint_of_node_id : NodeId → IpEndpoint.
Variable optAnyFailureFromUdpard : Z → option AnyFailure.

Lemma emits_app P tr new : Forall P new → emits P tr (new ++ tr).
Proof. intros Hnew. by exists new. Qed.

Lemma tryHandleTransientMediaError_emits_kind P this kind media error tr :
  (∀ verdict, P (EvTransientError (mkReport kind error (index_ media)) verdict)) →
  emits P tr (tryHandleTransientMediaError this kind media error tr).1.
Proof.
  intros HP. unfold tryHandleTransientMediaError.
  destruct (transient_error_handler_ this); simpl; by apply emits_cons.
Qed.

Lemma tryHandleTransientUdpardResult_emits_kind P this kind media result tr :
  (∀ error verdict, P (EvTransientError (mkReport kind error (index_ media)) verdict)) →
  emits P tr (tryHandleTransientUdpardResult optAnyFailureFromUdpard this kind media
                result tr).1.
Proof.
  intros HP. unfold tryHandleTransientUdpardResult.
  destruct (optAnyFailureFromUdpard result); [|by apply emits_refl].
  destruct (transient_error_handler_ this); simpl; by apply emits_cons.
Qed.

Lemma withEnsureMediaTxSocket_emits_kind P this action media tr :
  (∀ result, P (EvMakeTxSocket (index_ media) result)) →
  (∀ error verdict,
     P (EvTransientError (mkReport MediaMakeTxSocket error (index_ media)) verdict)) →
  (∀ sock tr0, emits P tr0 (action media sock tr0).1.2) →
  (∀ sock tr0, emits P tr0 (action (set_tx_socket_ptr media (Some sock)) sock tr0).1.2) →
  emits P tr (withEnsureMediaTxSocket env this media action tr).1.2.
Proof.
  intros Hmake Herr Hact Hact'. unfold withEnsureMediaTxSocket.
  destruct (tx_socket_ptr_ media) as [sock|]; [by apply Hact|].
  destruct (env_makeTxSocket env tr (index_ media)) as [[sock|]|failure] eqn:Hres.
  - eapply emits_trans; [|by apply Hact']. by apply emits_cons.
  - destruct (tryHandleTransientMediaError this MediaMakeTxSocket media MemoryError _)
      as [tr2 r] eqn:Hh. simpl.
    eapply emits_trans; [by apply emits_cons|].
    pose proof (tryHandleTransientMediaError_emits_kind P this MediaMakeTxSocket media
                  MemoryError
                  (EvMakeTxSocket (index_ media) (MakeTxSocketSuccess None) :: tr)
                  (Herr _)) as He.
    by rewrite Hh in He.
  - destruct (tryHandleTransientMediaError this MediaMakeTxSocket media failure _)
      as [tr2 r] eqn:Hh. simpl.
    eapply emits_trans; [by apply emits_cons|].
    pose proof (tryHandleTransientMediaError_emits_kind P this MediaMakeTxSocket media
                  failure
                  (EvMakeTxSocket (index_ media) (MakeTxSocketFailure failure) :: tr)
                  (Herr _)) as He.
    by rewrite Hh in He.
Qed.

Lemma withEnsureMediaRxSocket_emits_kind P this action media tr :
  (∀ endpoint result, P (EvMakeRxSocket (index_ media) endpoint result)) →
  (∀ error verdict,
     P (EvTransientError (mkReport MediaMakeRxSocket error (index_ media)) verdict)) →
  (∀ sock tr0, emits P tr0 (action media sock tr0).1.2) →
  (∀ sock tr0, emits P tr0 (action (set_rx_socket_ptr media (Some sock)) sock tr0).1.2) →
  emits P tr (withEnsureMediaRxSocket env this media action tr).1.2.
Proof.
  intros Hmake Herr Hact Hact'. unfold withEnsureMediaRxSocket.
  destruct (rx_socket_ptr_ media) as [sock|]; [by apply Hact|].
  destruct (svc_rx_sockets_endpoint_ this) as [endpoint|]; [|by apply emits_refl].
  destruct (env_makeRxSocket env tr (index_ media) endpoint) as [[sock|]|failure] eqn:Hres.
  - eapply emits_trans; [|by apply Hact']. by apply emits_cons.
  - destruct (tryHandleTransientMediaError this MediaMakeRxSocket media MemoryError _)
      as [tr2 r] eqn:Hh. simpl.
    eapply emits_trans; [by apply emits_cons|].
    pose proof (tryHandleTransientMediaError_emits_kind P this MediaMakeRxSocket media
                  MemoryError
                  (EvMakeRxSocket (index_ media) endpoint (MakeRxSocketSuccess None) :: tr)
                  (Herr _)) as He.
    by rewrite Hh in He.
  - destruct (tryHandleTransientMediaError this MediaMakeRxSocket media failure _)
      as [tr2 r] eqn:Hh. simpl.
    eapply emits_trans; [by apply emits_cons|].
    pose proof (tryHandleTransientMediaError_emits_kind P this MediaMakeRxSocket media
                  failure
                  (EvMakeRxSocket (index_ media) endpoint (MakeRxSocketFailure failure)
                     :: tr)
                  (Herr _)) as He.
    by rewrite Hh in He.
Qed.

Lemma for_each_media_emits_at (Q : Media → Event → Prop) step medias tr :
  (∀ m tr0, emits (Q m) tr0 (step m tr0).1.2) →
  emits (at_some_media Q medias) tr (for_each_media step medias tr).1.2.
Proof.
  intros Hstep. revert tr. induction medias as [|m rest IH]; intros tr; simpl.
  { apply emits_refl. }
  pose proof (Hstep m tr) as Hm.
  destruct (step m tr) as [[m1 tr1] [f|]] eqn:Hs; simpl in *.
  - eapply emits_mono; [|exact Hm]. intros e He. exists m. split; [by left | done].
  - pose proof (IH tr1) as Hrest.
    destruct (for_each_media step rest tr1) as [[rest1 tr2] r] eqn:Hr. simpl in *.
    eapply emits_trans.
    + eapply emits_mono; [|exact Hm]. intros e He. exists m. split; [by left | done].
    + eapply emits_mono; [|exact Hrest]. intros e (m' & Hin & He).
      exists m'. split; [by right | done].
Qed.

Lemma runSingleMediaTransmit_emits this media tx_socket now tr :
  emits (tx_run_event now media) tr
        (runSingleMediaTransmit env this media tx_socket now tr).1.2.
Proof.
  destruct (drain_events env this tx_socket now media tr _
              (runSingleMediaTransmit_drain env this media tx_socket now tr))
    as (new & Hnew & Hall).
  exists new. split; [done|]. eapply Forall_impl; [exact Hall|].
  intros [] He; simpl in *; try done.
  - destruct He as (? & ? & ? & ?). split_and!; [done..|lia].
  - destruct He as [? ?]. split; [done | by right].
Qed.

Lemma runMediaTransmit_emits this now tr :
  emits (at_some_media (tx_run_event now) (media_array_ this)) tr
        (runMediaTransmit env this now tr).1.2.
Proof.
  unfold runMediaTransmit.
  pose proof (for_each_media_emits_at (tx_run_event now)
    (λ some_media,
       withEnsureMediaTxSocket env this some_media
         (λ media tx_socket, runSingleMediaTransmit env this media tx_socket now))
    (media_array_ this) tr) as He.
  destruct (for_each_media _ _ _) as [[ms tr1] r]. simpl in *. apply He.
  intros m tr0. apply withEnsureMediaTxSocket_emits_kind.
  - done.
  - intros error verdict. split; [done | by left].
  - intros sock tr1'. apply runSingleMediaTransmit_emits.
  - intros sock tr1'.
    apply (runSingleMediaTransmit_emits this (set_tx_socket_ptr m (Some sock))).
Qed.

Lemma runSingleMediaReceive_emits this media rx_socket tr :
  emits (rx_run_event media) tr
        (runSingleMediaReceive env optAnyFailureFromUdpard this media rx_socket tr).1.2.
Proof.
  unfold runSingleMediaReceive.
  destruct (env_receive env tr (index_ media) rx_socket) as [[rx_meta|]|failure] eqn:Hrecv.
  - destruct (env_udpardRxRPCDispatcherReceive env _ (index_ media) rx_meta)
      as [result out_port] eqn:Hdisp.
    destruct (tryHandleTransientUdpardResult optAnyFailureFromUdpard this
                UdpardRxSvcReceive media result _) as [tr3 failure] eqn:Hh.
    pose proof (tryHandleTransientUdpardResult_emits_kind (rx_run_event media) this
                  UdpardRxSvcReceive media result
                  (EvRpcDispatch (index_ media) result
                     :: EvReceive (index_ media) (ReceiveSuccess (Some rx_meta)) :: tr))
      as He.
    rewrite Hh in He. simpl in He.
    assert (Htr3 : emits (rx_run_event media) tr tr3).
    { eapply emits_trans; [|apply He; intros error verdict; split; [done | by right; right]].
      eapply emits_trans; [|by apply emits_cons]. by apply emits_cons. }
    destruct failure as [f|]; simpl; [done|].
    case_decide; simpl; [|done].
    eapply emits_trans; [exact Htr3|]. by apply emits_cons.
  - by apply emits_cons.
  - destruct (tryHandleTransientMediaError this MediaRxSocketReceive media failure _)
      as [tr2 r] eqn:Hh. simpl.
    pose proof (tryHandleTransientMediaError_emits_kind (rx_run_event media) this
                  MediaRxSocketReceive media failure
                  (EvReceive (index_ media) (ReceiveFailure failure) :: tr)) as He.
    rewrite Hh in He.
    eapply emits_trans; [|apply He; intros verdict; split; [done | by right; left]].
    by apply emits_cons.
Qed.

Lemma runMediaReceive_emits this tr :
  emits (at_some_media rx_run_event (media_array_ this)) tr
        (runMediaReceive env optAnyFailureFromUdpard this tr).1.2.
Proof.
  unfold runMediaReceive.
  pose proof (for_each_media_emits_at rx_run_event
    (λ some_media,
       withEnsureMediaRxSocket env this some_media
         (λ media rx_socket,
            runSingleMediaReceive env optAnyFailureFromUdpard this media rx_socket))
    (media_array_ this) tr) as He.
  destruct (for_each_media _ _ _) as [[ms tr1] r]. simpl in *. apply He.
  intros m tr0. apply withEnsureMediaRxSocket_emits_kind.
  - done.
  - intros error verdict. split; [done | by left].
  - intros sock tr1'. apply runSingleMediaReceive_emits.
  - intros sock tr1'.
    apply (runSingleMediaReceive_emits this (set_rx_socket_ptr m (Some sock))).
Qed.

Lemma TxTransferHandler_emits this tx_metadata payload media sock tr :
  emits (enqueue_event tx_metadata) tr
        (TxTransferHandler env optAnyFailureFromUdpard this tx_metadata payload
           media sock tr).1.2.
Proof.
  unfold TxTransferHandler.
  destruct (env_udpardTx env tr (index_ media) tx_metadata payload) as [result datagrams].
  set (media1 := if decide (result > 0) then _ else _).
  pose proof (tryHandleTransientUdpardResult_emits_kind (enqueue_event tx_metadata)
                this (report_kind_of tx_metadata) media1
                result (EvTxPush (index_ media) tx_metadata result :: tr)) as He.
  destruct (tryHandleTransientUdpardResult _ _ _ _ _ _) as [tr2 r]. simpl in *.
  eapply emits_trans; [|apply He; intros error verdict; by right].
  by apply emits_cons.
Qed.

Lemma sendAnyTransfer_emits this tx_metadata payload_fragments tr :
  emits (enqueue_event tx_metadata) tr
        (sendAnyTransfer env optAnyFailureFromUdpard this tx_metadata payload_fragments
           tr).1.2.
Proof.
  unfold sendAnyTransfer.
  destruct (env_contiguousPayload env tr payload_fragments) as [payload|];
    [|by apply emits_cons].
  pose proof (for_each_media_emits (enqueue_event tx_metadata)
    (λ some_media,
       withEnsureMediaTxSocket env this some_media
         (TxTransferHandler env optAnyFailureFromUdpard this tx_metadata payload))
    (media_array_ this) (EvContiguousPayload true :: tr)) as He.
  destruct (for_each_media _ _ _) as [[ms tr1] r]. simpl in *.
  eapply emits_trans; [by apply (emits_cons _ _ (EvContiguousPayload true))|].
  apply He. intros m tr0. apply withEnsureMediaTxSocket_emits_kind.
  - done.
  - intros error verdict. by left.
  - intros sock tr1'. apply TxTransferHandler_emits.
  - intros sock tr1'. apply TxTransferHandler_emits.
Qed.

(** [run(now)] hands a socket only frames that were waiting in the TX
    queue of that socket's medium when the call began, each with its own
    deadline (its [deadline_usec] as a time point) and strictly before
    it: a frame whose deadline has come is never sent. *)
Theorem run_sends_only_live_queued_frames this now tr :
  ∃ new,
    (run env optAnyFailureFromUdpard this now tr).1.2 = new ++ tr ∧
    ∀ i deadline item result,
      EvSend i deadline item result ∈ new →
      deadline = TimePoint_of_usec (deadline_usec item) ∧ now < deadline ∧
      now < deadline_usec item ∧
      ∃ media, media ∈ media_array_ this ∧ index_ media = i ∧ item ∈ udpard_tx_ media.
Proof.
  unfold run.
  destruct (runMediaTransmit_emits this now tr) as (new_tx & Htx & Hall_tx).
  destruct (runMediaTransmit env this now tr) as [[this1 tr1] failure] eqn:Ht.
  simpl in Htx. subst tr1.
  assert (Hsend : ∀ i deadline item result,
    EvSend i deadline item result ∈ new_tx →
    deadline = TimePoint_of_usec (deadline_usec item) ∧ now < deadline ∧
    now < deadline_usec item ∧
    ∃ media, media ∈ media_array_ this ∧ index_ media = i ∧ item ∈ udpard_tx_ media).
  { intros i deadline item result Hin.
    rewrite Forall_forall in Hall_tx.
    destruct (Hall_tx _ Hin) as (media & Hm & Hi & Hq & Hd & Hnow).
    split_and!; [done | done | | by exists media].
    pose proof (TimePoint_of_usec_le (deadline_usec item)). lia. }
  destruct failure as [f|]; simpl; [by exists new_tx|].
  destruct (runMediaReceive_emits this1 (new_tx ++ tr)) as (new_rx & Hrx & Hall_rx).
  exists (new_rx ++ new_tx). split; [by rewrite Hrx, app_assoc|].
  intros i deadline item result [Hin|Hin]%elem_of_app; [|by apply (Hsend _ _ _ result)].
  rewrite Forall_forall in Hall_rx. destruct (Hall_rx _ Hin) as (media & _ & He).
  by simpl in He.
Qed.

(** [run] transmits first and receives afterwards: whatever it does on
    the TX side (making TX sockets, sending, freeing, the transient
    errors of these) comes before anything it does on the RX side; and
    when the TX half ends in a failure that failure is the result of
    [run] and the RX half does not take place. *)
Theorem run_transmits_then_receives this now tr :
  ∃ new_tx new_rx,
    (runMediaTransmit env this now tr).1.2 = new_tx ++ tr ∧
    (run env optAnyFailureFromUdpard this now tr).1.2 = new_rx ++ new_tx ++ tr ∧
    Forall tx_side new_tx ∧ Forall rx_side new_rx ∧
    (∀ f, (runMediaTransmit env this now tr).2 = Some f →
          (run env optAnyFailureFromUdpard this now tr).2 = Some f ∧ new_rx = []) ∧
    ((runMediaTransmit env this now tr).2 = None →
     run env optAnyFailureFromUdpard this now tr
     = runMediaReceive env optAnyFailureFromUdpard
         (runMediaTransmit env this now tr).1.1 (new_tx ++ tr)).
Proof.
  unfold run.
  destruct (runMediaTransmit_emits this now tr) as (new_tx & Htx & Hall_tx).
  destruct (runMediaTransmit env this now tr) as [[this1 tr1] failure] eqn:Ht.
  simpl in Htx. subst tr1.
  assert (Htx_side : Forall tx_side new_tx).
  { eapply Forall_impl; [exact Hall_tx|]. intros [] (media & _ & He); simpl in *; try done.
    by destruct He. }
  destruct failure as [f|]; simpl.
  { exists new_tx, []. by split_and!. }
  destruct (runMediaReceive_emits this1 (new_tx ++ tr)) as (new_rx & Hrx & Hall_rx).
  exists new_tx, new_rx. split_and!; try done.
  eapply Forall_impl; [exact Hall_rx|]. intros [] (media & _ & He); simpl in *; try done.
  by destruct He.
Qed.

(** Sending only enqueues: [sendAnyTransfer] flattens the payload, makes
    TX sockets where they are missing and pushes the transfer to the
    framer, medium by medium, but hands no frame to a socket and receives
    nothing; frames leave in [run]. *)
Theorem send_only_enqueues this tx_metadata payload_fragments tr :
  ∃ new,
    (sendAnyTransfer env optAnyFailureFromUdpard this tx_metadata payload_fragments
       tr).1.2 = new ++ tr ∧
    Forall (enqueue_event tx_metadata) new ∧
    (∀ i deadline item result, EvSend i deadline item result ∉ new) ∧
    (∀ i item, EvTxFree i item ∉ new) ∧
    (∀ e, e ∈ new → ¬ rx_side e).
Proof.
  destruct (sendAnyTransfer_emits this tx_metadata payload_fragments tr)
    as (new & Hnew & Hall).
  exists new. split; [done|]. split; [done|]. rewrite Forall_forall in Hall.
  split_and!.
  - intros i deadline item result Hin. by apply Hall in Hin.
  - intros i item Hin. by apply Hall in Hin.
  - intros e Hin Hrx. apply Hall in Hin. destruct e; simpl in *; try done.
    destruct Hin as [Hk|Hk]; rewrite Hk in Hrx;
      destruct tx_metadata; simpl in Hrx; intuition discriminate.
Qed.

Lemma sent_and_freed_cons i item q :
  sent_and_freed i (item :: q)
  = sent_and_freed i q ++ [EvTxFree i item;
                           EvSend i (TimePoint_of_usec (deadline_usec item)) item (SendSuccess true)].
Proof.
  unfold sent_and_freed. by rewrite reverse_cons, fmap_app, concat_app.
Qed.

Lemma runSingleMediaTransmit_loop_all_accepted this fuel media tx_socket now tr :
  (∀ tr' item, item ∈ udpard_tx_ media →
     env_send env tr' (index_ media) tx_socket (TimePoint_of_usec (deadline_usec item)) item
     = SendSuccess true) →
  Forall (λ item, now < TimePoint_of_usec (deadline_usec item)) (udpard_tx_ media) →
  (length (udpard_tx_ media) ≤ fuel)%nat →
  runSingleMediaTransmit_loop env fuel this media tx_socket now tr
  = (set_udpard_tx media [], sent_and_freed (index_ media) (udpard_tx_ media) ++ tr, None).
Proof.
  revert media tr. induction fuel as [|fuel IH]; intros media tr Hacc Hlive Hfuel.
  { destruct media as [i q rx tx]. simpl in *. destruct q; [done | simpl in Hfuel; lia]. }
  destruct media as [i q rx tx]. simpl in *. destruct q as [|item q]; [done|].
  simpl. apply Forall_cons in Hlive as [Hitem Hlive].
  rewrite decide_False by lia.
  rewrite Hacc by by left. simpl.
  rewrite (IH (mkMedia i q rx tx)); simpl.
  - rewrite sent_and_freed_cons. by rewrite <- app_assoc.
  - intros tr' item' Hin. apply Hacc. by right.
  - done.
  - simpl in Hfuel. lia.
Qed.

(** A socket that accepts every frame empties the queue: when no queued
    frame has reached its deadline ([now] is before the [deadline_usec] of
    each, read as a time point the way the drain reads it) and the socket
    takes whatever it is given, the drain sends every queued frame, once
    and in queue order, releases each one right after sending it, leaves
    the queue empty and reports no failure. *)
Theorem drain_sends_whole_queue this media tx_socket now tr :
  (∀ tr' item, item ∈ udpard_tx_ media →
     env_send env tr' (index_ media) tx_socket (TimePoint_of_usec (deadline_usec item)) item
     = SendSuccess true) →
  Forall (λ item, now < TimePoint_of_usec (deadline_usec item)) (udpard_tx_ media) →
  runSingleMediaTransmit env this media tx_socket now tr
  = (set_udpard_tx media [], sent_and_freed (index_ media) (udpard_tx_ media) ++ tr, None).
Proof.
  intros Hacc Hlive. unfold runSingleMediaTransmit.
  by apply runSingleMediaTransmit_loop_all_accepted.
Qed.

(** *** TX sockets are made once *)

Lemma tx_sockets_created_app i new tr :
  tx_sockets_created i (new ++ tr)
  = (tx_sockets_created i new + tx_sockets_created i tr)%nat.
Proof. induction new as [|e new IH]; simpl; [done | lia]. Qed.

Lemma tx_sockets_created_neutral i tr tr' :
  emits not_make_tx_socket tr tr' → tx_sockets_created i tr' = tx_sockets_created i tr.
Proof.
  intros (new & -> & Hnew). rewrite tx_sockets_created_app.
  assert (tx_sockets_created i new = 0%nat) as ->; [|done].
  induction Hnew as [|e new He _ IH]; simpl; [done|].
  rewrite IH. by destruct e.
Qed.

Lemma tx_socket_holders_app i ms1 ms2 :
  tx_socket_holders i (ms1 ++ ms2)
  = (tx_socket_holders i ms1 + tx_socket_holders i ms2)%nat.
Proof. induction ms1 as [|m ms1 IH]; simpl; [done | lia]. Qed.

Lemma tx_socket_holders_absent i ms :
  i ∉ index_ <$> ms → tx_socket_holders i ms = 0%nat.
Proof.
  induction ms as [|m ms IH]; simpl; [done|].
  intros Hi. apply not_elem_of_cons in Hi as [Hne Hi]. rewrite (IH Hi).
  unfold holds_tx_socket. by rewrite bool_decide_false.
Qed.

Lemma tx_socket_holders_le_1 i ms :
  NoDup (index_ <$> ms) → (tx_socket_holders i ms ≤ 1)%nat.
Proof.
  induction ms as [|m ms IH]; simpl; [lia|].
  intros [Hm Hms]%NoDup_cons. specialize (IH Hms).
  unfold holds_tx_socket. destruct (bool_decide (index_ m = i)) eqn:Hi; simpl; [|lia].
  apply bool_decide_eq_true in Hi. subst i.
  rewrite (tx_socket_holders_absent _ _ Hm). destruct (bool_decide _); lia.
Qed.

Lemma tx_socket_holders_member i m ms :
  NoDup (index_ <$> ms) → m ∈ ms → index_ m = i →
  tx_socket_holders i ms = if bool_decide (is_Some (tx_socket_ptr_ m)) then 1%nat else 0%nat.
Proof.
  intros Hnd Hm Hi. apply list_elem_of_split in Hm as (ms1 & ms2 & ->).
  rewrite fmap_app, fmap_cons in Hnd.
  apply NoDup_app in Hnd as (_ & Hdisj & [H2 _]%NoDup_cons).
  rewrite tx_socket_holders_app. simpl.
  rewrite (tx_socket_holders_absent i ms1), (tx_socket_holders_absent i ms2).
  - unfold holds_tx_socket. rewrite bool_decide_true by done. simpl. lia.
  - by subst i.
  - intros Hin. apply (Hdisj _ Hin). subst i. by left.
Qed.

Lemma no_action_tx_neutral {S : Type} : tx_neutral (@no_action S).
Proof. intros media sock tr. split_and!; [done | done | apply emits_refl]. Qed.

Lemma runSingleMediaTransmit_tx_neutral this now :
  tx_neutral (λ media tx_socket, runSingleMediaTransmit env this media tx_socket now).
Proof.
  intros media tx_socket tr.
  pose proof (runSingleMediaTransmit_drain env this media tx_socket now tr) as Hd.
  destruct (drain_state _ _ _ _ _ _ _ Hd) as (Hi & Ht & _ & _).
  split_and!; [done | done |].
  eapply emits_mono; [|by eapply drain_events]. by intros [].
Qed.

Lemma TxTransferHandler_tx_neutral this tx_metadata payload :
  tx_neutral (TxTransferHandler env optAnyFailureFromUdpard this tx_metadata payload).
Proof.
  intros media tx_socket tr. unfold TxTransferHandler.
  destruct (env_udpardTx env tr (index_ media) tx_metadata payload)
    as [result datagrams].
  set (media1 := if decide (result > 0) then _ else _).
  assert (Hm : index_ media1 = index_ media ∧
               tx_socket_ptr_ media1 = tx_socket_ptr_ media)
    by (subst media1; by case_decide).
  pose proof (tryHandleTransientUdpardResult_emits optAnyFailureFromUdpard
                not_make_tx_socket this
                (report_kind_of tx_metadata) media1 result
                (EvTxPush (index_ media) tx_metadata result :: tr)) as He.
  destruct (tryHandleTransientUdpardResult _ _ _ _ _ _) as [tr2 r]; simpl in *.
  split_and!; [apply Hm | apply Hm |].
  eapply emits_trans; [|by apply He]. by apply emits_cons.
Qed.

Lemma runSingleMediaReceive_tx_neutral this :
  tx_neutral (runSingleMediaReceive env optAnyFailureFromUdpard this).
Proof.
  intros media rx_socket tr.
  destruct (runSingleMediaReceive_trace env optAnyFailureFromUdpard this media rx_socket tr)
    as [Hm _].
  rewrite Hm. split_and!; [done..|].
  eapply emits_mono; [|apply runSingleMediaReceive_emits]. by intros [].
Qed.

(** A step that is neutral in the above sense is a fine TX-side step. *)
Lemma tx_step_ok_neutral step :
  (∀ media tr,
     index_ (step media tr).1.1 = index_ media ∧
     tx_socket_ptr_ (step media tr).1.1 = tx_socket_ptr_ media ∧
     emits not_make_tx_socket tr (step media tr).1.2) →
  tx_step_ok step.
Proof.
  intros H media tr. destruct (H media tr) as (Hi & Hr & He). split; [done|].
  intros i. rewrite (tx_sockets_created_neutral i _ _ He). simpl.
  unfold holds_tx_socket. by rewrite Hi, Hr.
Qed.

Lemma withEnsureMediaRxSocket_tx_ok this action :
  tx_neutral action →
  tx_step_ok (λ media, withEnsureMediaRxSocket env this media action).
Proof.
  intros Ha. apply tx_step_ok_neutral. intros media tr.
  unfold withEnsureMediaRxSocket.
  destruct (rx_socket_ptr_ media) as [rx_socket|]; [apply Ha|].
  destruct (svc_rx_sockets_endpoint_ this) as [endpoint|];
    [|split_and!; [done | done | apply emits_refl]].
  destruct (env_makeRxSocket env tr (index_ media) endpoint) as [[rx_socket|]|f].
  - destruct (Ha (set_rx_socket_ptr media (Some rx_socket)) rx_socket
                (EvMakeRxSocket (index_ media) endpoint
                   (MakeRxSocketSuccess (Some rx_socket)) :: tr)) as (Hi & Hr & He).
    split_and!; [done | done |].
    eapply emits_trans; [|done]. by apply emits_cons.
  - pose proof (tryHandleTransientMediaError_emits not_make_tx_socket this
                  MediaMakeRxSocket media MemoryError
                  (EvMakeRxSocket (index_ media) endpoint (MakeRxSocketSuccess None)
                     :: tr)) as He.
    destruct (tryHandleTransientMediaError _ _ _ _ _) as [tr2 r]; simpl in *.
    split_and!; [done..|]. eapply emits_trans; [|by apply He]. by apply emits_cons.
  - pose proof (tryHandleTransientMediaError_emits not_make_tx_socket this
                  MediaMakeRxSocket media f
                  (EvMakeRxSocket (index_ media) endpoint (MakeRxSocketFailure f)
                     :: tr)) as He.
    destruct (tryHandleTransientMediaError _ _ _ _ _) as [tr2 r]; simpl in *.
    split_and!; [done..|]. eapply emits_trans; [|by apply He]. by apply emits_cons.
Qed.

Lemma withEnsureMediaTxSocket_tx_ok this action :
  tx_neutral action →
  tx_step_ok (λ media, withEnsureMediaTxSocket env this media action).
Proof.
  intros Ha media tr. unfold withEnsureMediaTxSocket.
  destruct (tx_socket_ptr_ media) as [tx_socket|] eqn:Htx.
  { destruct (Ha media tx_socket tr) as (Hi & Hr & He). split; [done|].
    intros i. rewrite (tx_sockets_created_neutral i _ _ He). simpl.
    unfold holds_tx_socket. by rewrite Hi, Hr. }
  destruct (env_makeTxSocket env tr (index_ media)) as [[tx_socket|]|f].
  - set (e := EvMakeTxSocket _ _).
    destruct (Ha (set_tx_socket_ptr media (Some tx_socket)) tx_socket (e :: tr))
      as (Hi & Hr & He).
    split; [done|].
    intros i. rewrite (tx_sockets_created_neutral i _ _ He). simpl.
    unfold holds_tx_socket. rewrite Hi, Hr, Htx. simpl.
    destruct (bool_decide (index_ media = i)); simpl; lia.
  - pose proof (tryHandleTransientMediaError_emits not_make_tx_socket this
                  MediaMakeTxSocket media MemoryError
                  (EvMakeTxSocket (index_ media) (MakeTxSocketSuccess None) :: tr)) as He.
    destruct (tryHandleTransientMediaError _ _ _ _ _) as [tr2 r]; simpl in *.
    specialize (He ltac:(done)). split; [done|].
    intros i. rewrite (tx_sockets_created_neutral i _ _ He). simpl. lia.
  - pose proof (tryHandleTransientMediaError_emits not_make_tx_socket this
                  MediaMakeTxSocket media f
                  (EvMakeTxSocket (index_ media) (MakeTxSocketFailure f) :: tr)) as He.
    destruct (tryHandleTransientMediaError _ _ _ _ _) as [tr2 r]; simpl in *.
    specialize (He ltac:(done)). split; [done|].
    intros i. rewrite (tx_sockets_created_neutral i _ _ He). simpl. lia.
Qed.

Lemma for_each_media_tx_ok step medias tr :
  tx_step_ok step →
  index_ <$> (for_each_media step medias tr).1.1 = index_ <$> medias ∧
  ∀ i, (tx_sockets_created i (for_each_media step medias tr).1.2
        + tx_socket_holders i medias
        = tx_sockets_created i tr
          + tx_socket_holders i (for_each_media step medias tr).1.1)%nat.
Proof.
  intros Hstep. revert tr. induction medias as [|media rest IH]; intros tr; simpl.
  { done. }
  destruct (Hstep media tr) as (Hi & Hb).
  destruct (step media tr) as [[media1 tr1] [f|]]; simpl in *.
  { split; [by rewrite Hi|]. intros i. specialize (Hb i). lia. }
  destruct (IH tr1) as (Hi' & Hb').
  destruct (for_each_media step rest tr1) as [[rest1 tr2] r]; simpl in *.
  split; [by f_equal|].
  intros i. specialize (Hb i). specialize (Hb' i). lia.
Qed.

Lemma tx_op_ok_refl this tr : tx_op_ok this tr this tr.
Proof. by split. Qed.

Lemma tx_op_ok_trans this tr this1 tr1 this2 tr2 :
  tx_op_ok this tr this1 tr1 → tx_op_ok this1 tr1 this2 tr2 →
  tx_op_ok this tr this2 tr2.
Proof.
  intros (Hi1 & Hb1) (Hi2 & Hb2). split; [congruence|].
  intros i. specialize (Hb1 i). specialize (Hb2 i). lia.
Qed.

Lemma tx_op_ok_cons this tr e : not_make_tx_socket e → tx_op_ok this tr this (e :: tr).
Proof. intros He. split; [done|]. intros i. simpl. by destruct e. Qed.

Lemma for_each_media_tx_op_ok this step tr :
  tx_step_ok step →
  tx_op_ok this tr
    (set_media_array this (for_each_media step (media_array_ this) tr).1.1)
    (for_each_media step (media_array_ this) tr).1.2.
Proof. intros Hstep. by apply for_each_media_tx_ok. Qed.

Lemma ensureMediaTxSockets_tx_op_ok this tr :
  tx_op_ok this tr (ensureMediaTxSockets env this tr).1.1
                   (ensureMediaTxSockets env this tr).1.2.
Proof.
  unfold ensureMediaTxSockets.
  pose proof (for_each_media_tx_op_ok this _ tr
                (withEnsureMediaTxSocket_tx_ok this _ no_action_tx_neutral)) as H.
  by destruct (for_each_media _ _ _) as [[ms tr1] r].
Qed.

Lemma ensureMediaRxSockets_tx_op_ok this tr :
  tx_op_ok this tr (ensureMediaRxSockets env this tr).1.1
                   (ensureMediaRxSockets env this tr).1.2.
Proof.
  unfold ensureMediaRxSockets.
  pose proof (for_each_media_tx_op_ok this _ tr
                (withEnsureMediaRxSocket_tx_ok this _ no_action_tx_neutral)) as H.
  by destruct (for_each_media _ _ _) as [[ms tr1] r].
Qed.

Lemma runMediaTransmit_tx_op_ok this now tr :
  tx_op_ok this tr (runMediaTransmit env this now tr).1.1
                   (runMediaTransmit env this now tr).1.2.
Proof.
  unfold runMediaTransmit.
  pose proof (for_each_media_tx_op_ok this _ tr
                (withEnsureMediaTxSocket_tx_ok this _
                   (runSingleMediaTransmit_tx_neutral this now))) as H.
  by destruct (for_each_media _ _ _) as [[ms tr1] r].
Qed.

Lemma runMediaReceive_tx_op_ok this tr :
  tx_op_ok this tr (runMediaReceive env optAnyFailureFromUdpard this tr).1.1
                   (runMediaReceive env optAnyFailureFromUdpard this tr).1.2.
Proof.
  unfold runMediaReceive.
  pose proof (for_each_media_tx_op_ok this _ tr
                (withEnsureMediaRxSocket_tx_ok this _
                   (runSingleMediaReceive_tx_neutral this))) as H.
  by destruct (for_each_media _ _ _) as [[ms tr1] r].
Qed.

Lemma run_tx_op_ok this now tr :
  tx_op_ok this tr (run env optAnyFailureFromUdpard this now tr).1.1
                   (run env optAnyFailureFromUdpard this now tr).1.2.
Proof.
  unfold run. pose proof (runMediaTransmit_tx_op_ok this now tr) as Htx.
  destruct (runMediaTransmit env this now tr) as [[this1 tr1] [f|]]; simpl in *; [done|].
  eapply tx_op_ok_trans; [done|]. apply runMediaReceive_tx_op_ok.
Qed.

Lemma sendAnyTransfer_tx_op_ok this tx_metadata payload_fragments tr :
  tx_op_ok this tr
    (sendAnyTransfer env optAnyFailureFromUdpard this tx_metadata payload_fragments tr).1.1
    (sendAnyTransfer env optAnyFailureFromUdpard this tx_metadata payload_fragments tr).1.2.
Proof.
  unfold sendAnyTransfer.
  destruct (env_contiguousPayload env tr payload_fragments) as [payload|];
    [|by apply tx_op_ok_cons].
  pose proof (for_each_media_tx_op_ok this _ (EvContiguousPayload true :: tr)
                (withEnsureMediaTxSocket_tx_ok this _
                   (TxTransferHandler_tx_neutral this tx_metadata payload))) as H.
  destruct (for_each_media _ _ _) as [[ms tr1] r]; simpl in *.
  eapply tx_op_ok_trans; [|done]. by apply tx_op_ok_cons.
Qed.

Lemma makeAnyTxSession_tx_op_ok this k port_id tr :
  tx_op_ok this tr (makeAnyTxSession env this k port_id tr).1.1
                   (makeAnyTxSession env this k port_id tr).1.2.
Proof.
  unfold makeAnyTxSession. pose proof (ensureMediaTxSockets_tx_op_ok this tr) as H.
  destruct (ensureMediaTxSockets env this tr) as [[this1 tr1] [f|]]; simpl in *; [done|].
  destruct (env_txSessionMake env tr1 k port_id); simpl;
    (eapply tx_op_ok_trans; [done|]; by apply tx_op_ok_cons).
Qed.

Lemma makeAnyRxSession_tx_op_ok this k port_id tr :
  tx_op_ok this tr (makeAnyRxSession env this k port_id tr).1.1
                   (makeAnyRxSession env this k port_id tr).1.2.
Proof.
  rewrite makeAnyRxSession_cases.
  case_decide; [apply tx_op_ok_refl|].
  destruct (env_nodeAlloc env tr k port_id); [|by apply tx_op_ok_cons].
  destruct (env_rxSessionMake env _ k port_id); simpl.
  - eapply tx_op_ok_trans; by apply tx_op_ok_cons.
  - eapply (tx_op_ok_trans _ _ (set_tree k this (port_id :: tree_of k this)) tr);
      [by destruct k|].
    eapply tx_op_ok_trans; by apply tx_op_ok_cons.
Qed.

Lemma makeRxSession_tx_op_ok this k port_id tr :
  tx_op_ok this tr (makeRxSession env this k port_id tr).1.1
                   (makeRxSession env this k port_id tr).1.2.
Proof.
  assert (Hsvc : ∀ k0,
    let res :=
      (let '(this1, tr1, failure) := ensureMediaRxSockets env this tr in
       match failure with
       | Some f => (this1, tr1, inl f)
       | None => makeAnyRxSession env this1 k0 port_id tr1
       end) in
    tx_op_ok this tr res.1.1 res.1.2).
  { intros k0. pose proof (ensureMediaRxSockets_tx_op_ok this tr) as H.
    destruct (ensureMediaRxSockets env this tr) as [[this1 tr1] [f|]]; simpl in *;
      [done|].
    eapply tx_op_ok_trans; [done|]. apply makeAnyRxSession_tx_op_ok. }
  destruct k; simpl.
  - apply makeAnyRxSession_tx_op_ok.
  - apply (Hsvc RequestRx).
  - apply (Hsvc ResponseRx).
Qed.

Lemma tx_invariant_op s this' tr' live_rx' live_tx' :
  tx_invariant s → tx_op_ok (transport s) (trace s) this' tr' →
  tx_invariant (mkSystem this' tr' live_rx' live_tx').
Proof.
  intros (Hnd & Hcount) (Hi & Hb). split; simpl.
  - by rewrite Hi.
  - intros i. specialize (Hb i). rewrite Hcount in Hb. lia.
Qed.

Lemma initial_tx_invariant media_count : tx_invariant (initial media_count).
Proof.
  split; simpl.
  - rewrite makeMediaArray_indices. apply NoDup_seq.
  - intros i. unfold makeMediaArray.
    assert (H : ∀ n start,
      tx_socket_holders i (map (λ j, mkMedia j [] None None) (seq start n)) = 0%nat).
    { induction n as [|n IH]; intros start; simpl; [done|].
      rewrite IH. unfold holds_tx_socket. simpl. by rewrite andb_false_r. }
    by rewrite H.
Qed.

Lemma step_tx_invariant op s :
  tx_invariant s →
  tx_invariant (step env endpoint_of_node_id optAnyFailureFromUdpard op s).1.
Proof.
  intros Hinv. destruct op as [handler|new_node_id|k port_id|k port_id|session
                              |tx_metadata payload_fragments|now]; simpl.
  - by destruct Hinv.
  - unfold setLocalNodeId, setNodeId. repeat case_decide; simpl; by destruct Hinv.
  - pose proof (makeRxSession_tx_op_ok (transport s) k port_id (trace s)) as H.
    destruct (makeRxSession env (transport s) k port_id (trace s)) as [[this1 tr1] r].
    simpl in *. by eapply tx_invariant_op.
  - pose proof (makeAnyTxSession_tx_op_ok (transport s) k port_id (trace s)) as H.
    destruct (makeAnyTxSession env (transport s) k port_id (trace s)) as [[this1 tr1] r].
    simpl in *. by eapply tx_invariant_op.
  - case_decide; simpl; [|done].
    destruct Hinv as [Hnd Hc]. by destruct session as [[] port]; split.
  - pose proof (sendAnyTransfer_tx_op_ok (transport s) tx_metadata payload_fragments
                  (trace s)) as H.
    destruct (sendAnyTransfer _ _ _ _ _ _) as [[this1 tr1] r].
    simpl in *. by eapply tx_invariant_op.
  - pose proof (run_tx_op_ok (transport s) now (trace s)) as H.
    destruct (run _ _ _ _ _) as [[this1 tr1] r].
    simpl in *. by eapply tx_invariant_op.
Qed.

(** Along any use of a fresh transport each medium is handed a TX socket
    at most once, and holds a TX socket exactly when one has been handed
    out for it: a TX socket is made on demand, never made again while the
    medium holds one, and never given up. *)
Theorem tx_socket_made_once media_count ops :
  (∀ i, (tx_sockets_created i
           (trace (exec env endpoint_of_node_id optAnyFailureFromUdpard ops
                     (initial media_count)).1) ≤ 1)%nat) ∧
  (∀ m,
     m ∈ media_array_
           (transport (exec env endpoint_of_node_id optAnyFailureFromUdpard ops
                         (initial media_count)).1) →
     is_Some (tx_socket_ptr_ m) ↔
     tx_sockets_created (index_ m)
       (trace (exec env endpoint_of_node_id optAnyFailureFromUdpard ops
                 (initial media_count)).1) = 1%nat).
Proof.
  pose proof (exec_invariant env endpoint_of_node_id optAnyFailureFromUdpard tx_invariant
                step_tx_invariant ops (initial media_count)
                (initial_tx_invariant media_count)) as [Hnd Hcount].
  split.
  - intros i. rewrite Hcount. by apply tx_socket_holders_le_1.
  - intros m Hm. rewrite Hcount, (tx_socket_holders_member _ m) by done.
    destruct (bool_decide (is_Some (tx_socket_ptr_ m))) eqn:Hb.
    + apply bool_decide_eq_true in Hb. done.
    + apply bool_decide_eq_false in Hb. split; [done | lia].
Qed.

(** *** The RX pump takes one datagram per medium *)

Lemma count_events_app p new tr :
  count_events p (new ++ tr) = (count_events p new + count_events p tr)%nat.
Proof. induction new as [|e new IH]; simpl; [done | lia]. Qed.

Lemma count_events_none p tr :
  Forall (λ e, p e = false) tr → count_events p tr = 0%nat.
Proof. induction 1 as [|e tr He _ IH]; simpl; [done|]. by rewrite He, IH. Qed.










(** *** An anonymous node receives nothing *)

Lemma enqueue_event_not_rx_side tx_metadata e :
  enqueue_event tx_metadata e → ¬ rx_side e.
Proof.
  intros He Hrx. destruct e; simpl in *; try done.
  destruct He as [Hk|Hk]; rewrite Hk in Hrx;
    destruct tx_metadata; simpl in Hrx; intuition discriminate.
Qed.

Lemma tx_side_not_rx_side e : tx_side e → ¬ rx_side e.
Proof.
  intros He Hrx. destruct e; simpl in *; try done.
  destruct He as [Hk|Hk]; rewrite Hk in Hrx; intuition discriminate.
Qed.

Lemma ensureMediaTxSockets_tx_side this tr :
  emits tx_side tr (ensureMediaTxSockets env this tr).1.2.
Proof.
  unfold ensureMediaTxSockets.
  pose proof (for_each_media_emits tx_side
    (λ media, withEnsureMediaTxSocket env this media no_action)
    (media_array_ this) tr) as He.
  destruct (for_each_media _ _ _) as [[ms tr1] r]. simpl in *. apply He.
  intros m tr0. apply withEnsureMediaTxSocket_emits_kind;
    [done | by left | intros; apply emits_refl..].
Qed.

Lemma makeAnyTxSession_not_rx_side this k port_id tr :
  emits (λ e, ¬ rx_side e) tr (makeAnyTxSession env this k port_id tr).1.2.
Proof.
  unfold makeAnyTxSession.
  pose proof (ensureMediaTxSockets_tx_side this tr) as He.
  apply (emits_mono _ (λ e, ¬ rx_side e)) in He; [|apply tx_side_not_rx_side].
  destruct (ensureMediaTxSockets env this tr) as [[this1 tr1] [f|]]; simpl in *; [done|].
  destruct (env_txSessionMake env tr1 k port_id); simpl;
    (eapply emits_trans; [exact He|]; apply emits_cons; by intros []).
Qed.

Lemma makeAnyRxSession_not_rx_side this k port_id tr :
  emits (λ e, ¬ rx_side e) tr (makeAnyRxSession env this k port_id tr).1.2.
Proof.
  rewrite makeAnyRxSession_cases.
  case_decide; [apply emits_refl|].
  destruct (env_nodeAlloc env tr k port_id); [|apply emits_cons; by intros []].
  destruct (env_rxSessionMake env _ k port_id); simpl;
    (eapply emits_trans; apply emits_cons; by intros []).
Qed.

Lemma for_each_media_idle step medias tr :
  (∀ m tr0, m ∈ medias → step m tr0 = (m, tr0, None)) →
  for_each_media step medias tr = (medias, tr, None).
Proof.
  induction medias as [|m rest IH]; intros Hstep; simpl; [done|].
  rewrite Hstep by by left. rewrite IH; [done|].
  intros m' tr0 Hin. apply Hstep. by right.
Qed.

(** Without an RX endpoint a medium that has no RX socket is left alone
    by whatever needs one. *)
Lemma withEnsureMediaRxSocket_idle this media action tr :
  svc_rx_sockets_endpoint_ this = None → rx_socket_ptr_ media = None →
  withEnsureMediaRxSocket env this media action tr = (media, tr, None).
Proof. intros Hep Hrx. unfold withEnsureMediaRxSocket. by rewrite Hrx, Hep. Qed.

Lemma rx_sockets_created_event i tr :
  (0 < rx_sockets_created i tr)%nat →
  ∃ endpoint result, EvMakeRxSocket i endpoint result ∈ tr.
Proof.
  induction tr as [|e tr IH]; simpl; [lia|].
  destruct (is_rx_socket_created i e) eqn:He.
  - intros _. destruct e as [|j endpoint result| | | | | | | | | | |]; try done.
    destruct result as [[sock|]|]; try done. simpl in He.
    apply bool_decide_eq_true in He as ->.
    exists endpoint, (MakeRxSocketSuccess (Some sock)). by left.
  - intros Hpos. destruct IH as (endpoint & result & Hin); [lia|].
    exists endpoint, result. by right.
Qed.

Lemma rx_invariant_no_endpoint s :
  rx_invariant endpoint_of_node_id s →
  svc_rx_sockets_endpoint_ (transport s) = None →
  ∀ m, m ∈ media_array_ (transport s) → rx_socket_ptr_ m = None.
Proof.
  intros (_ & Hnd & Hev & Hcount) Hep m Hm.
  destruct (rx_socket_ptr_ m) as [sock|] eqn:Hrx; [|done].
  pose proof (rx_socket_holders_member (index_ m) m _ Hnd Hm eq_refl) as Hh.
  rewrite Hrx, bool_decide_true in Hh by by eexists.
  rewrite <- Hcount in Hh.
  destruct (rx_sockets_created_event (index_ m) (trace s)) as (endpoint & result & Hin);
    [lia|].
  apply Hev in Hin. congruence.
Qed.

Lemma quiet_rx_op s tr' :
  quiet_rx_invariant s → svc_rx_sockets_endpoint_ (transport s) = None →
  emits (λ e, ¬ rx_side e) (trace s) tr' →
  Forall (λ e, ¬ rx_side e) tr'.
Proof.
  intros Hq Hep (new & -> & Hnew). apply Forall_app. split; [done | by apply Hq].
Qed.

Lemma step_quiet_rx_invariant op s :
  rx_invariant endpoint_of_node_id s → quiet_rx_invariant s →
  quiet_rx_invariant (step env endpoint_of_node_id optAnyFailureFromUdpard op s).1.
Proof.
  intros Hrx Hq.
  pose proof (rx_invariant_no_endpoint s Hrx) as Hnone.
  destruct op as [handler|new_node_id|k port_id|k port_id|session
                 |tx_metadata payload_fragments|now]; simpl.
  - exact Hq.
  - unfold setLocalNodeId, setNodeId. repeat case_decide; simpl; try exact Hq.
    by intros ?.
  - pose proof (makeRxSession_rx_op_ok env (transport s) k port_id (trace s))
      as (_ & Hep' & _).
    assert (Hem : svc_rx_sockets_endpoint_ (transport s) = None →
                  emits (λ e, ¬ rx_side e) (trace s)
                        (makeRxSession env (transport s) k port_id (trace s)).1.2).
    { intros Hep.
      assert (Hidle : ensureMediaRxSockets env (transport s) (trace s)
                      = (set_media_array (transport s) (media_array_ (transport s)),
                         trace s, None)).
      { unfold ensureMediaRxSockets. rewrite for_each_media_idle; [done|].
        intros m tr0 Hm. apply withEnsureMediaRxSocket_idle; [done | by apply Hnone]. }
      destruct k; simpl; unfold makeMessageRxSession, makeRequestRxSession,
        makeResponseRxSession; rewrite ?Hidle; apply makeAnyRxSession_not_rx_side. }
    destruct (makeRxSession env (transport s) k port_id (trace s)) as [[this1 tr1] r].
    simpl in *. unfold quiet_rx_invariant. simpl.
    intros Hep. rewrite Hep' in Hep. by apply (quiet_rx_op s); auto.
  - pose proof (makeAnyTxSession_rx_op_ok env (transport s) k port_id (trace s))
      as (_ & Hep' & _).
    pose proof (makeAnyTxSession_not_rx_side (transport s) k port_id (trace s)) as Hem.
    destruct (makeAnyTxSession env (transport s) k port_id (trace s)) as [[this1 tr1] r].
    simpl in *. unfold quiet_rx_invariant. simpl.
    intros Hep. rewrite Hep' in Hep. by apply (quiet_rx_op s).
  - case_decide; simpl; [|exact Hq].
    intros Hep. apply Hq. by destruct session as [[] port].
  - pose proof (sendAnyTransfer_rx_op_ok env optAnyFailureFromUdpard (transport s)
                  tx_metadata payload_fragments (trace s)) as (_ & Hep' & _).
    pose proof (sendAnyTransfer_emits (transport s) tx_metadata payload_fragments
                  (trace s)) as Hem.
    apply (emits_mono _ (λ e, ¬ rx_side e)) in Hem;
      [|apply enqueue_event_not_rx_side].
    destruct (sendAnyTransfer _ _ _ _ _ _) as [[this1 tr1] r].
    simpl in *. unfold quiet_rx_invariant. simpl.
    intros Hep. rewrite Hep' in Hep. by apply (quiet_rx_op s).
  - pose proof (run_rx_op_ok env optAnyFailureFromUdpard (transport s) now (trace s))
      as (_ & Hep' & _).
    assert (Hem : svc_rx_sockets_endpoint_ (transport s) = None →
                  emits (λ e, ¬ rx_side e) (trace s)
                        (run env optAnyFailureFromUdpard (transport s) now (trace s)).1.2).
    { intros Hep. unfold run.
      pose proof (runMediaTransmit_emits (transport s) now (trace s)) as Htx.
      apply (emits_mono _ (λ e, ¬ rx_side e)) in Htx.
      2:{ intros e (m & _ & He). apply tx_side_not_rx_side.
          destruct e; simpl in *; try done. by destruct He. }
      pose proof (runMediaTransmit_rx_op_ok env (transport s) now (trace s))
        as (_ & Hep1 & Hidx & _ & Hbal).
      destruct (runMediaTransmit env (transport s) now (trace s))
        as [[this1 tr1] [f|]] eqn:Ht; simpl in *; [done|].
      assert (Hidle : runMediaReceive env optAnyFailureFromUdpard this1 tr1
                      = (set_media_array this1 (media_array_ this1), tr1, None)).
      { unfold runMediaReceive. rewrite for_each_media_idle; [done|].
        intros m tr0 Hm. apply withEnsureMediaRxSocket_idle; [congruence|].
        pose proof (step_rx_invariant env endpoint_of_node_id optAnyFailureFromUdpard
                      (OpRun now) s Hrx) as Hrx1.
        apply (rx_invariant_no_endpoint
                 (mkSystem this1 tr1 (live_rx s) (live_tx s))); simpl; try done;
          [|congruence].
        apply (rx_invariant_op endpoint_of_node_id s); [done|].
        pose proof (runMediaTransmit_rx_op_ok env (transport s) now (trace s)) as H.
        by rewrite Ht in H. }
      by rewrite Hidle. }
    destruct (run _ _ _ _ _) as [[this1 tr1] r].
    simpl in *. unfold quiet_rx_invariant. simpl.
    intros Hep. rewrite Hep' in Hep. by apply (quiet_rx_op s); auto.
Qed.

(** As long as no node id is set the transport does nothing on the RX
    side, whatever it is asked to do: it makes no RX socket, calls no
    [receive], hands the framer no datagram and a session no transfer. *)
Theorem anonymous_node_receives_nothing media_count ops :
  getLocalNodeId
    (transport (exec env endpoint_of_node_id optAnyFailureFromUdpard ops
                  (initial media_count)).1) = None →
  Forall (λ e, ¬ rx_side e)
    (trace (exec env endpoint_of_node_id optAnyFailureFromUdpard ops
              (initial media_count)).1).
Proof.
  intros Hanon.
  pose proof (exec_invariant env endpoint_of_node_id optAnyFailureFromUdpard
                (λ s, rx_invariant endpoint_of_node_id s ∧ quiet_rx_invariant s)) as Hinv.
  destruct (Hinv (λ op s '(conj Hrx Hq),
                    conj (step_rx_invariant env endpoint_of_node_id
                            optAnyFailureFromUdpard op s Hrx)
                         (step_quiet_rx_invariant op s Hrx Hq))
                 ops (initial media_count)) as [Hrx Hq].
  { split; [apply initial_rx_invariant | by intros _]. }
  apply Hq. destruct Hrx as (Hnode & _).
  destruct (svc_rx_sockets_endpoint_ _) as [endpoint|]; [|done].
  destruct Hnode as [Hle _]. unfold getLocalNodeId in Hanon.
  by rewrite decide_False in Hanon by lia.
Qed.

(** *** The work of one drain is bounded *)

Lemma popAndFreeUdpardTxItem_shrinks media tx_item rest whole tr :
  udpard_tx_ media = tx_item :: rest →
  (length (udpard_tx_ (popAndFreeUdpardTxItem media whole tr).1) ≤ length rest)%nat ∧
  ∃ frees, (popAndFreeUdpardTxItem media whole tr).2 = frees ++ tr ∧
           count_events is_send frees = 0%nat.
Proof.
  intros Hq. split.
  - rewrite (popAndFreeUdpardTxItem_cons _ _ _ _ _ Hq).
    destruct whole; simpl; [apply length_filter | done].
  - destruct (popAndFreeUdpardTxItem_trace media whole tr) as (frees & Heq & Hall).
    exists frees. split; [done|]. apply count_events_none.
    eapply Forall_impl; [exact Hall|]. by intros e [item ->].
Qed.

Lemma drain_bounded this tx_socket now media tr res :
  drain env this tx_socket now media tr res →
  ∃ new, res.1.2 = new ++ tr ∧
         (count_events is_send new ≤ length (udpard_tx_ media))%nat ∧
         (length (udpard_tx_ res.1.1) ≤ length (udpard_tx_ media))%nat.
Proof.
  induction 1 as [media tr Hq|media tr tx_item rest res Hq Hexp _ IH
                 |media tr tx_item rest Hq Hexp Hsend
                 |media tr tx_item rest res Hq Hexp Hsend e _ IH
                 |media tr tx_item rest send_failure f Hq Hexp Hsend e popped handled Hv
                 |media tr tx_item rest send_failure res Hq Hexp Hsend e popped handled
                    Hv _ IH]; simpl.
  - exists []. split_and!; [done | simpl; lia | done].
  - destruct (popAndFreeUdpardTxItem_shrinks media tx_item rest true tr Hq)
      as (Hlen & frees & Hfr & Hzero).
    destruct IH as (new & -> & Hsends & Hqueue). rewrite Hfr, Hq. simpl.
    exists (new ++ frees). split; [by rewrite app_assoc|].
    rewrite count_events_app, Hzero. split; lia.
  - exists [EvSend (index_ media)
    (TimePoint_of_usec (deadline_usec tx_item)) tx_item (SendSuccess false)].
    rewrite Hq. simpl. split_and!; [done | lia | done].
  - destruct (popAndFreeUdpardTxItem_shrinks media tx_item rest false (e :: tr) Hq)
      as (Hlen & frees & Hfr & Hzero).
    destruct IH as (new & -> & Hsends & Hqueue). rewrite Hfr, Hq. simpl.
    exists (new ++ frees ++ [e]). split; [by rewrite <- !app_assoc|].
    rewrite !count_events_app, Hzero. simpl. split; lia.
  - destruct (popAndFreeUdpardTxItem_shrinks media tx_item rest true (e :: tr) Hq)
      as (Hlen & frees & Hfr & Hzero).
    subst handled. rewrite tryHandleTransientMediaError_verdict. simpl.
    subst popped. rewrite Hfr, Hq. simpl.
    eexists (_ :: frees ++ [e]). split; [simpl; by rewrite <- app_assoc|].
    simpl. rewrite count_events_app, Hzero. simpl. split; lia.
  - destruct (popAndFreeUdpardTxItem_shrinks media tx_item rest true (e :: tr) Hq)
      as (Hlen & frees & Hfr & Hzero).
    destruct IH as (new & -> & Hsends & Hqueue).
    subst handled. rewrite tryHandleTransientMediaError_verdict. simpl.
    subst popped. rewrite Hfr, Hq. simpl.
    eexists (new ++ _ :: frees ++ [e]).
    split; [simpl; by rewrite <- !app_assoc; simpl; rewrite <- app_assoc|].
    rewrite !count_events_app. simpl. rewrite count_events_app, Hzero. simpl.
    split; lia.
Qed.

(** One drain hands the socket no more frames than were queued when it
    began, and never leaves the queue longer than it found it: the work
    of a tick is bounded by the backlog. *)
Theorem drain_sends_at_most_the_backlog this media tx_socket now tr :
  ∃ new,
    (runSingleMediaTransmit env this media tx_socket now tr).1.2 = new ++ tr ∧
    (count_events is_send new ≤ length (udpard_tx_ media))%nat ∧
    (length (udpard_tx_ (runSingleMediaTransmit env this media tx_socket now tr).1.1)
     ≤ length (udpard_tx_ media))%nat.
Proof.
  apply (drain_bounded this tx_socket now media tr), runSingleMediaTransmit_drain.
Qed.

(** *** The node id, once more *)

(** [setLocalNodeId] succeeds exactly for an id in range that is the one
    already set or comes while none is set; the range is checked first,
    so the [UNSET] sentinel itself is refused even by an anonymous node,
    for which it is the current value. Whenever the call fails the
    transport is as before. *)
Theorem setLocalNodeId_succeeds_iff this new_node_id :
  ((setLocalNodeId endpoint_of_node_id this new_node_id).2 = None ↔
   new_node_id <= UDPARD_NODE_ID_MAX ∧
   (node_id this = new_node_id ∨ node_id this = UDPARD_NODE_ID_UNSET)) ∧
  ((setLocalNodeId endpoint_of_node_id this new_node_id).2 ≠ None →
   setLocalNodeId endpoint_of_node_id this new_node_id = (this, Some ArgumentError)) ∧
  (node_id this = UDPARD_NODE_ID_UNSET →
   setLocalNodeId endpoint_of_node_id this UDPARD_NODE_ID_UNSET
   = (this, Some ArgumentError)).
Proof.
  unfold setLocalNodeId, setNodeId, UDPARD_NODE_ID_MAX, UDPARD_NODE_ID_UNSET.
  split_and!.
  - repeat case_decide; simpl; split; try done; try lia; intros [? [?|?]]; lia.
  - by repeat case_decide.
  - intros Hunset. by rewrite decide_True by lia.
Qed.

End Footprint.

(** *** Service RX sessions and the RX sockets *)

Section ServiceSockets.

Variable env : Env.
Variable optAnyFailureFromUdpard : Z → option AnyFailure.





End ServiceSockets.

Lemma drain_sends_whole_queue_witness :
  runSingleMediaTransmit friendly_env (make_transport 1) example_media (mkTxSocket 0) 5 []
  = (mkMedia 0 [] None (Some (mkTxSocket 0)),
     [EvTxFree 0 fragment_b; EvSend 0 100 fragment_b (SendSuccess true);
      EvTxFree 0 fragment_a2; EvSend 0 10 fragment_a2 (SendSuccess true);
      EvTxFree 0 fragment_a1; EvSend 0 10 fragment_a1 (SendSuccess true)],
     None).
Proof.
  apply (drain_sends_whole_queue friendly_env (make_transport 1) example_media
           (mkTxSocket 0) 5 []).
  - done.
  - repeat constructor.
Defined.

(** Collaborators like the friendly ones, but with a datagram waiting on
    every RX socket, each completing a transfer for port 430. *)
Definition receiving_env : Env :=
  {| env_makeTxSocket := env_makeTxSocket friendly_env;
     env_makeRxSocket := env_makeRxSocket friendly_env;
     env_send := env_send friendly_env;
     env_receive := λ _ _ _, ReceiveSuccess (Some (mkRxMetadata 7 [1; 2; 3]));
     env_contiguousPayload := env_contiguousPayload friendly_env;
     env_udpardTx := env_udpardTx friendly_env;
     env_udpardRxRPCDispatcherReceive := λ _ _ _, (1, 430);
     env_nodeAlloc := env_nodeAlloc friendly_env;
     env_rxSessionMake := env_rxSessionMake friendly_env;
     env_txSessionMake := env_txSessionMake friendly_env |}.


(** The run of the witness: each of the two media makes its sockets,
    receives one datagram, and the transfer is handed over. *)
Example run_pumps_each_medium_once :
  (run receiving_env example_failure_of_result
       (setLocalNodeId example_endpoint (make_transport 2) 42).1 5 []).1.2
  = [EvAcceptRxTransfer 430; EvRpcDispatch 1 1;
     EvReceive 1 (ReceiveSuccess (Some (mkRxMetadata 7 [1; 2; 3])));
     EvMakeRxSocket 1 (example_endpoint 42) (MakeRxSocketSuccess (Some (mkRxSocket 0)));
     EvAcceptRxTransfer 430; EvRpcDispatch 0 1;
     EvReceive 0 (ReceiveSuccess (Some (mkRxMetadata 7 [1; 2; 3])));
     EvMakeRxSocket 0 (example_endpoint 42) (MakeRxSocketSuccess (Some (mkRxSocket 0)));
     EvMakeTxSocket 1 (MakeTxSocketSuccess (Some (mkTxSocket 0)));
     EvMakeTxSocket 0 (MakeTxSocketSuccess (Some (mkTxSocket 0)))].
Proof. by vm_compute. Qed.

Lemma anonymous_node_receives_nothing_witness :
  Forall (λ e, ¬ rx_side e)
    (trace (exec receiving_env example_endpoint example_failure_of_result
              [OpMakeRxSession RequestRx 430; OpRun 5;
               OpSend (Publish 100 4 7509 1) [[1; 2; 3]]; OpRun 6]
              (initial 2)).1).
Proof.
  apply (anonymous_node_receives_nothing receiving_env example_endpoint
           example_failure_of_result 2
           [OpMakeRxSession RequestRx 430; OpRun 5;
            OpSend (Publish 100 4 7509 1) [[1; 2; 3]]; OpRun 6]).
  reflexivity.
Defined.


(** The request RX session of the witness: both media get their RX
    socket before the session is made. *)
Example request_rx_session_makes_rx_sockets :
  let made := makeRxSession friendly_env
                (setLocalNodeId example_endpoint (make_transport 2) 42).1
                RequestRx 430 [] in
  rx_socket_ptr_ <$> media_array_ made.1.1
  = [Some (mkRxSocket 0); Some (mkRxSocket 0)] ∧
  is_Some (match made.2 with inr session => Some session | inl _ => None end).
Proof. vm_compute. eauto. Qed.

(** ** Protocol parameters and the end of a transport *)

(** [ProtocolParams]: the transfer-id modulo, the MTU and the number of
    nodes. *)
Record ProtocolParams : Type := mkProtocolParams
  { transfer_id_modulo : Z;
    mtu_bytes : Z;
    max_nodes : Z }.

Section ProtocolParams.

(** [ITxSocket::getMtu] and [ITxSocket::DefaultMtu], and the largest
    values of [std::size_t] and of [TransferId], all declared outside the
    sources at hand. *)
Variable getMtu : ITxSocket → Z.
Variable DefaultMtu : Z.
Variable SIZE_MAX : Z.
Variable TransferId_max : Z.

(** [Media::getTxSocketMtu]. *)
Definition getTxSocketMtu (media : Media) : Z :=
  match tx_socket_ptr_ media with
  | Some tx_socket => getMtu tx_socket
  | None => DefaultMtu
  end.

(** [TransportImpl::getProtocolParams]. *)
Definition getProtocolParams (this : TransportImpl) : ProtocolParams :=
  let min_mtu :=
    foldl (λ min_mtu media, Z.min min_mtu (getTxSocketMtu media))
          SIZE_MAX (media_array_ this) in
  mkProtocolParams TransferId_max min_mtu (UDPARD_NODE_ID_MAX + 1).

Lemma foldl_min_le (f : Media → Z) start medias :
  foldl (λ acc media, Z.min acc (f media)) start medias <= start ∧
  ∀ media, media ∈ medias →
           foldl (λ acc media, Z.min acc (f media)) start medias <= f media.
Proof.
  revert start. induction medias as [|m medias IH]; intros start; simpl.
  { split; [lia|]. by intros media ?%elem_of_nil. }
  destruct (IH (Z.min start (f m))) as [Hstart Hall]. split; [lia|].
  intros media [->|Hin]%elem_of_cons; [lia | by apply Hall].
Qed.

Lemma foldl_min_attained (f : Media → Z) start medias :
  foldl (λ acc media, Z.min acc (f media)) start medias = start ∨
  ∃ media, media ∈ medias ∧
           foldl (λ acc media, Z.min acc (f media)) start medias = f media.
Proof.
  revert start. induction medias as [|m medias IH]; intros start; simpl; [by left|].
  destruct (IH (Z.min start (f m))) as [Heq|(media & Hin & Heq)].
  - rewrite Heq. destruct (Z.min_spec start (f m)) as [[_ ->]|[_ ->]]; [by left|].
    right. exists m. split; [by left | done].
  - right. exists media. split; [by right | done].
Qed.

(** The MTU that [getProtocolParams] reports is the smallest MTU among
    the media, a medium without TX socket counting with the default MTU;
    in particular it is the default MTU as long as no TX socket has been
    made. The number of nodes is one more than the largest node id. *)
Theorem getProtocolParams_min_mtu this :
  media_array_ this ≠ [] →
  Forall (λ media, getTxSocketMtu media <= SIZE_MAX) (media_array_ this) →
  (∀ media, media ∈ media_array_ this →
            mtu_bytes (getProtocolParams this) <= getTxSocketMtu media) ∧
  (∃ media, media ∈ media_array_ this ∧
            mtu_bytes (getProtocolParams this) = getTxSocketMtu media) ∧
  (Forall (λ media, tx_socket_ptr_ media = None) (media_array_ this) →
   mtu_bytes (getProtocolParams this) = DefaultMtu) ∧
  max_nodes (getProtocolParams this) = 65535.
Proof.
  intros Hne Hmax. unfold getProtocolParams. simpl.
  destruct (foldl_min_le getTxSocketMtu SIZE_MAX (media_array_ this)) as [_ Hle].
  assert (Hatt : ∃ media, media ∈ media_array_ this ∧
            foldl (λ min_mtu media, Z.min min_mtu (getTxSocketMtu media)) SIZE_MAX
                  (media_array_ this) = getTxSocketMtu media).
  { destruct (foldl_min_attained getTxSocketMtu SIZE_MAX (media_array_ this))
      as [Heq|?]; [|done].
    destruct (media_array_ this) as [|m ms] eqn:Hms; [done|].
    exists m. split; [by left|]. apply Z.le_antisymm.
    - by apply Hle; left.
    - rewrite Heq. by apply Forall_cons in Hmax as [? _]. }
  split_and!; [done | done | | done].
  intros Hnone. destruct Hatt as (media & Hin & ->).
  rewrite Forall_forall in Hnone. unfold getTxSocketMtu. by rewrite (Hnone _ Hin).
Qed.

End ProtocolParams.

Section Destructor.

(** The loop of [flushUdpardTxQueue]: peek, pop, free, until the queue is
    empty. *)
Fixpoint flushUdpardTxQueue_loop (fuel : nat) (media : Media) (tr : Trace)
  : Media * Trace :=
  match fuel with
  | O => (media, tr)
  | S fuel' =>
      match udpardTxPeek (udpard_tx_ media) with
      | None => (media, tr)
      | Some maybe_item =>
          flushUdpardTxQueue_loop fuel'
            (set_udpard_tx media (tail (udpard_tx_ media)))
            (EvTxFree (index_ media) maybe_item :: tr)
      end
  end.

(** [flushUdpardTxQueue]; every iteration pops an item, so the length of
    the queue bounds the iterations. *)
Definition flushUdpardTxQueue (media : Media) (tr : Trace) : Media * Trace :=
  flushUdpardTxQueue_loop (length (udpard_tx_ media)) media tr.

(** [~TransportImpl()]. *)
Definition TransportImpl_delete (this : TransportImpl) (tr : Trace)
  : TransportImpl * Trace :=
  let '(medias, tr1) :=
    foldl (λ '(done, tr0) media,
             let '(media1, tr1) := flushUdpardTxQueue media tr0 in
             (done ++ [media1], tr1))
          ([], tr) (media_array_ this) in
  (set_media_array this medias, tr1).

(** The releases of the frames queued on the media [medias], the newest
    first. *)
Definition flushed (medias : list Media) : Trace :=
  reverse (concat ((λ media, EvTxFree (index_ media) <$> udpard_tx_ media) <$> medias)).

Lemma flushUdpardTxQueue_loop_all fuel media tr :
  (length (udpard_tx_ media) ≤ fuel)%nat →
  flushUdpardTxQueue_loop fuel media tr
  = (set_udpard_tx media [],
     reverse (EvTxFree (index_ media) <$> udpard_tx_ media) ++ tr).
Proof.
  revert media tr. induction fuel as [|fuel IH]; intros [i q rx tx] tr Hfuel; simpl in *.
  { destruct q; [done | simpl in Hfuel; lia]. }
  destruct q as [|item q]; simpl in *; [done|].
  rewrite IH by (simpl; lia). simpl.
  by rewrite reverse_cons, <- app_assoc.
Qed.

(** Destroying the transport flushes the TX queues: every frame still
    queued on a medium is released, exactly once and in queue order, and
    every queue is left empty. *)
Theorem destructor_releases_every_frame this tr :
  TransportImpl_delete this tr
  = (set_media_array this ((λ media, set_udpard_tx media []) <$> media_array_ this),
     flushed (media_array_ this) ++ tr).
Proof.
  unfold TransportImpl_delete.
  assert (H : ∀ medias done tr0,
    foldl (λ '(done, tr0) media,
             let '(media1, tr1) := flushUdpardTxQueue media tr0 in
             (done ++ [media1], tr1))
          (done, tr0) medias
    = (done ++ ((λ media, set_udpard_tx media []) <$> medias), flushed medias ++ tr0)).
  { induction medias as [|m medias IH]; intros done tr0; simpl.
    { by rewrite app_nil_r. }
    unfold flushUdpardTxQueue at 2. rewrite flushUdpardTxQueue_loop_all by done.
    rewrite IH. f_equal; [by rewrite <- app_assoc|].
    unfold flushed. rewrite fmap_cons. simpl. rewrite reverse_app.
    by rewrite <- app_assoc. }
  by rewrite H.
Qed.

End Destructor.

Lemma getProtocolParams_min_mtu_witness :
  let this := set_media_array (make_transport 2)
                [mkMedia 0 [] None (Some (mkTxSocket 0)); mkMedia 1 [] None None] in
  let getMtu := λ _ : ITxSocket, 508 in
  (∀ media, media ∈ media_array_ this →
            mtu_bytes (getProtocolParams getMtu 1408 (2 ^ 64 - 1) (2 ^ 64 - 1) this)
            <= getTxSocketMtu getMtu 1408 media) ∧
  (∃ media, media ∈ media_array_ this ∧
            mtu_bytes (getProtocolParams getMtu 1408 (2 ^ 64 - 1) (2 ^ 64 - 1) this)
            = getTxSocketMtu getMtu 1408 media) ∧
  (Forall (λ media, tx_socket_ptr_ media = None) (media_array_ this) →
   mtu_bytes (getProtocolParams getMtu 1408 (2 ^ 64 - 1) (2 ^ 64 - 1) this) = 1408) ∧
  max_nodes (getProtocolParams getMtu 1408 (2 ^ 64 - 1) (2 ^ 64 - 1) this) = 65535.
Proof.
  apply (getProtocolParams_min_mtu (λ _, 508) 1408 (2 ^ 64 - 1) (2 ^ 64 - 1)).
  - done.
  - repeat constructor; by vm_compute.
Defined.

Example getProtocolParams_runs :
  mtu_bytes (getProtocolParams (λ _, 508) 1408 (2 ^ 64 - 1) (2 ^ 64 - 1)
               (make_transport 3)) = 1408 ∧
  mtu_bytes (getProtocolParams (λ _, 508) 1408 (2 ^ 64 - 1) (2 ^ 64 - 1)
               (set_media_array (make_transport 2)
                  [mkMedia 0 [] None (Some (mkTxSocket 0)); mkMedia 1 [] None None]))
  = 508.
Proof. by vm_compute. Qed.

Example destructor_runs :
  TransportImpl_delete (set_media_array (make_transport 1) [example_media]) []
  = (set_media_array (make_transport 1) [mkMedia 0 [] None (Some (mkTxSocket 0))],
     [EvTxFree 0 fragment_b; EvTxFree 0 fragment_a2; EvTxFree 0 fragment_a1]).
Proof. reflexivity. Qed.

(** ** The factory *)

Module Factory.

(** A media interface handed to the factory, by name. *)
Definition IMedia : Type := nat.

(** The most media a transport takes: the factory's own comment has it
    as 3. *)
Definition UDPARD_NETWORK_INTERFACE_COUNT_MAX : nat := 3.

(** The loop of [makeMediaArray]: every interface that is not null gets
    the next index, cast to [std::uint8_t] by the constructor of
    [Media], an empty TX queue and no sockets. *)
Fixpoint emplace_back_all (index : nat) (media_interfaces : list (option IMedia))
  : list (Media * IMedia) :=
  match media_interfaces with
  | [] => []
  | None :: rest => emplace_back_all index rest
  | Some media_interface :: rest =>
      (mkMedia (index `mod` 256)%nat [] None None, media_interface)
        :: emplace_back_all (S index) rest
  end.

(** [makeMediaArray]; [capacity] is what [reserve(media_count)] left the
    array with, less than asked for when memory ran out. Each medium
    comes with the interface it refers to. *)
Definition makeMediaArray (capacity media_count : nat)
  (media_interfaces : list (option IMedia)) : list (Media * IMedia) :=
  if decide (media_count ≤ capacity)%nat then emplace_back_all 0 media_interfaces
  else [].

(** The constructor of [TransportImpl]: the node id starts unset, the
    session trees empty, and there is neither a transient-error handler
    nor an RX endpoint. *)
Definition TransportImpl_new (media_array : list Media) : TransportImpl :=
  {| node_id := UDPARD_NODE_ID_UNSET;
     media_array_ := media_array;
     transient_error_handler_ := None;
     msg_rx_session_nodes_ := [];
     svc_request_rx_session_nodes_ := [];
     svc_response_rx_session_nodes_ := [];
     svc_rx_sockets_endpoint_ := None |}.

(** [TransportImpl::make]: the new transport together with the
    interfaces its media refer to, in the order of the media.
    [transport_allocated] tells whether [makeUniquePtr] had room for the
    transport. *)
Definition make (capacity : nat) (transport_allocated : bool)
  (media : list (option IMedia)) : AnyFailure + TransportImpl * list IMedia :=
  let media_count := length (filter (λ media_ptr, media_ptr ≠ None) media) in
  if decide (media_count = 0 ∨ UDPARD_NETWORK_INTERFACE_COUNT_MAX < media_count)%nat
  then inl ArgumentError
  else
    let media_array := makeMediaArray capacity media_count media in
    if decide (length media_array ≠ media_count) then inl MemoryError
    else if transport_allocated
         then inr (TransportImpl_new media_array.*1, media_array.*2)
         else inl MemoryError.

(** *** Properties *)

Lemma count_not_null (media : list (option IMedia)) :
  length (filter (λ media_ptr, media_ptr ≠ None) media) = length (omap id media).
Proof.
  induction media as [|[interface|] media IH]; [done| |]; rewrite filter_cons;
    case_decide; simpl; try done.
  by rewrite IH.
Qed.

Lemma emplace_back_all_interfaces index media :
  (emplace_back_all index media).*2 = omap id media.
Proof.
  revert index. induction media as [|[interface|] media IH]; intros index; simpl; [done| |].
  - by rewrite IH.
  - apply IH.
Qed.

Lemma emplace_back_all_media index media :
  (index + length (omap id media) ≤ 256)%nat →
  (emplace_back_all index media).*1
  = map (λ i, mkMedia i [] None None) (seq index (length (omap id media))).
Proof.
  revert index. induction media as [|[interface|] media IH]; intros index Hle;
    cbn -[Nat.modulo] in *; [done| |].
  - rewrite IH by lia. by rewrite Nat.mod_small by lia.
  - by apply IH.
Qed.

(** [make] refuses, with [ArgumentError], a span holding no interface or
    more than three (null entries do not count); with at least one and at
    most three it fails only for want of memory, with [MemoryError]; and
    otherwise it yields a transport that is anonymous, has no handler and
    no session, and whose media are numbered 0, 1, ... in the order of
    the interfaces that are not null, each with an empty TX queue and no
    socket yet. *)
Theorem make_outcome capacity transport_allocated media :
  let media_count := length (omap id media) in
  match make capacity transport_allocated media with
  | inl failure =>
      (failure = ArgumentError ∧ (media_count = 0 ∨ 3 < media_count)%nat) ∨
      (failure = MemoryError ∧ (1 ≤ media_count ≤ 3)%nat ∧
       ((capacity < media_count)%nat ∨ transport_allocated = false))
  | inr (transport, interfaces) =>
      (1 ≤ media_count ≤ 3)%nat ∧ (media_count ≤ capacity)%nat ∧
      transport_allocated = true ∧
      transport = make_transport media_count ∧
      interfaces = omap id media ∧
      index_ <$> media_array_ transport = seq 0 media_count
  end.
Proof.
  intros media_count. unfold make. rewrite count_not_null. fold media_count.
  unfold UDPARD_NETWORK_INTERFACE_COUNT_MAX.
  case_decide as Hcount; [left; split; [done | lia]|].
  unfold makeMediaArray.
  destruct (decide (media_count ≤ capacity)%nat) as [Hcap|Hcap].
  - rewrite decide_False.
    2:{ intros Hne. apply Hne.
        by rewrite <- (length_fmap snd), emplace_back_all_interfaces. }
    destruct transport_allocated; [|right; split_and!; [done | lia | lia | by right]].
    rewrite emplace_back_all_interfaces, emplace_back_all_media by (fold media_count; lia).
    fold media_count. split_and!; [lia | lia | lia | done | done | done |].
    simpl. apply (makeMediaArray_indices media_count).
  - rewrite decide_True by (simpl; lia).
    right. split_and!; [done | lia | lia | left; lia].
Qed.

(** An empty span, a span of nulls, four interfaces; and two interfaces
    around a null entry. *)
Example make_runs :
  make 0 true [] = inl ArgumentError ∧
  make 3 true [None; None] = inl ArgumentError ∧
  make 4 true [Some 1; Some 2; Some 3; Some 4]%nat = inl ArgumentError ∧
  make 1 true [Some 7; None; Some 9]%nat = inl MemoryError ∧
  make 2 false [Some 7; None; Some 9]%nat = inl MemoryError ∧
  make 2 true [Some 7; None; Some 9]%nat = inr (make_transport 2, [7; 9]%nat).
Proof. by vm_compute. Qed.

End Factory.

End Udp.

(* ================================================================== *)
(** * The CAN message TX session                                        *)
(* ================================================================== *)

Module Can.

Local Open Scope Z_scope.

(** Modelled from the spec: time points and durations ([types.hpp] is not
    part of the sources at hand) count microseconds, the unit of the
    framer's deadlines, in a signed 64-bit integer. *)
Definition TimePoint : Type := Z.
Definition Duration : Type := Z.

(** The value a signed 64-bit integer holds for [z]. *)
Definition int64 (z : Z) : Z := (z + 2 ^ 63) `mod` 2 ^ 64 - 2 ^ 63.

(** [TimePoint + Duration]: the sum of the two counts in the clock's
    signed 64-bit representation. Where the sum does not fit, the source
    leaves the result undefined and the compiled code wraps around; so
    does the model. *)
Definition TimePoint_add (t : TimePoint) (d : Duration) : TimePoint := int64 (t + d).

(** [std::chrono::seconds{n}] as a [Duration]. *)
Definition seconds (n : Z) : Duration := n * 1000000.

Inductive AnyError : Type :=
| ArgumentError
| MemoryError
| OtherError (code : Z).

Record TransferMetadata : Type := mkTransferMetadata
  { transfer_id : Z;
    timestamp : TimePoint;
    priority : Z }.

Record MessageTxParams : Type := mkMessageTxParams { subject_id : Z }.

Inductive CanardTransferKind : Type :=
| CanardTransferKindMessage
| CanardTransferKindResponse
| CanardTransferKindRequest.

Record CanardTransferMetadata : Type := mkCanardTransferMetadata
  { canard_priority : Z;
    canard_transfer_kind : CanardTransferKind;
    canard_port_id : Z;
    canard_remote_node_id : Z;
    canard_transfer_id : Z }.

(** [MessageTxSession]: the reference to the delegate is the delegate
    state threaded through [send]. *)
Record MessageTxSession : Type := mkMessageTxSession
  { params_ : MessageTxParams;
    send_timeout_ : Duration }.

Section Session.

(** The constants and integer types of [canard.h], which is not part of
    the sources at hand. *)
Variable CANARD_SUBJECT_ID_MAX : Z.
Variable CANARD_NODE_ID_UNSET : Z.
Variable CanardPriority_of : Z → Z.
Variable CanardPortID_of : Z → Z.
Variable CanardTransferID_of : Z → Z.

(** The transport delegate: its state and its [sendTransfer]. *)
Variable Delegate : Type.
Variable sendTransfer :
  Delegate → TimePoint → CanardTransferMetadata → list (list Z) →
  Delegate * option AnyError.

(** [MessageTxSession::make]; [allocated] tells whether the allocator had
    room for the session. *)
Definition make (allocated : bool) (params : MessageTxParams)
  : AnyError + MessageTxSession :=
  if decide (subject_id params > CANARD_SUBJECT_ID_MAX) then inl ArgumentError
  else if allocated then inr (mkMessageTxSession params (seconds 1))
  else inl MemoryError.

Definition setSendTimeout (session : MessageTxSession) (timeout : Duration)
  : MessageTxSession :=
  mkMessageTxSession (params_ session) timeout.

Definition getParams (session : MessageTxSession) : MessageTxParams :=
  params_ session.

Definition send (session : MessageTxSession) (delegate : Delegate)
  (metadata : TransferMetadata) (payload_fragments : list (list Z))
  : Delegate * option AnyError :=
  let canard_metadata :=
    mkCanardTransferMetadata (CanardPriority_of (priority metadata))
                             CanardTransferKindMessage
                             (CanardPortID_of (subject_id (params_ session)))
                             CANARD_NODE_ID_UNSET
                             (CanardTransferID_of (transfer_id metadata)) in
  sendTransfer delegate (TimePoint_add (timestamp metadata) (send_timeout_ session))
               canard_metadata payload_fragments.

(** The deadline a session would hand to the delegate for a transfer
    stamped [t]. *)
Definition deadline_of (session : MessageTxSession) (t : TimePoint) : TimePoint :=
  TimePoint_add t (send_timeout_ session).

(** A sum within the range of the clock is the sum. *)
Lemma TimePoint_add_exact t d :
  - 2 ^ 63 <= t + d < 2 ^ 63 → TimePoint_add t d = t + d.
Proof.
  intros Hrange. unfold TimePoint_add, int64.
  rewrite Z.mod_small by lia. lia.
Qed.

Lemma setSendTimeout_last session timeouts :
  send_timeout_ (foldl setSendTimeout session timeouts)
  = default (send_timeout_ session) (last timeouts).
Proof.
  revert session. induction timeouts as [|t ts IH]; intros session; simpl; [done|].
  rewrite IH. simpl. destruct ts as [|t' ts]; [done|].
  rewrite last_cons_cons. destruct (last (t' :: ts)) eqn:Hlast; [done|].
  by apply last_None in Hlast.
Qed.

Lemma setSendTimeout_params session timeouts :
  params_ (foldl setSendTimeout session timeouts) = params_ session.
Proof.
  revert session. induction timeouts as [|t ts IH]; intros session; simpl; [done|].
  by rewrite IH.
Qed.

(** C8: a message TX session hands the delegate the deadline
    [metadata.timestamp + send_timeout], where [send_timeout] is the value
    last given to [setSendTimeout] or, if there was none, one second; no
    other time enters the deadline. The sum is the clock's: it is the sum
    of the two counts whenever that fits the signed 64-bit count of a
    time point, which is the hypothesis here, and wraps around
    otherwise. *)
Theorem send_deadline allocated params session timeouts delegate metadata
  payload_fragments :
  make allocated params = inr session →
  - 2 ^ 63 <= timestamp metadata + default (seconds 1) (last timeouts) < 2 ^ 63 →
  send (foldl setSendTimeout session timeouts) delegate metadata payload_fragments
  = sendTransfer delegate
      (timestamp metadata + default (seconds 1) (last timeouts))
      (mkCanardTransferMetadata (CanardPriority_of (priority metadata))
                                CanardTransferKindMessage
                                (CanardPortID_of (subject_id params))
                                CANARD_NODE_ID_UNSET
                                (CanardTransferID_of (transfer_id metadata)))
      payload_fragments ∧
  deadline_of (foldl setSendTimeout session timeouts) (timestamp metadata)
  = timestamp metadata + default (seconds 1) (last timeouts).
Proof.
  unfold make. case_decide; [done|]. destruct allocated; [|done].
  intros [= <-] Hrange. unfold send, deadline_of.
  rewrite setSendTimeout_last, setSendTimeout_params. simpl.
  by rewrite TimePoint_add_exact.
Qed.

(** Whatever the timestamp, the deadline is the wrapped sum. *)
Lemma send_deadline_wraps allocated params session timeouts delegate metadata
  payload_fragments :
  make allocated params = inr session →
  send (foldl setSendTimeout session timeouts) delegate metadata payload_fragments
  = sendTransfer delegate
      (int64 (timestamp metadata + default (seconds 1) (last timeouts)))
      (mkCanardTransferMetadata (CanardPriority_of (priority metadata))
                                CanardTransferKindMessage
                                (CanardPortID_of (subject_id params))
                                CANARD_NODE_ID_UNSET
                                (CanardTransferID_of (transfer_id metadata)))
      payload_fragments.
Proof.
  unfold make. case_decide; [done|]. destruct allocated; [|done].
  intros [= <-]. unfold send.
  by rewrite setSendTimeout_last, setSendTimeout_params.
Qed.

(** A message TX session is made only for a subject id within range:
    [make] checks the subject id before it allocates. It returns
    [ArgumentError] exactly when the subject id is above
    [CANARD_SUBJECT_ID_MAX], whether or not there is memory;
    [MemoryError] exactly when the id is in range and the allocation
    fails; and a session exactly when the id is in range and the
    allocation succeeds; it returns no other error. The session that is
    made is the one with the given parameters and the default send
    timeout of one second, and it keeps its parameters whatever send
    timeouts are set later. *)
Theorem make_validates_subject_id allocated params :
  (make allocated params = inl ArgumentError ↔
   subject_id params > CANARD_SUBJECT_ID_MAX) ∧
  (make allocated params = inl MemoryError ↔
   subject_id params <= CANARD_SUBJECT_ID_MAX ∧ allocated = false) ∧
  ((∃ session, make allocated params = inr session) ↔
   subject_id params <= CANARD_SUBJECT_ID_MAX ∧ allocated = true) ∧
  (∀ code, make allocated params ≠ inl (OtherError code)) ∧
  (∀ session, make allocated params = inr session →
     session = mkMessageTxSession params (seconds 1) ∧
     ∀ timeouts,
       getParams (foldl setSendTimeout session timeouts) = params ∧
       subject_id (getParams (foldl setSendTimeout session timeouts))
       <= CANARD_SUBJECT_ID_MAX).
Proof.
  unfold make.
  destruct (decide (subject_id params > CANARD_SUBJECT_ID_MAX)) as [Hgt|Hle];
    [|destruct allocated].
  - split_and!; [done | | | done | done].
    + split; [done | lia].
    + split; [by intros [session ?] | lia].
  - split_and!; [| | | done |].
    + split; [done | lia].
    + split; [done | by intros [_ ?]].
    + split; [intros _; split; [lia | done] | intros _; by eexists].
    + intros session [= <-]. split; [done|]. intros timeouts.
      unfold getParams. rewrite setSendTimeout_params. simpl. split; [done | lia].
  - split_and!; [| | | done | done].
    + split; [done | lia].
    + split; [intros _; split; [lia | done] | done].
    + split; [by intros [session ?] | by intros [_ ?]].
Qed.

End Session.

(** A delegate that records the deadlines it is given. *)
Definition recording_sendTransfer (log : list TimePoint) (deadline : TimePoint)
  (_ : CanardTransferMetadata) (_ : list (list Z))
  : list TimePoint * option AnyError :=
  (deadline :: log, None).

(** Scenario 3 of the specification: a timestamp [t0 = 5000] and a send
    timeout of 10 ms give the deadline [t0 + 10000]. *)
Lemma send_deadline_witness :
  make 8191 true (mkMessageTxParams 7509)
  = inr (mkMessageTxSession (mkMessageTxParams 7509) (seconds 1)) ∧
  - 2 ^ 63 <= 5000 + 10000 < 2 ^ 63 ∧
  send 255 id id id (list TimePoint) recording_sendTransfer
       (foldl setSendTimeout (mkMessageTxSession (mkMessageTxParams 7509) (seconds 1))
              [seconds 3; 10000])
       [] (mkTransferMetadata 1 5000 4) [[1; 2; 3]]
  = ([15000], None).
Proof.
  split; [reflexivity|]. split; [lia|].
  destruct (send_deadline 8191 255 id id id (list TimePoint) recording_sendTransfer
              true (mkMessageTxParams 7509)
              (mkMessageTxSession (mkMessageTxParams 7509) (seconds 1))
              [seconds 3; 10000] [] (mkTransferMetadata 1 5000 4) [[1; 2; 3]] eq_refl)
    as [Hsend _]; [simpl; lia|].
  by rewrite Hsend.
Defined.

(** With no [setSendTimeout] the deadline is the timestamp plus one
    second. *)
Example send_default_deadline :
  send 255 id id id (list TimePoint) recording_sendTransfer
       (mkMessageTxSession (mkMessageTxParams 7509) (seconds 1))
       [] (mkTransferMetadata 1 5000 4) [[1; 2; 3]]
  = ([1005000], None).
Proof. reflexivity. Qed.

(** A timestamp five microseconds short of the largest time point: with
    the default timeout the sum does not fit and the deadline handed to
    the delegate is a time point far in the past. *)
Example send_deadline_past_the_clock :
  send 255 id id id (list TimePoint) recording_sendTransfer
       (mkMessageTxSession (mkMessageTxParams 7509) (seconds 1))
       [] (mkTransferMetadata 1 (2 ^ 63 - 1 - 5) 4) [[1; 2; 3]]
  = ([- 2 ^ 63 + 999994], None).
Proof. reflexivity. Qed.

End Can.

(* ================================================================== *)
(** * The executor's callback handle                                    *)
(* ================================================================== *)

Module Executor.

(** [Callback::Id]. *)
Definition Id : Type := nat.

(** Modelled from the spec: an executor ([IExecutor] is an interface;
    its implementations are not part of the sources at hand) maintains a
    set of callbacks, each identified by an id of its own. *)
Record IExecutor : Type := mkExecutor
  { callbacks : gset Id;
    next_id : Id }.

Definition empty_executor : IExecutor := mkExecutor ∅ 0.

(** Modelled from the spec: [appendCallback] installs a callback under a
    new id, or fails for want of memory ([oom]). *)
Definition appendCallback (ex : IExecutor) (oom : bool) : IExecutor * option Id :=
  if oom then (ex, None)
  else (mkExecutor ({[next_id ex]} ∪ callbacks ex) (S (next_id ex)), Some (next_id ex)).

(** Modelled from the spec: [removeCallbackById] removes the callback and
    tells whether it was there. *)
Definition removeCallbackById (ex : IExecutor) (callback_id : Id) : IExecutor * bool :=
  (mkExecutor (callbacks ex ∖ {[callback_id]}) (next_id ex),
   bool_decide (callback_id ∈ callbacks ex)).

(** [Callback::Handle]: an id and a pointer to the executor, null for a
    handle that owns nothing. Executors are addressed by their position
    in the world below. *)
Record Handle : Type := mkHandle
  { id_ : Id;
    executor_ : option nat }.

(** The executors, the handle objects alive (by address), and the calls
    of [removeCallbackById] that handles have made so far, newest first. *)
Record World : Type := mkWorld
  { executors : list IExecutor;
    handles : gmap nat Handle;
    removals : list (nat * Id) }.

(** [Handle()]. *)
Definition default_handle : Handle := mkHandle 0 None.

Definition construct_default (a : nat) (w : World) : World :=
  mkWorld (executors w) (<[a := default_handle]> (handles w)) (removals w).

(** [IExecutor::registerCallback], its result constructed at address [a]:
    a handle owning the new callback, or nothing ([nullopt]) when the
    callback could not be appended. *)
Definition registerCallback (e : nat) (oom : bool) (a : nat) (w : World) : World :=
  match executors w !! e with
  | None => w
  | Some ex =>
      match appendCallback ex oom with
      | (ex1, Some callback_id) =>
          mkWorld (<[e := ex1]> (executors w))
                  (<[a := mkHandle callback_id (Some e)]> (handles w))
                  (removals w)
      | (_, None) => w
      end
  end.

(** [Handle::reset]. *)
Definition reset (a : nat) (w : World) : World :=
  match handles w !! a with
  | None => w
  | Some h =>
      match executor_ h with
      | None => w
      | Some e =>
          mkWorld (match executors w !! e with
                   | Some ex => <[e := (removeCallbackById ex (id_ h)).1]> (executors w)
                   | None => executors w
                   end)
                  (<[a := mkHandle (id_ h) None]> (handles w))
                  ((e, id_ h) :: removals w)
      end
  end.

(** [Handle::moveFrom(other)], statement by statement; [this] and [other]
    may be the same object. *)
Definition moveFrom (this other : nat) (w : World) : World :=
  let w1 := reset this w in
  match handles w1 !! this, handles w1 !! other with
  | Some h_this, Some h_other =>
      (* id_ = other.id_ *)
      let hs1 := <[this := mkHandle (id_ h_other) (executor_ h_this)]> (handles w1) in
      (* std::exchange(other.executor_, nullptr) *)
      let old := hs1 !! other ≫= executor_ in
      let hs2 := alter (λ h, mkHandle (id_ h) None) other hs1 in
      (* executor_ = the exchanged value *)
      let hs3 := alter (λ h, mkHandle (id_ h) old) this hs2 in
      mkWorld (executors w1) hs3 (removals w1)
  | _, _ => w1
  end.

(** [Handle(Handle&& other)]: the members take their defaults, then
    [moveFrom(other)]. *)
Definition move_construct (a other : nat) (w : World) : World :=
  moveFrom a other (construct_default a w).

(** [operator=(Handle&& other)]. *)
Definition move_assign (this other : nat) (w : World) : World :=
  moveFrom this other w.

(** [~Handle()]: [reset()], and the object is gone. *)
Definition destroy (a : nat) (w : World) : World :=
  let w1 := reset a w in
  mkWorld (executors w1) (delete a (handles w1)) (removals w1).

(** What a program can do with handles. There is no copying: the copy
    constructor and copy assignment are deleted. [OpAutoRemove] is the
    executor itself dropping a callback (one registered as auto-remove,
    at its execution). *)
Inductive Op : Type :=
| OpDefault (a : nat)
| OpRegister (e : nat) (oom : bool) (a : nat)
| OpMoveConstruct (a other : nat)
| OpMoveAssign (this other : nat)
| OpReset (a : nat)
| OpDestroy (a : nat)
| OpAutoRemove (e : nat) (callback_id : Id).

(** Objects are constructed at addresses that are free, and used only
    while they are alive; anything else is not a program. *)
Definition step (op : Op) (w : World) : World :=
  match op with
  | OpDefault a =>
      if decide (handles w !! a = None) then construct_default a w else w
  | OpRegister e oom a =>
      if decide (handles w !! a = None) then registerCallback e oom a w else w
  | OpMoveConstruct a other =>
      if decide (handles w !! a = None ∧ is_Some (handles w !! other))
      then move_construct a other w else w
  | OpMoveAssign this other =>
      if decide (is_Some (handles w !! this) ∧ is_Some (handles w !! other))
      then move_assign this other w else w
  | OpReset a => reset a w
  | OpDestroy a => destroy a w
  | OpAutoRemove e callback_id =>
      match executors w !! e with
      | Some ex =>
          mkWorld (<[e := (removeCallbackById ex callback_id).1]> (executors w))
                  (handles w) (removals w)
      | None => w
      end
  end.

Definition exec (ops : list Op) (w : World) : World := foldl (λ w op, step op w) w ops.

Definition initial (executor_count : nat) : World :=
  mkWorld (replicate executor_count empty_executor) ∅ [].

(** The handle at [a] owns callback [callback_id] of executor [e]. *)
Definition owns (w : World) (a e : nat) (callback_id : Id) : Prop :=
  handles w !! a = Some (mkHandle callback_id (Some e)).

(** A handle that owns nothing: default-constructed, reset or moved
    from. *)
Definition inert (w : World) (a : nat) : Prop :=
  ∃ h, handles w !! a = Some h ∧ executor_ h = None.

(** Every callback has at most one owner, no owned callback has been
    removed through a handle, and no callback has been removed through a
    handle twice. *)
Definition ownership_invariant (w : World) : Prop :=
  (∀ a e callback_id, owns w a e callback_id →
     (∃ ex, executors w !! e = Some ex ∧ callback_id < next_id ex) ∧
     (e, callback_id) ∉ removals w) ∧
  (∀ a b e callback_id, owns w a e callback_id → owns w b e callback_id → a = b) ∧
  NoDup (removals w) ∧
  (∀ e callback_id, (e, callback_id) ∈ removals w →
     ∃ ex, executors w !! e = Some ex ∧ callback_id < next_id ex).

(** Executor [e] exists and has handed out [callback_id]. *)
Definition handed_out (exs : list IExecutor) (e : nat) (callback_id : Id) : Prop :=
  ∃ ex, exs !! e = Some ex ∧ callback_id < next_id ex.

(** The executors of [exs'] have handed out whatever those of [exs]
    had. *)
Definition executors_grow (exs exs' : list IExecutor) : Prop :=
  ∀ e callback_id, handed_out exs e callback_id → handed_out exs' e callback_id.

(** Every callback that an executor has handed out is owned by a handle
    or has been removed through one. *)
Definition no_callback_leaked (w : World) : Prop :=
  ∀ e callback_id, handed_out (executors w) e callback_id →
    (∃ a, owns w a e callback_id) ∨ (e, callback_id) ∈ removals w.

(** ** Properties *)

Lemma reset_owner w a e callback_id :
  owns w a e callback_id →
  reset a w =
  mkWorld (match executors w !! e with
           | Some ex => <[e := (removeCallbackById ex callback_id).1]> (executors w)
           | None => executors w
           end)
          (<[a := mkHandle callback_id None]> (handles w))
          ((e, callback_id) :: removals w).
Proof. unfold owns, reset. by intros ->. Qed.

Lemma reset_inert w a : inert w a → reset a w = w.
Proof. intros (h & Hh & He). unfold reset. by rewrite Hh, He. Qed.

Lemma reset_absent w a : handles w !! a = None → reset a w = w.
Proof. intros Ha. unfold reset. by rewrite Ha. Qed.

(** After [reset] the handle, if there is one, owns nothing. *)
Lemma reset_makes_inert w a h :
  handles w !! a = Some h →
  handles (reset a w) !! a = Some (mkHandle (id_ h) None).
Proof.
  intros Hh. unfold reset. rewrite Hh. destruct h as [i [e|]]; simpl.
  - by rewrite lookup_insert_eq.
  - done.
Qed.

Lemma reset_other w a b : a ≠ b → handles (reset a w) !! b = handles w !! b.
Proof.
  intros Hne. unfold reset. destruct (handles w !! a) as [[i [e|]]|]; simpl; try done.
  by rewrite lookup_insert_ne.
Qed.

(** Moving from another object: the target gives up what it owned, then
    takes over what the source owned, and the source is left inert. *)
Lemma moveFrom_other w this other h_this h_other :
  this ≠ other →
  handles w !! this = Some h_this → handles w !! other = Some h_other →
  moveFrom this other w =
  mkWorld (executors (reset this w))
          (<[this := h_other]>
             (<[other := mkHandle (id_ h_other) None]> (handles (reset this w))))
          (removals (reset this w)).
Proof.
  intros Hne Hthis Hother. unfold moveFrom.
  pose proof (reset_other w this other Hne) as Ho. rewrite Hother in Ho.
  rewrite (reset_makes_inert _ _ _ Hthis), Ho.
  f_equal. apply map_eq. intros j.
  destruct (decide (j = this)) as [->|Hj1]; [|destruct (decide (j = other)) as [->|Hj2]];
    simplify_map_eq; try done.
  by destruct h_other.
Qed.

(** Moving a handle onto itself resets it. *)
Lemma moveFrom_self w a h :
  handles w !! a = Some h → moveFrom a a w = reset a w.
Proof.
  intros Hh. unfold moveFrom. pose proof (reset_makes_inert _ _ _ Hh) as Hr.
  rewrite Hr. destruct (reset a w) as [exs hs rs]. simpl in *. f_equal.
  apply map_eq. intros j. destruct (decide (j = a)) as [->|Hj]; by simplify_map_eq.
Qed.

(** ** The ownership invariant *)

Lemma executors_grow_update exs e ex ex' :
  exs !! e = Some ex → next_id ex ≤ next_id ex' →
  executors_grow exs (<[e := ex']> exs).
Proof.
  intros He Hle e0 i (ex0 & Hex0 & Hi). destruct (decide (e0 = e)) as [->|Hne].
  - exists ex'. split; [apply list_lookup_insert_eq; by eapply lookup_lt_Some|].
    simplify_eq. lia.
  - exists ex0. by rewrite list_lookup_insert_ne.
Qed.

(** Ownership moved around without any removal: if every owner in [w']
    stands for an owner in [w], different owners for different ones, the
    invariant carries over. *)
Lemma ownership_invariant_rename (rename : nat → nat) w w' :
  removals w' = removals w →
  executors_grow (executors w) (executors w') →
  (∀ a e callback_id, owns w' a e callback_id → owns w (rename a) e callback_id) →
  (∀ a b e callback_id,
     owns w' a e callback_id → owns w' b e callback_id → rename a = rename b → a = b) →
  ownership_invariant w → ownership_invariant w'.
Proof.
  intros Hrem Hgrow Hown Hinj (Hknown & Huniq & Hnd & Hhanded).
  unfold ownership_invariant. rewrite Hrem. split_and!; [| |done|].
  - intros a e i Ha. destruct (Hknown _ _ _ (Hown _ _ _ Ha)) as [Hex Hnot].
    split; [by apply Hgrow | done].
  - intros a b e i Ha Hb. apply (Hinj a b e i Ha Hb).
    by apply (Huniq _ _ e i); apply Hown.
  - intros e i Hin. by apply Hgrow, Hhanded.
Qed.

Lemma reset_invariant w a : ownership_invariant w → ownership_invariant (reset a w).
Proof.
  intros Hinv. destruct (handles w !! a) as [[i [e|]]|] eqn:Ha.
  2:{ rewrite reset_inert; [done|]. by eexists. }
  2:{ by rewrite reset_absent. }
  rewrite (reset_owner w a e i Ha).
  destruct Hinv as (Hknown & Huniq & Hnd & Hhanded).
  destruct (Hknown a e i Ha) as [(ex & Hex & Hi) Hnot].
  rewrite Hex.
  assert (Hgrow : executors_grow (executors w)
                    (<[e := (removeCallbackById ex i).1]> (executors w))).
  { by eapply executors_grow_update. }
  assert (Hold : ∀ b e' i',
    owns (mkWorld (<[e := (removeCallbackById ex i).1]> (executors w))
                  (<[a := mkHandle i None]> (handles w))
                  ((e, i) :: removals w)) b e' i' →
    b ≠ a ∧ owns w b e' i').
  { unfold owns. simpl. intros b e' i' Hb.
    destruct (decide (b = a)) as [->|Hne]; by simplify_map_eq. }
  split_and!; simpl.
  - intros b e' i' Hb. destruct (Hold _ _ _ Hb) as [Hne Hb'].
    destruct (Hknown _ _ _ Hb') as [Hex' Hnot']. split; [by apply Hgrow|].
    intros [[= -> ->]|Hin]%elem_of_cons; [|done].
    by destruct Hne; apply (Huniq _ _ e i).
  - intros b c e' i' Hb Hc. destruct (Hold _ _ _ Hb) as [_ Hb'].
    destruct (Hold _ _ _ Hc) as [_ Hc']. by apply (Huniq _ _ e' i').
  - by constructor.
  - intros e' i' [[= -> ->]|Hin]%elem_of_cons; apply Hgrow; [by exists ex | by apply Hhanded].
Qed.

Lemma construct_default_invariant w a :
  ownership_invariant w → ownership_invariant (construct_default a w).
Proof.
  apply (ownership_invariant_rename id); [done | by intros e i | |].
  - unfold owns. simpl. intros b e i Hb.
    destruct (decide (b = a)) as [->|Hne]; by simplify_map_eq.
  - by intros b c e i _ _.
Qed.

Lemma registerCallback_invariant w e oom a :
  ownership_invariant w → ownership_invariant (registerCallback e oom a w).
Proof.
  intros Hinv. unfold registerCallback.
  destruct (executors w !! e) as [ex|] eqn:Hex; [|done].
  unfold appendCallback. destruct oom; [done|].
  destruct Hinv as (Hknown & Huniq & Hnd & Hhanded).
  set (ex1 := mkExecutor _ _).
  assert (Hgrow : executors_grow (executors w) (<[e := ex1]> (executors w))).
  { eapply executors_grow_update; [done|]. simpl. lia. }
  assert (Hnew : handed_out (<[e := ex1]> (executors w)) e (next_id ex)).
  { exists ex1. split; [apply list_lookup_insert_eq; by eapply lookup_lt_Some|].
    simpl. lia. }
  assert (Hfresh : ∀ i, handed_out (executors w) e i → i ≠ next_id ex).
  { intros i (ex0 & Hex0 & Hi) ->. simplify_eq. lia. }
  assert (Hold : ∀ b e' i',
    owns (mkWorld (<[e := ex1]> (executors w))
                  (<[a := mkHandle (next_id ex) (Some e)]> (handles w))
                  (removals w)) b e' i' →
    (b = a ∧ e' = e ∧ i' = next_id ex) ∨ (b ≠ a ∧ owns w b e' i')).
  { unfold owns. simpl. intros b e' i' Hb.
    destruct (decide (b = a)) as [->|Hne]; simplify_map_eq; [by left | by right]. }
  split_and!; simpl; [| |done|].
  - intros b e' i' Hb. destruct (Hold _ _ _ Hb) as [(-> & -> & ->)|[Hne Hb']].
    + split; [done|]. intros Hin. by apply (Hfresh _ (Hhanded _ _ Hin)).
    + destruct (Hknown _ _ _ Hb') as [Hex' Hnot']. split; [by apply Hgrow | done].
  - intros b c e' i' Hb Hc.
    destruct (Hold _ _ _ Hb) as [(-> & -> & ->)|[Hne Hb']];
      destruct (Hold _ _ _ Hc) as [(-> & He & Hi)|[Hne' Hc']]; try done.
    + destruct (Hknown _ _ _ Hc') as [Hex' _]. by destruct (Hfresh _ Hex').
    + subst. destruct (Hknown _ _ _ Hb') as [Hex' _]. by destruct (Hfresh _ Hex').
    + by apply (Huniq _ _ e' i').
  - intros e' i' Hin. by apply Hgrow, Hhanded.
Qed.

(** The transfer at the end of [moveFrom], once [this] has been reset. *)
Lemma transfer_invariant w this other h_other :
  this ≠ other → inert w this → handles w !! other = Some h_other →
  ownership_invariant w →
  ownership_invariant
    (mkWorld (executors w)
             (<[this := h_other]> (<[other := mkHandle (id_ h_other) None]> (handles w)))
             (removals w)).
Proof.
  intros Hne (h_this & Hthis & Hinert) Hother.
  apply (ownership_invariant_rename (λ a, if decide (a = this) then other else a));
    [done | by intros e i | |].
  - unfold owns. simpl. intros b e i Hb.
    destruct (decide (b = this)) as [->|Hb1]; [by simplify_map_eq|].
    destruct (decide (b = other)) as [->|Hb2]; by simplify_map_eq.
  - unfold owns. simpl. intros b c e i Hb Hc.
    destruct (decide (b = this)) as [->|Hb1]; destruct (decide (c = this)) as [->|Hc1];
      try done; intros <-; by simplify_map_eq.
Qed.

Lemma moveFrom_invariant w this other :
  is_Some (handles w !! this) → is_Some (handles w !! other) →
  ownership_invariant w → ownership_invariant (moveFrom this other w).
Proof.
  intros [h_this Hthis] [h_other Hother] Hinv.
  destruct (decide (this = other)) as [->|Hne].
  { rewrite (moveFrom_self _ _ _ Hthis). by apply reset_invariant. }
  rewrite (moveFrom_other _ _ _ _ _ Hne Hthis Hother).
  pose proof (reset_invariant w this Hinv) as Hinv1.
  pose proof (reset_makes_inert _ _ _ Hthis) as Hinert.
  pose proof (reset_other w this other Hne) as Ho. rewrite Hother in Ho.
  destruct (reset this w) as [exs hs rs]. simpl in *.
  apply (transfer_invariant (mkWorld exs hs rs)); [done | | done | done].
  by eexists.
Qed.

Lemma destroy_invariant w a : ownership_invariant w → ownership_invariant (destroy a w).
Proof.
  intros Hinv. unfold destroy. apply (reset_invariant w a) in Hinv.
  revert Hinv. apply (ownership_invariant_rename id); [done | by intros e i | |].
  - unfold owns. simpl. intros b e i Hb.
    destruct (decide (b = a)) as [->|Hne]; by simplify_map_eq.
  - by intros b c e i _ _.
Qed.

Lemma step_invariant op w : ownership_invariant w → ownership_invariant (step op w).
Proof.
  intros Hinv. destruct op as [a|e oom a|a other|this other|a|a|e i]; simpl.
  - case_decide; [by apply construct_default_invariant | done].
  - case_decide; [by apply registerCallback_invariant | done].
  - case_decide as H; [|done]. destruct H as [Hfresh [h Hother]].
    unfold move_construct. apply moveFrom_invariant.
    + simpl. rewrite lookup_insert_eq. eauto.
    + simpl. rewrite lookup_insert_ne; [eauto|]. intros ->. by rewrite Hfresh in Hother.
    + by apply construct_default_invariant.
  - case_decide as H; [|done]. destruct H. by apply moveFrom_invariant.
  - by apply reset_invariant.
  - by apply destroy_invariant.
  - destruct (executors w !! e) as [ex|] eqn:Hex; [|done].
    revert Hinv. apply (ownership_invariant_rename id); [done | | done |].
    + simpl. by eapply executors_grow_update.
    + by intros b c e' i' _ _.
Qed.

Lemma exec_ownership_invariant ops w :
  ownership_invariant w → ownership_invariant (exec ops w).
Proof.
  revert w. induction ops as [|op ops IH]; intros w Hinv; simpl; [done|].
  by apply IH, step_invariant.
Qed.

Lemma initial_invariant executor_count : ownership_invariant (initial executor_count).
Proof.
  split_and!.
  - unfold owns. simpl. intros a e i Ha. by rewrite lookup_empty in Ha.
  - unfold owns. simpl. intros a b e i Ha. by rewrite lookup_empty in Ha.
  - constructor.
  - simpl. by intros e i ?%elem_of_nil.
Qed.

Lemma reachable_invariant executor_count ops :
  ownership_invariant (exec ops (initial executor_count)).
Proof. apply exec_ownership_invariant, initial_invariant. Qed.

Lemma destroy_owner w a e callback_id :
  owns w a e callback_id →
  destroy a w =
  mkWorld (match executors w !! e with
           | Some ex => <[e := (removeCallbackById ex callback_id).1]> (executors w)
           | None => executors w
           end)
          (delete a (handles w))
          ((e, callback_id) :: removals w).
Proof.
  intros Ha. unfold destroy. rewrite (reset_owner _ _ _ _ Ha). simpl.
  by rewrite delete_insert_eq.
Qed.

Lemma destroy_inert w a :
  inert w a → destroy a w = mkWorld (executors w) (delete a (handles w)) (removals w).
Proof. intros Ha. unfold destroy. by rewrite (reset_inert _ _ Ha). Qed.

Lemma move_construct_owner w a other e callback_id :
  handles w !! a = None → owns w other e callback_id →
  move_construct a other w =
  mkWorld (executors w)
          (<[a := mkHandle callback_id (Some e)]>
             (<[other := mkHandle callback_id None]> (handles w)))
          (removals w).
Proof.
  intros Ha Ho. assert (a ≠ other) as Hne.
  { intros ->. unfold owns in Ho. by rewrite Ha in Ho. }
  unfold move_construct.
  rewrite (moveFrom_other _ a other default_handle (mkHandle callback_id (Some e)) Hne).
  - rewrite reset_inert.
    + simpl. f_equal. apply map_eq. intros j.
      destruct (decide (j = a)) as [->|Hj1]; [by simplify_map_eq|].
      destruct (decide (j = other)) as [->|Hj2]; by simplify_map_eq.
    + exists default_handle. simpl. by rewrite lookup_insert_eq.
  - simpl. by rewrite lookup_insert_eq.
  - simpl. by rewrite lookup_insert_ne.
Qed.

(** C9: a registration handle cannot be copied, only moved, so in every
    world a program can reach a callback has at most one owning handle.
    Registering yields a handle that owns a callback never removed
    before. Resetting or destroying a handle that owns a callback calls
    [removeCallbackById] for that callback on its executor, once, and the
    callback is gone from the executor. A handle that owns nothing, be it
    default-constructed, reset or moved from, removes nothing when it is
    reset or destroyed. Move construction and move assignment hand the
    callback of the source over to the target and leave the source owning
    nothing, without removing the callback. No callback is removed
    through handles more than once. *)
Theorem handle_semantics (executor_count : nat) (ops : list Op) :
  let w := exec ops (initial executor_count) in
  (∀ a b e callback_id, owns w a e callback_id → owns w b e callback_id → a = b) ∧
  (∀ e a ex, handles w !! a = None → executors w !! e = Some ex →
     let w' := step (OpRegister e false a) w in
     owns w' a e (next_id ex) ∧
     (∃ ex', executors w' !! e = Some ex' ∧ next_id ex ∈ callbacks ex') ∧
     (e, next_id ex) ∉ removals w') ∧
  (∀ e a, handles w !! a = None → step (OpRegister e true a) w = w) ∧
  (∀ a e callback_id, owns w a e callback_id →
     ∃ ex, executors w !! e = Some ex ∧
       (callback_id ∉ callbacks (removeCallbackById ex callback_id).1) ∧
       reset a w = mkWorld (<[e := (removeCallbackById ex callback_id).1]> (executors w))
                           (<[a := mkHandle callback_id None]> (handles w))
                           ((e, callback_id) :: removals w) ∧
       inert (reset a w) a ∧
       destroy a w = mkWorld (<[e := (removeCallbackById ex callback_id).1]> (executors w))
                             (delete a (handles w))
                             ((e, callback_id) :: removals w)) ∧
  (∀ a, inert w a →
     reset a w = w ∧
     destroy a w = mkWorld (executors w) (delete a (handles w)) (removals w)) ∧
  (∀ a, handles w !! a = None → inert (step (OpDefault a) w) a) ∧
  (∀ a other e callback_id, handles w !! a = None → owns w other e callback_id →
     let w' := step (OpMoveConstruct a other) w in
     owns w' a e callback_id ∧ inert w' other ∧
     executors w' = executors w ∧ removals w' = removals w) ∧
  (∀ this other e callback_id,
     is_Some (handles w !! this) → this ≠ other → owns w other e callback_id →
     let w' := step (OpMoveAssign this other) w in
     owns w' this e callback_id ∧ inert w' other ∧
     executors w' = executors (reset this w) ∧ removals w' = removals (reset this w)) ∧
  (∀ a, is_Some (handles w !! a) → step (OpMoveAssign a a) w = reset a w) ∧
  NoDup (removals w).
Proof.
  intros w. pose proof (reachable_invariant executor_count ops) as Hinv.
  fold w in Hinv. clearbody w.
  destruct Hinv as (Hknown & Huniq & Hnd & Hhanded).
  split_and!.
  - exact Huniq.
  - intros e a ex Ha Hex w'. subst w'. simpl. rewrite decide_True by done.
    unfold registerCallback. rewrite Hex. simpl. split_and!.
    + unfold owns. simpl. by rewrite lookup_insert_eq.
    + eexists. split; [apply list_lookup_insert_eq; by eapply lookup_lt_Some|].
      simpl. apply elem_of_union. left. by apply elem_of_singleton.
    + intros Hin. destruct (Hhanded _ _ Hin) as (ex0 & Hex0 & Hlt). simplify_eq. lia.
  - intros e a Ha. simpl. rewrite decide_True by done.
    unfold registerCallback. by destruct (executors w !! e).
  - intros a e i Ha. destruct (Hknown _ _ _ Ha) as [(ex & Hex & Hi) Hnot].
    exists ex. split_and!; [done | | | |].
    + simpl. rewrite elem_of_difference, elem_of_singleton. tauto.
    + by rewrite (reset_owner _ _ _ _ Ha), Hex.
    + eexists. split; [by eapply reset_makes_inert | done].
    + by rewrite (destroy_owner _ _ _ _ Ha), Hex.
  - intros a Ha. split; [by apply reset_inert | by apply destroy_inert].
  - intros a Ha. simpl. rewrite decide_True by done.
    exists default_handle. simpl. by rewrite lookup_insert_eq.
  - intros a other e i Ha Ho w'. subst w'. simpl.
    rewrite decide_True by (split; [done | by eexists]).
    rewrite (move_construct_owner _ _ _ _ _ Ha Ho).
    assert (a ≠ other) as Hne.
    { intros ->. unfold owns in Ho. by rewrite Ha in Ho. }
    split_and!; [| |done|done].
    + unfold owns. simpl. by rewrite lookup_insert_eq.
    + exists (mkHandle i None). simpl. split; [|done].
      rewrite lookup_insert_ne by done. by rewrite lookup_insert_eq.
  - intros this other e i [h_this Hthis] Hne Ho w'. subst w'. simpl.
    rewrite decide_True by (split; by eexists).
    unfold move_assign. rewrite (moveFrom_other _ _ _ _ _ Hne Hthis Ho).
    split_and!; [| |done|done].
    + unfold owns. simpl. by rewrite lookup_insert_eq.
    + exists (mkHandle i None). simpl. split; [|done].
      rewrite lookup_insert_ne by done. by rewrite lookup_insert_eq.
  - intros a [h Ha]. simpl. rewrite decide_True by (split; by eexists).
    by apply moveFrom_self with h.
  - exact Hnd.
Qed.

(** A callback is registered, its handle moved twice, and all three
    handle objects destroyed, the moved-from ones first: one removal in
    all, made by the last owner. *)
Example moved_handle_removes_once :
  let before := [OpRegister 0 false 1; OpMoveConstruct 2 1; OpDefault 3; OpMoveAssign 3 2;
                 OpDestroy 1; OpDestroy 2] in
  removals (exec before (initial 1)) = [] ∧
  callbacks <$> executors (exec before (initial 1)) = [{[0%nat]}] ∧
  removals (exec (before ++ [OpDestroy 3]) (initial 1)) = [(0%nat, 0%nat)] ∧
  callbacks <$> executors (exec (before ++ [OpDestroy 3]) (initial 1)) = [∅] ∧
  handles (exec (before ++ [OpDestroy 3]) (initial 1)) = ∅.
Proof. by vm_compute. Qed.

(** The theorem at work: a registered handle is moved to a new object,
    which becomes the owner while the source is left inert and nothing is
    removed; destroying the new owner removes the callback. *)
Lemma handle_semantics_witness :
  let w := exec [OpRegister 0 false 1] (initial 1) in
  let w' := step (OpMoveConstruct 2 1) w in
  owns w 1 0 0 ∧
  (owns w' 2 0 0 ∧ inert w' 1 ∧ executors w' = executors w ∧ removals w' = removals w) ∧
  NoDup (removals (exec [OpRegister 0 false 1; OpMoveConstruct 2 1; OpDestroy 1; OpDestroy 2]
                        (initial 1))).
Proof.
  assert (Hown : owns (exec [OpRegister 0 false 1] (initial 1)) 1 0 0) by by vm_compute.
  split; [exact Hown|]. split.
  - destruct (handle_semantics 1 [OpRegister 0 false 1])
      as (_ & _ & _ & _ & _ & _ & Hmove & _).
    apply Hmove; [by vm_compute | exact Hown].
  - apply (handle_semantics 1
             [OpRegister 0 false 1; OpMoveConstruct 2 1; OpDestroy 1; OpDestroy 2]).
Defined.

Lemma handed_out_update exs e ex ex' e0 callback_id :
  exs !! e = Some ex → next_id ex' = next_id ex →
  handed_out (<[e := ex']> exs) e0 callback_id → handed_out exs e0 callback_id.
Proof.
  intros He Hnext (ex0 & Hex0 & Hi). destruct (decide (e0 = e)) as [->|Hne].
  - rewrite list_lookup_insert_eq in Hex0 by by eapply lookup_lt_Some.
    simplify_eq. exists ex. split; [done | lia].
  - rewrite list_lookup_insert_ne in Hex0 by done. by exists ex0.
Qed.

Lemma reset_executors w a e0 callback_id :
  handed_out (executors (reset a w)) e0 callback_id →
  handed_out (executors w) e0 callback_id.
Proof.
  unfold reset. destruct (handles w !! a) as [[i [e|]]|]; simpl; try done.
  destruct (executors w !! e) as [ex|] eqn:Hex; [|done].
  by apply handed_out_update with ex.
Qed.

Lemma reset_no_leak w a : no_callback_leaked w → no_callback_leaked (reset a w).
Proof.
  intros Hw e0 i0 Hout. apply reset_executors in Hout.
  destruct (Hw e0 i0 Hout) as [[b Hb]|Hin].
  - destruct (handles w !! a) as [[i [e|]]|] eqn:Ha.
    + rewrite (reset_owner w a e i Ha). simpl.
      destruct (decide (b = a)) as [->|Hne].
      * unfold owns in Hb. simplify_eq. right. by left.
      * left. exists b. unfold owns. simpl. by rewrite lookup_insert_ne.
    + rewrite reset_inert by by eexists. left. by exists b.
    + rewrite reset_absent by done. left. by exists b.
  - right. unfold reset. destruct (handles w !! a) as [[i [e|]]|]; simpl; try done.
    by right.
Qed.

Lemma destroy_no_leak w a : no_callback_leaked w → no_callback_leaked (destroy a w).
Proof.
  intros Hw. apply (reset_no_leak w a) in Hw. intros e0 i0 Hout.
  destruct (Hw e0 i0 Hout) as [[b Hb]|Hin]; [|by right].
  left. exists b. unfold owns, destroy in *. simpl.
  destruct (decide (b = a)) as [->|Hne]; [|by rewrite lookup_delete_ne].
  destruct (handles w !! a) as [h|] eqn:Ha.
  - rewrite (reset_makes_inert _ _ _ Ha) in Hb. by destruct h.
  - rewrite reset_absent in Hb by done. congruence.
Qed.

(** Moving into an object that owns nothing loses no callback. *)
Lemma transfer_no_leak w this other h_other :
  this ≠ other → inert w this → handles w !! other = Some h_other →
  no_callback_leaked w →
  no_callback_leaked
    (mkWorld (executors w)
             (<[this := h_other]> (<[other := mkHandle (id_ h_other) None]> (handles w)))
             (removals w)).
Proof.
  intros Hne (h_this & Hthis & Hinert) Hother Hw e0 i0 Hout.
  destruct (Hw e0 i0 Hout) as [[b Hb]|Hin]; [|by right].
  left. unfold owns in *. simpl.
  destruct (decide (b = other)) as [->|Hb1].
  - exists this. rewrite lookup_insert_eq. congruence.
  - exists b. destruct (decide (b = this)) as [->|Hb2].
    + rewrite Hthis in Hb. destruct h_this. simpl in *. congruence.
    + by rewrite !lookup_insert_ne.
Qed.

Lemma moveFrom_no_leak w this other :
  is_Some (handles w !! this) → is_Some (handles w !! other) →
  no_callback_leaked w → no_callback_leaked (moveFrom this other w).
Proof.
  intros [h_this Hthis] [h_other Hother] Hw.
  destruct (decide (this = other)) as [->|Hne].
  { rewrite (moveFrom_self _ _ _ Hthis). by apply reset_no_leak. }
  rewrite (moveFrom_other _ _ _ _ _ Hne Hthis Hother).
  pose proof (reset_no_leak w this Hw) as Hw1.
  pose proof (reset_makes_inert _ _ _ Hthis) as Hinert.
  pose proof (reset_other w this other Hne) as Ho. rewrite Hother in Ho.
  destruct (reset this w) as [exs hs rs]. simpl in *.
  apply (transfer_no_leak (mkWorld exs hs rs)); [done | | done | done].
  by eexists.
Qed.

Lemma step_no_leak op w : no_callback_leaked w → no_callback_leaked (step op w).
Proof.
  intros Hw. destruct op as [a|e oom a|a other|this other|a|a|e i]; simpl.
  - case_decide as Ha; [|done]. intros e0 i0 Hout.
    destruct (Hw e0 i0 Hout) as [[b Hb]|Hin]; [|by right].
    left. exists b. unfold owns in *. simpl.
    rewrite lookup_insert_ne; [done|]. intros ->. congruence.
  - case_decide as Ha; [|done]. unfold registerCallback.
    destruct (executors w !! e) as [ex|] eqn:Hex; [|done].
    destruct oom; simpl; [done|]. intros e0 i0 (ex0 & Hex0 & Hi). simpl in *.
    destruct (decide (e0 = e)) as [->|Hne].
    + rewrite list_lookup_insert_eq in Hex0 by by eapply lookup_lt_Some.
      simplify_eq. simpl in Hi.
      destruct (decide (i0 = next_id ex)) as [->|Hi0].
      * left. exists a. unfold owns. simpl. by rewrite lookup_insert_eq.
      * destruct (Hw e i0) as [[b Hb]|Hin]; [exists ex; split; [done | lia]| |by right].
        left. exists b. unfold owns in *. simpl.
        rewrite lookup_insert_ne; [done|]. intros ->. congruence.
    + rewrite list_lookup_insert_ne in Hex0 by done.
      destruct (Hw e0 i0) as [[b Hb]|Hin]; [by exists ex0| |by right].
      left. exists b. unfold owns in *. simpl.
      rewrite lookup_insert_ne; [done|]. intros ->. congruence.
  - case_decide as H; [|done]. destruct H as [Hfresh [h Hother]].
    unfold move_construct. apply moveFrom_no_leak.
    + simpl. rewrite lookup_insert_eq. eauto.
    + simpl. rewrite lookup_insert_ne; [eauto|]. intros ->. by rewrite Hfresh in Hother.
    + intros e0 i0 Hout. destruct (Hw e0 i0 Hout) as [[b Hb]|Hin]; [|by right].
      left. exists b. unfold owns in *. simpl.
      rewrite lookup_insert_ne; [done|]. intros ->. congruence.
  - case_decide as H; [|done]. destruct H. by apply moveFrom_no_leak.
  - by apply reset_no_leak.
  - by apply destroy_no_leak.
  - destruct (executors w !! e) as [ex|] eqn:Hex; [|done].
    intros e0 i0 Hout. simpl in Hout.
    apply (handed_out_update _ _ ex) in Hout; [|done..].
    destruct (Hw e0 i0 Hout) as [[b Hb]|Hin]; [left; by exists b | by right].
Qed.

Lemma exec_no_leak ops w : no_callback_leaked w → no_callback_leaked (exec ops w).
Proof.
  revert w. induction ops as [|op ops IH]; intros w Hw; simpl; [done|].
  by apply IH, step_no_leak.
Qed.

Lemma initial_no_leak executor_count : no_callback_leaked (initial executor_count).
Proof.
  intros e i (ex & Hex & Hi). simpl in Hex.
  apply lookup_replicate in Hex as [-> _]. simpl in Hi. lia.
Qed.

(** No callback is leaked: in every world a program can reach, each
    callback that an executor has handed out either is owned by exactly
    one handle that is alive or has been removed through a handle, never
    both. Once every handle is destroyed, every callback handed out has
    been removed. *)
Theorem no_callback_is_leaked (executor_count : nat) (ops : list Op) :
  let w := exec ops (initial executor_count) in
  (∀ e ex callback_id,
     executors w !! e = Some ex → callback_id < next_id ex →
     ((∃ a, owns w a e callback_id ∧ ∀ b, owns w b e callback_id → b = a) ∧
      (e, callback_id) ∉ removals w) ∨
     ((e, callback_id) ∈ removals w ∧ ∀ a, ¬ owns w a e callback_id)) ∧
  (handles w = ∅ →
   ∀ e ex callback_id,
     executors w !! e = Some ex → callback_id < next_id ex →
     (e, callback_id) ∈ removals w).
Proof.
  intros w.
  pose proof (exec_no_leak ops _ (initial_no_leak executor_count)) as Hleak.
  pose proof (reachable_invariant executor_count ops) as (Hknown & Huniq & _ & _).
  fold w in Hleak, Hknown, Huniq.
  assert (Hcases : ∀ e ex callback_id,
    executors w !! e = Some ex → callback_id < next_id ex →
    ((∃ a, owns w a e callback_id ∧ ∀ b, owns w b e callback_id → b = a) ∧
     (e, callback_id) ∉ removals w) ∨
    ((e, callback_id) ∈ removals w ∧ ∀ a, ¬ owns w a e callback_id)).
  { intros e ex i Hex Hi. destruct (Hleak e i) as [[a Ha]|Hin]; [by exists ex|left|right].
    - split; [|by apply (Hknown a)]. exists a. split; [done|].
      intros b Hb. by apply (Huniq b a e i).
    - split; [done|]. intros a Ha. by apply (Hknown a e i Ha). }
  split; [exact Hcases|].
  intros Hempty e ex i Hex Hi.
  destruct (Hcases e ex i Hex Hi) as [[(a & Ha & _) _]|[Hin _]].
  { unfold owns in Ha. rewrite Hempty in Ha. by rewrite lookup_empty in Ha. }
  done.
Qed.

(** Two callbacks, one handle moved and then dropped, the other reset:
    with no handle left both callbacks have been removed. *)
Example handles_gone_callbacks_gone :
  let w := exec [OpRegister 0 false 1; OpRegister 0 false 2; OpMoveConstruct 3 1;
                 OpDestroy 1; OpReset 2; OpDestroy 3; OpDestroy 2] (initial 1) in
  handles w = ∅ ∧ removals w = [(0, 0); (0, 1)] ∧ callbacks <$> executors w = [∅].
Proof. by vm_compute. Qed.

End Executor.

(* ================================================================== *)
(** * The node-id selector of the dynamic node-id server                *)
(* ================================================================== *)

Module NodeIDSelector.

Local Open Scope Z_scope.

(** [uint8_t] arithmetic. *)
Definition uint8 (z : Z) : Z := z `mod` 256.

Section Selector.

(** [NodeID] is declared outside the sources at hand: its largest valid
    value [NodeID::Max] and the value held by a default-constructed
    (invalid) [NodeID()] are taken as given. *)
Variable Max : Z.
Variable ValueInvalid : Z.

(** [(owner_->*is_node_id_taken_)(node_id)]. *)
Variable is_node_id_taken : Z → bool.

(** [NodeID::isUnicast], of the node id holding [value]; like the rest
    of [NodeID] it is declared outside the sources at hand. *)
Variable isUnicast : Z → bool.

(** The [// Up] loop of [findFreeNodeID]: [Some (Some id)] when it
    returns [id], [Some None] when it is left without a result, [None]
    when [fuel] iterations were not enough. *)
Fixpoint findFreeNodeID_up (fuel : nat) (candidate : Z) : option (option Z) :=
  match fuel with
  | O => None
  | S fuel' =>
      if decide (candidate <= Max) then
        if negb (is_node_id_taken candidate) then Some (Some candidate)
        else findFreeNodeID_up fuel' (uint8 (candidate + 1))
      else Some None
  end.

(** The [// Down] loop. *)
Fixpoint findFreeNodeID_down (fuel : nat) (candidate : Z) : option (option Z) :=
  match fuel with
  | O => None
  | S fuel' =>
      if decide (candidate > 0) then
        if negb (is_node_id_taken candidate) then Some (Some candidate)
        else findFreeNodeID_down fuel' (uint8 (candidate - 1))
      else Some None
  end.

(** [findFreeNodeID(preferred_node_id)]; a [uint8_t] counter cannot take
    more than 256 values on its way up or down, which bounds the
    iterations of a loop that ends at all. *)
Definition findFreeNodeID (preferred_node_id : Z) : option Z :=
  let candidate := if isUnicast preferred_node_id then preferred_node_id else Max in
  match findFreeNodeID_up 257 candidate with
  | None => None
  | Some (Some id) => Some id
  | Some None =>
      let candidate := if isUnicast preferred_node_id then preferred_node_id else Max in
      let candidate := uint8 (candidate - 1) in
      match findFreeNodeID_down 257 candidate with
      | None => None
      | Some (Some id) => Some id
      | Some None => Some ValueInvalid
      end
  end.

(** Where the search starts. *)
Definition first_candidate (preferred_node_id : Z) : Z :=
  if isUnicast preferred_node_id then preferred_node_id else Max.

Definition free (id : Z) : Prop := is_node_id_taken id = false.

(** ** Properties *)

Hypothesis Max_range : 1 <= Max < 255.

(** The unicast node ids are those from 1 to [NodeID::Max]. *)
Hypothesis isUnicast_range :
  ∀ value, 0 <= value <= 255 → isUnicast value = true ↔ 1 <= value <= Max.

Lemma first_candidate_range preferred_node_id :
  0 <= preferred_node_id <= 255 →
  1 <= first_candidate preferred_node_id <= Max.
Proof.
  intros Hp. unfold first_candidate.
  destruct (isUnicast preferred_node_id) eqn:Huni; [|lia].
  by apply isUnicast_range.
Qed.

Lemma findFreeNodeID_up_spec fuel candidate :
  0 <= candidate <= Max + 1 → Max + 1 - candidate < Z.of_nat fuel →
  (findFreeNodeID_up fuel candidate = Some None ∧
   ∀ id, candidate <= id <= Max → ¬ free id) ∨
  (∃ id, findFreeNodeID_up fuel candidate = Some (Some id) ∧
         candidate <= id <= Max ∧ free id ∧
         ∀ id', candidate <= id' < id → ¬ free id').
Proof.
  revert candidate. induction fuel as [|fuel IH]; intros candidate Hc Hfuel; [lia|].
  simpl. case_decide as Hle.
  - destruct (is_node_id_taken candidate) eqn:Htaken; simpl.
    + assert (Hnext : uint8 (candidate + 1) = candidate + 1).
      { unfold uint8. apply Z.mod_small. lia. }
      rewrite Hnext. destruct (IH (candidate + 1)) as [[-> Hall]|(id & -> & Hid & Hfree & Hall)];
        [lia | lia | left | right].
      * split; [done|]. intros id Hid. destruct (decide (id = candidate)) as [->|Hne].
        -- unfold free. by rewrite Htaken.
        -- apply Hall. lia.
      * exists id. split_and!; [done | lia | lia | done |].
        intros id' Hid'. destruct (decide (id' = candidate)) as [->|Hne].
        -- unfold free. by rewrite Htaken.
        -- apply Hall. lia.
    + right. exists candidate. split_and!; [done | lia | lia | done |]. intros; lia.
  - left. split; [done|]. intros; lia.
Qed.

Lemma findFreeNodeID_down_spec fuel candidate :
  0 <= candidate <= Max → candidate < Z.of_nat fuel →
  (findFreeNodeID_down fuel candidate = Some None ∧
   ∀ id, 1 <= id <= candidate → ¬ free id) ∨
  (∃ id, findFreeNodeID_down fuel candidate = Some (Some id) ∧
         1 <= id <= candidate ∧ free id ∧
         ∀ id', id < id' <= candidate → ¬ free id').
Proof.
  revert candidate. induction fuel as [|fuel IH]; intros candidate Hc Hfuel; [lia|].
  simpl. case_decide as Hgt.
  - destruct (is_node_id_taken candidate) eqn:Htaken; simpl.
    + assert (Hnext : uint8 (candidate - 1) = candidate - 1).
      { unfold uint8. apply Z.mod_small. lia. }
      rewrite Hnext. destruct (IH (candidate - 1)) as [[-> Hall]|(id & -> & Hid & Hfree & Hall)];
        [lia | lia | left | right].
      * split; [done|]. intros id Hid. destruct (decide (id = candidate)) as [->|Hne].
        -- unfold free. by rewrite Htaken.
        -- apply Hall. lia.
      * exists id. split_and!; [done | lia | lia | done |].
        intros id' Hid'. destruct (decide (id' = candidate)) as [->|Hne].
        -- unfold free. by rewrite Htaken.
        -- apply Hall. lia.
    + right. exists candidate. split_and!; [done | lia | lia | done |]. intros; lia.
  - left. split; [done|]. intros; lia.
Qed.

(** The whole search, by where it ends. *)
Lemma findFreeNodeID_cases preferred_node_id :
  0 <= preferred_node_id <= 255 →
  let start := first_candidate preferred_node_id in
  (∃ id, findFreeNodeID preferred_node_id = Some id ∧
         start <= id <= Max ∧ free id ∧ ∀ id', start <= id' < id → ¬ free id') ∨
  (∃ id, findFreeNodeID preferred_node_id = Some id ∧
         1 <= id < start ∧ free id ∧ ∀ id', id < id' <= Max → ¬ free id') ∨
  (findFreeNodeID preferred_node_id = Some ValueInvalid ∧
   ∀ id, 1 <= id <= Max → ¬ free id).
Proof.
  intros Hp start. pose proof (first_candidate_range preferred_node_id Hp) as Hstart.
  fold start in Hstart. unfold findFreeNodeID. fold (first_candidate preferred_node_id).
  fold start.
  destruct (findFreeNodeID_up_spec 257 start) as [[-> Hup]|(id & -> & Hid & Hfree & Hall)];
    [lia | lia | | by left; exists id].
  right. assert (Hprev : uint8 (start - 1) = start - 1).
  { unfold uint8. apply Z.mod_small. lia. }
  rewrite Hprev.
  destruct (findFreeNodeID_down_spec 257 (start - 1))
    as [[-> Hdown]|(id & -> & Hid & Hfree & Hall)]; [lia | lia | right | left].
  - split; [done|]. intros id Hid.
    destruct (decide (id < start)); [apply Hdown | apply Hup]; lia.
  - exists id. split_and!; [done | lia | lia | done |].
    intros id' Hid'. destruct (decide (id' < start)); [apply Hall | apply Hup]; lia.
Qed.

(** [findFreeNodeID] always returns, and what it returns is a free
    unicast node id whenever there is one: the invalid node id comes back
    exactly when every unicast id from 1 to [NodeID::Max] is taken. *)
Theorem findFreeNodeID_free_or_exhausted preferred_node_id :
  Max < ValueInvalid →
  0 <= preferred_node_id <= 255 →
  ∃ id, findFreeNodeID preferred_node_id = Some id ∧
        (id ≠ ValueInvalid → isUnicast id = true ∧ is_node_id_taken id = false) ∧
        (id = ValueInvalid ↔
         ∀ other, 0 <= other <= 255 → isUnicast other = true →
                  is_node_id_taken other = true).
Proof.
  intros Hinvalid Hp.
  assert (Huni : ∀ id, isUnicast id = true → 0 <= id <= 255 → 1 <= id <= Max).
  { intros id Hid Hrange. by apply isUnicast_range. }
  assert (Huni' : ∀ id, 1 <= id <= Max → isUnicast id = true).
  { intros id Hid. apply isUnicast_range; lia. }
  assert (Hfound : ∀ id, 1 <= id <= Max → free id →
    (id ≠ ValueInvalid → isUnicast id = true ∧ is_node_id_taken id = false) ∧
    (id = ValueInvalid ↔
     ∀ other, 0 <= other <= 255 → isUnicast other = true →
              is_node_id_taken other = true)).
  { intros id Hid Hfree. split; [by auto|]. split; [lia|].
    intros Hall. specialize (Hall id ltac:(lia) (Huni' id Hid)).
    unfold free in Hfree. congruence. }
  destruct (findFreeNodeID_cases preferred_node_id Hp)
    as [(id & Hres & Hid & Hfree & _)|[(id & Hres & Hid & Hfree & _)|[Hres Hall]]].
  - exists id. split; [done|]. pose proof (first_candidate_range _ Hp). apply Hfound; [lia | done].
  - exists id. split; [done|]. pose proof (first_candidate_range _ Hp). apply Hfound; [lia | done].
  - exists ValueInvalid. split; [done|]. split; [done|]. split; [|done].
    intros _ other Hrange Hother.
    destruct (is_node_id_taken other) eqn:Htaken; [done|].
    by destruct (Hall other (Huni _ Hother Hrange)).
Qed.

(** The search order of [findFreeNodeID]: it starts at the preferred id
    (at [NodeID::Max] when the preferred id is not unicast), goes up to
    [NodeID::Max] and only then down from below the start. So a preferred
    unicast id that is free is the result; otherwise the result is the
    smallest free id above the start, or, when there is none, the largest
    free id below it. *)
Theorem findFreeNodeID_nearest preferred_node_id id :
  0 <= preferred_node_id <= 255 →
  findFreeNodeID preferred_node_id = Some id →
  let start := first_candidate preferred_node_id in
  (isUnicast preferred_node_id = true → is_node_id_taken preferred_node_id = false →
   id = preferred_node_id) ∧
  (∀ other, start <= other <= Max → is_node_id_taken other = false →
            start <= id <= other) ∧
  ((∀ other, start <= other <= Max → is_node_id_taken other = true) →
   ∀ other, 1 <= other < start → is_node_id_taken other = false →
            other <= id < start).
Proof.
  intros Hp Hres start. pose proof (first_candidate_range _ Hp) as Hstart.
  fold start in Hstart.
  assert (Hnot : ∀ c, ¬ free c → is_node_id_taken c = false → False).
  { unfold free. intros c Hc Hf. by apply Hc. }
  destruct (findFreeNodeID_cases preferred_node_id Hp)
    as [(id' & Hres' & Hid & Hfree & Hbelow)|
        [(id' & Hres' & Hid & Hfree & Habove)|[Hres' Hall]]];
    fold start in Hid || idtac; rewrite Hres in Hres'; injection Hres' as <-.
  - fold start in Hbelow. split_and!.
    + intros Huni Hfree'. unfold start, first_candidate in *. rewrite Huni in *.
      destruct (decide (id = preferred_node_id)) as [|Hne]; [done|].
      destruct (Hnot preferred_node_id); [apply Hbelow; lia | done].
    + intros other Hother Hfree'. destruct (decide (id <= other)) as [|Hgt]; [lia|].
      destruct (Hnot other); [apply Hbelow; lia | done].
    + intros Hall other Hother Hfree'. unfold free in Hfree.
      rewrite Hall in Hfree by lia. done.
  - split_and!.
    + intros Huni Hfree'. unfold start, first_candidate in *. rewrite Huni in *.
      destruct (Hnot preferred_node_id); [apply Habove; lia | done].
    + intros other Hother Hfree'. destruct (Hnot other); [apply Habove; lia | done].
    + intros _ other Hother Hfree'. destruct (decide (other <= id)) as [|Hgt]; [lia|].
      destruct (Hnot other); [apply Habove; lia | done].
  - split_and!.
    + intros Huni Hfree'. unfold start, first_candidate in *. rewrite Huni in *.
      destruct (Hnot preferred_node_id); [apply Hall; lia | done].
    + intros other Hother Hfree'. destruct (Hnot other); [apply Hall; lia | done].
    + intros _ other Hother Hfree'. destruct (Hnot other); [apply Hall; lia | done].
Qed.

End Selector.

(** An owner for which the ids 100 to 127 are taken, with the constants
    of [NodeID] as libuavcan has them: 7-bit node ids and the invalid
    value 255. *)
Definition upper_ids_taken (id : Z) : bool := bool_decide (100 <= id).

Definition isUnicast_7bit (value : Z) : bool := bool_decide (1 <= value <= 127).

Lemma isUnicast_7bit_range value :
  0 <= value <= 255 → isUnicast_7bit value = true ↔ 1 <= value <= 127.
Proof. intros _. unfold isUnicast_7bit. by rewrite bool_decide_eq_true. Qed.

Lemma findFreeNodeID_free_or_exhausted_witness :
  ∃ id, findFreeNodeID 127 255 upper_ids_taken isUnicast_7bit 120 = Some id ∧
        (id ≠ 255 → isUnicast_7bit id = true ∧ upper_ids_taken id = false) ∧
        (id = 255 ↔
         ∀ other, 0 <= other <= 255 → isUnicast_7bit other = true →
                  upper_ids_taken other = true).
Proof.
  apply (findFreeNodeID_free_or_exhausted 127 255 upper_ids_taken isUnicast_7bit);
    [lia | apply isUnicast_7bit_range | lia | lia].
Defined.

Lemma findFreeNodeID_nearest_witness :
  (isUnicast_7bit 120 = true → upper_ids_taken 120 = false → 99 = 120) ∧
  (∀ other, first_candidate 127 isUnicast_7bit 120 <= other <= 127 → upper_ids_taken other = false →
            first_candidate 127 isUnicast_7bit 120 <= 99 <= other) ∧
  ((∀ other, first_candidate 127 isUnicast_7bit 120 <= other <= 127 → upper_ids_taken other = true) →
   ∀ other, 1 <= other < first_candidate 127 isUnicast_7bit 120 → upper_ids_taken other = false →
            other <= 99 < first_candidate 127 isUnicast_7bit 120).
Proof.
  apply (findFreeNodeID_nearest 127 255 upper_ids_taken isUnicast_7bit);
    [lia | apply isUnicast_7bit_range | lia | reflexivity].
Defined.

(** The preferred id when it is free; the next free one above it; the
    largest free one below when everything above is taken; from the top
    when the preferred id is the broadcast id; and the invalid id when
    nothing is free. *)
Example findFreeNodeID_runs :
  findFreeNodeID 127 255 upper_ids_taken isUnicast_7bit 42 = Some 42 ∧
  findFreeNodeID 127 255 (λ id, bool_decide (5 <= id <= 7)) isUnicast_7bit 6 = Some 8 ∧
  findFreeNodeID 127 255 upper_ids_taken isUnicast_7bit 120 = Some 99 ∧
  findFreeNodeID 127 255 upper_ids_taken isUnicast_7bit 0 = Some 99 ∧
  findFreeNodeID 127 255 (λ _, true) isUnicast_7bit 42 = Some 255.
Proof. by vm_compute. Qed.

End NodeIDSelector.

(* ================================================================== *)
(** * The on-target UART test                                           *)
(* ================================================================== *)

Module Nucleo.

(** [Buffercmp(pBuffer1, pBuffer2, BufferLength)] of
    [test/ontarget/nucleo_144/src/main.c]. A buffer is the list of bytes
    from where the pointer stands; [while (BufferLength--)] tests the
    length and then decrements it, so inside the loop [BufferLength] is
    already one less. [None] stands for a read past the end of a
    buffer. *)
Fixpoint Buffercmp (pBuffer1 pBuffer2 : list Z) (BufferLength : nat) {struct BufferLength}
  : option nat :=
  match BufferLength with
  | O => Some 0%nat
  | S BufferLength' =>
      match pBuffer1, pBuffer2 with
      | byte1 :: pBuffer1', byte2 :: pBuffer2' =>
          if decide (byte1 ≠ byte2) then Some BufferLength'
          else Buffercmp pBuffer1' pBuffer2' BufferLength'
      | _, _ => None
      end
  end.

(** ** Properties *)

(** On buffers that are long enough [Buffercmp] returns, and it returns
    0 exactly when the buffers agree on their first [BufferLength - 1]
    bytes: the number returned at a mismatch is the count of bytes after
    it, which is 0 for the last byte, so a difference in the last byte
    alone is reported as no difference. A result other than 0 is the
    number of bytes that follow the first mismatch. *)
Theorem Buffercmp_zero_iff pBuffer1 pBuffer2 BufferLength :
  BufferLength ≤ length pBuffer1 → BufferLength ≤ length pBuffer2 →
  ∃ result,
    Buffercmp pBuffer1 pBuffer2 BufferLength = Some result ∧
    (result = 0 ↔ take (BufferLength - 1) pBuffer1 = take (BufferLength - 1) pBuffer2) ∧
    (result ≠ 0 →
     ∃ i, result = BufferLength - 1 - i ∧ i < BufferLength - 1 ∧
          take i pBuffer1 = take i pBuffer2 ∧ pBuffer1 !! i ≠ pBuffer2 !! i).
Proof.
  revert pBuffer1 pBuffer2.
  induction BufferLength as [|n IH]; intros b1 b2 H1 H2; simpl.
  { exists 0. split; [done|]. split; [by split | done]. }
  destruct b1 as [|x b1]; [simpl in H1; lia|].
  destruct b2 as [|y b2]; [simpl in H2; lia|].
  simpl in H1, H2. rewrite Nat.sub_0_r. case_decide as Hxy.
  - exists n. split; [done|]. split.
    + destruct n as [|n]; [done|]. simpl. split; [done|]. by intros [= ? _].
    + intros Hn. exists 0. split_and!; [lia | lia | done |]. simpl. by intros [= ?].
  - assert (x = y) as <- by (by destruct (decide (x = y)); [|destruct Hxy]).
    destruct (IH b1 b2) as (r & -> & Hzero & Hpos); [lia | lia |].
    exists r. split; [done|]. split.
    + rewrite Hzero. destruct n as [|n]; [done|]. simpl. rewrite Nat.sub_0_r.
      split; [by intros -> | by intros [= ?]].
    + intros Hr. destruct (Hpos Hr) as (i & -> & Hi & Htake & Hdiff).
      exists (S i). split_and!; [lia | lia | simpl; by rewrite Htake | done].
Qed.

Lemma Buffercmp_zero_iff_witness :
  ∃ result,
    Buffercmp [1; 2; 3]%Z [1; 2; 4]%Z 3 = Some result ∧
    (result = 0 ↔ take (3 - 1) [1; 2; 3]%Z = take (3 - 1) [1; 2; 4]%Z) ∧
    (result ≠ 0 →
     ∃ i, result = 3 - 1 - i ∧ i < 3 - 1 ∧
          take i [1; 2; 3]%Z = take i [1; 2; 4]%Z ∧ [1; 2; 3]%Z !! i ≠ [1; 2; 4]%Z !! i).
Proof. apply (Buffercmp_zero_iff [1; 2; 3]%Z [1; 2; 4]%Z 3); simpl; lia. Defined.

(** Equal buffers, buffers that differ in the last byte only, and
    buffers that differ earlier. *)
Example Buffercmp_runs :
  Buffercmp [1; 2; 3]%Z [1; 2; 3]%Z 3 = Some 0 ∧
  Buffercmp [1; 2; 3]%Z [1; 2; 4]%Z 3 = Some 0 ∧
  Buffercmp [1; 2; 3]%Z [1; 9; 3]%Z 3 = Some 1 ∧
  Buffercmp [1; 2; 3]%Z [7; 2; 3]%Z 3 = Some 2.
Proof. done. Qed.

End Nucleo.
